(** * Gelatinous: combat sessions and anatomical damage

    A shallow embedding of the combat-resolution and medical core of the
    game (world/combat/grappling.py, world/combat/utils.py,
    world/medical/conditions.py, world/medical/utils.py) together with
    the properties its specification states about it.

    Part I embeds the code; Part II states and proves the properties. *)

From Stdlib Require Import ZArith List String Bool Lia.
From Stdlib Require Import Floats.SpecFloat.
From stdpp Require Import base option list gmap strings.

Local Open Scope string_scope.
Local Open Scope Z_scope.

(** * Part I: the embedding *)

(** ** The Python layer: exceptions, dicts, floats *)

Module Py.

(** The exceptions the embedded code can raise. *)
Inductive exn : Set :=
| TypeError | KeyError | AttributeError
| OverflowError | ValueError | ZeroDivisionError.

(** A computation either returns a value or raises. *)
Inductive result (A : Type) : Type :=
| Ok (a : A)
| Raise (e : exn).
Arguments Ok {A} a.
Arguments Raise {A} e.

Definition bind {A B} (m : result A) (k : A -> result B) : result B :=
  match m with
  | Ok a => k a
  | Raise e => Raise e
  end.

Definition is_ok {A} (m : result A) : bool :=
  match m with Ok _ => true | Raise _ => false end.

(** Values passed positionally to a constructor. *)
Inductive value : Set :=
| VNone
| VInt (n : Z)
| VStr (s : string).

Definition VOptStr (o : option string) : value :=
  match o with Some s => VStr s | None => VNone end.

(** Truthiness of an optional string ([None] and [""] are falsy). *)
Definition truthy_str (o : option string) : bool :=
  match o with
  | Some s => negb (String.eqb s "")
  | None => false
  end.

(** Truthiness of an optional integer ([None] and [0] are falsy). *)
Definition truthy_int (o : option Z) : bool :=
  match o with
  | Some n => negb (n =? 0)
  | None => false
  end.

(** A dict that remembers insertion order: an association list whose
    keys are kept distinct by [dict_set]. *)
Definition dict (K V : Type) : Type := list (K * V).

Fixpoint dict_get {K V} `{EqDecision K} (d : dict K V) (k : K) : option V :=
  match d with
  | [] => None
  | (k', v) :: d' => if decide (k = k') then Some v else dict_get d' k
  end.

Definition dict_get_default {K V} `{EqDecision K}
    (d : dict K V) (k : K) (dflt : V) : V :=
  match dict_get d k with Some v => v | None => dflt end.

Fixpoint dict_set {K V} `{EqDecision K} (d : dict K V) (k : K) (v : V)
    : dict K V :=
  match d with
  | [] => [(k, v)]
  | (k', v') :: d' =>
      if decide (k = k') then (k, v) :: d' else (k', v') :: dict_set d' k v
  end.

Definition dict_keys {K V} (d : dict K V) : list K := map fst d.
Definition dict_values {K V} (d : dict K V) : list V := map snd d.

(** [not l] for a list. *)
Definition is_nil {A} (l : list A) : bool :=
  match l with [] => true | _ :: _ => false end.

(** [sum(...)] over integers. *)
Definition sum (l : list Z) : Z := fold_right Z.add 0 l.

(** *** Floats

    A Python float is an IEEE-754 binary64 number; the operations are
    the standard library's executable specification at precision 53. *)

Definition prec : Z := 53.
Definition emax : Z := 1024.

Definition float : Set := spec_float.

Definition is_finite (f : float) : bool :=
  match f with
  | S754_zero _ | S754_finite _ _ _ => true
  | S754_infinity _ | S754_nan => false
  end.

(** [float(n)] for an int [n]: round to nearest even; an int too large
    for a float raises OverflowError. *)
Definition float_of_int (n : Z) : result float :=
  let f := binary_normalize prec emax n 0 false in
  if is_finite f then Ok f else Raise OverflowError.

(** [a / b] on two ints: the correctly rounded quotient. *)
Definition int_truediv (a b : Z) : result float :=
  if b =? 0 then Raise ZeroDivisionError
  else if a =? 0 then Ok (S754_zero (b <? 0))
  else
    let '(mz, ez, lz) :=
      SFdiv_core_binary prec emax (Z.abs a) 0 (Z.abs b) 0 in
    let f := binary_round_aux prec emax (xorb (a <? 0) (b <? 0)) mz ez lz in
    if is_finite f then Ok f else Raise OverflowError.

(** [x * n] for a float [x] and an int [n]: the int is converted first. *)
Definition float_mul_int (x : float) (n : Z) : result float :=
  bind (float_of_int n) (fun y => Ok (SFmul prec emax x y)).

(** [n * x] for an int [n] and a float [x]. *)
Definition int_mul_float (n : Z) (x : float) : result float :=
  bind (float_of_int n) (fun y => Ok (SFmul prec emax y x)).

(** [int(x)]: truncation toward zero; infinities and NaN raise. *)
Definition int_of_float (x : float) : result Z :=
  match x with
  | S754_zero _ => Ok 0
  | S754_finite s m e =>
      let a := match e with
               | Zneg p => Z.shiftr (Zpos m) (Zpos p)
               | _ => Z.shiftl (Zpos m) e
               end in
      Ok (if s then - a else a)
  | S754_infinity _ => Raise OverflowError
  | S754_nan => Raise ValueError
  end.

(** A bound on the magnitude of a float: zero, or finite with a
    mantissa below [2 ^ K] where [K + e <= Kb] and [e <= Eb]. *)
Definition mag (f : float) (Kb Eb : Z) : Prop :=
  match f with
  | S754_zero _ => True
  | S754_finite _ m e =>
      exists K, 0 <= K /\ Z.pos m < 2 ^ K /\ e <= Eb /\ K + e <= Kb
  | _ => False
  end.

(** The literal [0.3]. *)
Definition float_0_3 : float := S754_finite false 5404319552844595 (-54).

(** The literal [0.5]. *)
Definition float_0_5 : float := S754_finite false 4503599627370496 (-53).

End Py.

Import Py.

Notation "'do' x <- m ; k" := (Py.bind m (fun x => k))
  (at level 10, x name, m at level 100, k at level 200).

(** ** world/medical: conditions and damage distribution *)

Module Medical.

(** *** Tables of world/medical/constants.py

    The module of constants is not among the sources; its tables are
    taken as parameters. [ORGANS] maps an organ name to its data (the
    keys the code reads are "container" and "hit_weight"), in the
    order the dict was written. *)

Record OrganSpec : Type := {
  container : option string;
  hit_weight : option string
}.

Record Constants : Type := {
  ORGANS : dict string OrganSpec;
  HIT_WEIGHTS : gmap string Z;
  BLOOD_LOSS_PER_SEVERITY : gmap Z Z;
  HEALING_EFFECTIVENESS : gmap string float
}.

(** *** conditions.py: the condition classes *)

Inductive CondClass : Set :=
| MedicalCondition
| BleedingCondition
| PainCondition
| InfectionCondition.

(** Attributes a subclass adds to the base ones. *)
Inductive Extra : Set :=
| NoExtra
| BleedingAttrs (blood_loss_rate : Z)
| InfectionAttrs (base_progression_chance : float)
                 (last_progression_check : float)
                 (environmental_modifier : float).

Record Condition : Set := {
  cls : CondClass;
  condition_type : string;
  severity : Z;
  max_severity : Z;
  location : option string;
  tick_interval : Z;
  requires_ticker : bool;
  treated : bool;
  extra : Extra
}.

Definition set_severity (c : Condition) (s : Z) : Condition :=
  {| cls := cls c; condition_type := condition_type c; severity := s;
     max_severity := max_severity c; location := location c;
     tick_interval := tick_interval c;
     requires_ticker := requires_ticker c; treated := treated c;
     extra := extra c |}.

Definition set_max_severity (c : Condition) (s : Z) : Condition :=
  {| cls := cls c; condition_type := condition_type c;
     severity := severity c; max_severity := s; location := location c;
     tick_interval := tick_interval c;
     requires_ticker := requires_ticker c; treated := treated c;
     extra := extra c |}.

Definition set_tick_interval (c : Condition) (t : Z) : Condition :=
  {| cls := cls c; condition_type := condition_type c;
     severity := severity c; max_severity := max_severity c;
     location := location c; tick_interval := t;
     requires_ticker := requires_ticker c; treated := treated c;
     extra := extra c |}.

Definition set_requires_ticker (c : Condition) (b : bool) : Condition :=
  {| cls := cls c; condition_type := condition_type c;
     severity := severity c; max_severity := max_severity c;
     location := location c; tick_interval := tick_interval c;
     requires_ticker := b; treated := treated c; extra := extra c |}.

Definition set_treated (c : Condition) (b : bool) : Condition :=
  {| cls := cls c; condition_type := condition_type c;
     severity := severity c; max_severity := max_severity c;
     location := location c; tick_interval := tick_interval c;
     requires_ticker := requires_ticker c; treated := b;
     extra := extra c |}.

Definition set_extra (c : Condition) (x : Extra) : Condition :=
  {| cls := cls c; condition_type := condition_type c;
     severity := severity c; max_severity := max_severity c;
     location := location c; tick_interval := tick_interval c;
     requires_ticker := requires_ticker c; treated := treated c;
     extra := x |}.

(** [self.blood_loss_rate]: only a bleeding condition has it. *)
Definition blood_loss_rate (c : Condition) : result Z :=
  match extra c with
  | BleedingAttrs r => Ok r
  | _ => Raise AttributeError
  end.

(** The persisted mapping written by [to_dict]; a field is [None] when
    the key is absent (for "location", also when its value is None). *)
Record CondData : Set := {
  data_condition_type : option string;
  data_severity : option Z;
  data_max_severity : option Z;
  data_location : option string;
  data_tick_interval : option Z;
  data_requires_ticker : option bool;
  data_treated : option bool;
  data_blood_loss_rate : option Z
}.

(** *** The medical state (world/medical/core.py) *)

(** Modelled from the spec: the Organ and MedicalState classes live in
    world/medical/core.py, which is not among the sources. An organ has
    current and maximal hit points and is destroyed at 0 HP; the state
    holds blood level, pain level, consciousness, the condition list
    and the organ map. *)
Record Organ : Set := {
  current_hp : Z;
  max_hp : Z
}.

Definition is_destroyed (o : Organ) : bool := current_hp o <=? 0.

Record MedicalState : Type := {
  blood_level : Z;
  pain_level : Z;
  consciousness : float;
  conditions : list Condition;
  organs : gmap string Organ
}.

Definition get_organ (ms : MedicalState) (organ_name : string)
    : option Organ :=
  organs ms !! organ_name.

Definition set_blood_level (ms : MedicalState) (b : Z) : MedicalState :=
  {| blood_level := b; pain_level := pain_level ms;
     consciousness := consciousness ms; conditions := conditions ms;
     organs := organs ms |}.

(** A character as the medical code sees it: [medical_state] is [None]
    when the attribute is missing. *)
Record Character : Type := {
  key : string;
  medical_state : option MedicalState
}.

Definition set_medical_state (ch : Character) (ms : MedicalState)
    : Character :=
  {| key := key ch; medical_state := Some ms |}.

Section WithConstants.

Variable K : Constants.

(** [MedicalCondition.__init__(self, condition_type, severity,
    location=None, tick_interval=60)], run for an instance of [c]. *)
Definition MedicalCondition__init__ (c : CondClass)
    (condition_type : string) (severity : Z)
    (location : option string) (tick_interval : Z) : Condition :=
  {| cls := c; condition_type := condition_type; severity := severity;
     max_severity := severity; location := location;
     tick_interval := tick_interval; requires_ticker := true;
     treated := false; extra := NoExtra |}.

(** [BleedingCondition.__init__(self, severity, location=None)]. *)
Definition BleedingCondition__init__ (severity : Z)
    (location : option string) : Condition :=
  set_extra
    (MedicalCondition__init__ BleedingCondition "minor_bleeding"
       severity location 60)
    (BleedingAttrs
       (default 1 (BLOOD_LOSS_PER_SEVERITY K !! severity))).

(** [PainCondition.__init__(self, severity, location=None)]. *)
Definition PainCondition__init__ (severity : Z)
    (location : option string) : Condition :=
  MedicalCondition__init__ PainCondition "pain" severity location 120.

(** [InfectionCondition.__init__(self, severity, location=None)]. *)
Definition InfectionCondition__init__ (severity : Z)
    (location : option string) : Condition :=
  set_extra
    (MedicalCondition__init__ InfectionCondition "infection"
       severity location 300)
    (InfectionAttrs (S754_finite false 4503599627370496 (-52))
                    (S754_zero false)
                    (S754_finite false 4503599627370496 (-52))).

(** A positional argument bound to a [location] parameter. *)
Definition as_location (v : value) : result (option string) :=
  match v with
  | VNone => Ok None
  | VStr s => Ok (Some s)
  | VInt _ => Raise TypeError
  end.

(** The call of class [c] on [args]: the positional arguments are bound to the
    parameters of the class's [__init__]; too few or too many
    arguments raise TypeError. (An argument of a type the embedding
    has no field for is answered with TypeError as well; no modelled
    caller passes one.) *)
Definition call (c : CondClass) (args : list value) : result Condition :=
  match c with
  | MedicalCondition =>
      match args with
      | [VStr ct; VInt sev] =>
          Ok (MedicalCondition__init__ c ct sev None 60)
      | [VStr ct; VInt sev; loc] =>
          do l <- as_location loc;
          Ok (MedicalCondition__init__ c ct sev l 60)
      | [VStr ct; VInt sev; loc; VInt ti] =>
          do l <- as_location loc;
          Ok (MedicalCondition__init__ c ct sev l ti)
      | _ => Raise TypeError
      end
  | BleedingCondition =>
      match args with
      | [VInt sev] => Ok (BleedingCondition__init__ sev None)
      | [VInt sev; loc] =>
          do l <- as_location loc; Ok (BleedingCondition__init__ sev l)
      | _ => Raise TypeError
      end
  | PainCondition =>
      match args with
      | [VInt sev] => Ok (PainCondition__init__ sev None)
      | [VInt sev; loc] =>
          do l <- as_location loc; Ok (PainCondition__init__ sev l)
      | _ => Raise TypeError
      end
  | InfectionCondition =>
      match args with
      | [VInt sev] => Ok (InfectionCondition__init__ sev None)
      | [VInt sev; loc] =>
          do l <- as_location loc; Ok (InfectionCondition__init__ sev l)
      | _ => Raise TypeError
      end
  end.

(** [MedicalCondition.to_dict]. *)
Definition MedicalCondition_to_dict (self : Condition) : CondData :=
  {| data_condition_type := Some (condition_type self);
     data_severity := Some (severity self);
     data_max_severity := Some (max_severity self);
     data_location := location self;
     data_tick_interval := Some (tick_interval self);
     data_requires_ticker := Some (requires_ticker self);
     data_treated := Some (treated self);
     data_blood_loss_rate := None |}.

(** [BleedingCondition.to_dict]: the base mapping plus the rate. *)
Definition BleedingCondition_to_dict (self : Condition)
    : result CondData :=
  let data := MedicalCondition_to_dict self in
  do r <- blood_loss_rate self;
  Ok {| data_condition_type := data_condition_type data;
        data_severity := data_severity data;
        data_max_severity := data_max_severity data;
        data_location := data_location data;
        data_tick_interval := data_tick_interval data;
        data_requires_ticker := data_requires_ticker data;
        data_treated := data_treated data;
        data_blood_loss_rate := Some r |}.

(** [self.to_dict()], resolved on the class of [self]. *)
Definition to_dict (self : Condition) : result CondData :=
  match cls self with
  | BleedingCondition => BleedingCondition_to_dict self
  | _ => Ok (MedicalCondition_to_dict self)
  end.

(** The classmethod [MedicalCondition.from_dict(cls, data)]. *)
Definition MedicalCondition_from_dict (c : CondClass) (data : CondData)
    : result Condition :=
  do condition <-
    call c [VStr (default "unknown" (data_condition_type data));
            VInt (default 1 (data_severity data));
            VOptStr (data_location data)];
  let condition :=
    set_max_severity condition
      (default (severity condition) (data_max_severity data)) in
  let condition :=
    set_tick_interval condition (default 60 (data_tick_interval data)) in
  let condition :=
    set_requires_ticker condition
      (default true (data_requires_ticker data)) in
  let condition :=
    set_treated condition (default false (data_treated data)) in
  Ok condition.

(** The classmethod [BleedingCondition.from_dict(cls, data)]. *)
Definition BleedingCondition_from_dict (c : CondClass) (data : CondData)
    : result Condition :=
  do condition <-
    call c [VInt (default 1 (data_severity data));
            VOptStr (data_location data)];
  let condition :=
    set_max_severity condition
      (default (severity condition) (data_max_severity data)) in
  let condition :=
    set_tick_interval condition (default 60 (data_tick_interval data)) in
  let condition :=
    set_requires_ticker condition
      (default true (data_requires_ticker data)) in
  let condition :=
    set_treated condition (default false (data_treated data)) in
  do r0 <- blood_loss_rate condition;
  Ok (set_extra condition
        (BleedingAttrs (default r0 (data_blood_loss_rate data)))).

(** [c.from_dict(data)]: only BleedingCondition overrides the
    classmethod; the other classes inherit the base one. *)
Definition from_dict (c : CondClass) (data : CondData)
    : result Condition :=
  match c with
  | BleedingCondition => BleedingCondition_from_dict c data
  | _ => MedicalCondition_from_dict c data
  end.

(** [BleedingCondition.tick_effect(self, character)]; [roll] is the
    value [random.randint(1, 100)] returns if it is called. *)
Definition BleedingCondition_tick_effect (self : Condition)
    (character : Character) (roll : Z)
    : result (Condition * Character) :=
  match medical_state character with
  | None => Ok (self, character)
  | Some medical_state =>
      do rate <- blood_loss_rate self;
      do blood_loss <-
        (if treated self
         then do x <- int_mul_float rate float_0_3; int_of_float x
         else Ok rate);
      let medical_state :=
        set_blood_level medical_state
          (Z.max 0 (blood_level medical_state - blood_loss)) in
      let self :=
        if negb (treated self) && (roll <=? 10)
        then set_severity self (Z.max 0 (severity self - 1))
        else self in
      Ok (self, set_medical_state character medical_state)
  end.

(** [BleedingCondition.get_blood_loss_rate]. *)
Definition BleedingCondition_get_blood_loss_rate (self : Condition)
    : result Z :=
  do rate <- blood_loss_rate self;
  if treated self
  then do x <- int_mul_float rate float_0_3; int_of_float x
  else Ok rate.

(** [should_end]: the same test in every class. *)
Definition should_end (self : Condition) : bool := severity self <=? 0.

(** [BleedingCondition.apply_treatment(self, treatment_quality)]. *)
Definition BleedingCondition_apply_treatment (self : Condition)
    (treatment_quality : string) : result Condition :=
  let self := set_treated self true in
  let effectiveness :=
    default float_0_5 (HEALING_EFFECTIVENESS K !! treatment_quality) in
  do x <- int_mul_float (severity self) effectiveness;
  do n <- int_of_float x;
  let severity_reduction := Z.max 1 n in
  let self :=
    set_severity self (Z.max 0 (severity self - severity_reduction)) in
  do rate <- blood_loss_rate self;
  do y <- int_mul_float rate float_0_3;
  do m <- int_of_float y;
  Ok (set_extra self (BleedingAttrs (Z.max 1 m))).

(** [PainCondition.tick_effect(self, character)]. *)
Definition PainCondition_tick_effect (self : Condition) (roll : Z)
    : Condition :=
  if roll <=? 20
  then set_severity self (Z.max 0 (severity self - 1))
  else self.

End WithConstants.

(** *** utils.py: damage distribution *)

(** The mapping [apply_anatomical_damage] returns; [limb_lost] and
    [message] are [None] when the key is absent. *)
Record DamageResult : Type := {
  organs_damaged : list (string * Z);
  organs_destroyed : list string;
  conditions_added : list Condition;
  total_damage : Z;
  result_location : string;
  limb_lost : option bool;
  message : option string
}.

Section Utils.

Variable K : Constants.

(** [MedicalState.take_organ_damage] and
    [MedicalState.update_vital_signs] are methods of
    world/medical/core.py, which is not among the sources; they are
    parameters of the embedding. *)
Variable take_organ_damage :
  MedicalState -> string -> Z -> string -> MedicalState * bool.
Variable update_vital_signs : MedicalState -> MedicalState.

Definition get_organ_by_body_location (location : string)
    : list string :=
  dict_keys
    (filter (fun '(organ_name, organ_data) =>
               container organ_data = Some location)
            (ORGANS K)).

(** [HIT_WEIGHTS.get(weight_category, HIT_WEIGHTS["common"])]: the
    default is evaluated first and raises KeyError when missing. *)
Definition hit_weight_value (weight_category : string) : result Z :=
  match HIT_WEIGHTS K !! "common" with
  | None => Raise KeyError
  | Some common => Ok (default common (HIT_WEIGHTS K !! weight_category))
  end.

Fixpoint hit_weights_loop (organs : list string)
    (hit_weights : dict string Z) : result (dict string Z) :=
  match organs with
  | [] => Ok hit_weights
  | organ_name :: rest =>
      let weight_category :=
        match dict_get (ORGANS K) organ_name with
        | Some organ_data => default "common" (hit_weight organ_data)
        | None => "common"
        end in
      do weight_value <- hit_weight_value weight_category;
      hit_weights_loop rest (dict_set hit_weights organ_name weight_value)
  end.

Definition calculate_hit_weights_for_location (location : string)
    : result (dict string Z) :=
  hit_weights_loop (get_organ_by_body_location location) [].

(** The organs of [organs] that are not destroyed;
    [medical_state.get_organ(name).is_destroyed()] raises
    AttributeError on an organ the state does not have. *)
Fixpoint functional_organs_of (medical_state : MedicalState)
    (organs : list string) : result (list string) :=
  match organs with
  | [] => Ok []
  | organ_name :: rest =>
      match get_organ medical_state organ_name with
      | None => Raise AttributeError
      | Some organ =>
          do tail <- functional_organs_of medical_state rest;
          Ok (if is_destroyed organ then tail else organ_name :: tail)
      end
  end.

(** [int((organ_weight / total_weight) * total_damage)]. *)
Definition organ_share (organ_weight total_weight total_damage : Z)
    : result Z :=
  do q <- int_truediv organ_weight total_weight;
  do x <- float_mul_int q total_damage;
  int_of_float x.

(** The loop over [functional_organs[:-1]]. *)
Fixpoint distribute_loop (hit_weights : dict string Z)
    (total_weight total_damage : Z) (organs : list string)
    (damage_distribution : dict string Z) (remaining_damage : Z)
    : result (dict string Z * Z) :=
  match organs with
  | [] => Ok (damage_distribution, remaining_damage)
  | organ_name :: rest =>
      let organ_weight := dict_get_default hit_weights organ_name 0 in
      do organ_damage <-
        organ_share organ_weight total_weight total_damage;
      distribute_loop hit_weights total_weight total_damage rest
        (dict_set damage_distribution organ_name organ_damage)
        (remaining_damage - organ_damage)
  end.

Definition distribute_damage_to_organs (location : string)
    (total_damage : Z) (medical_state : MedicalState)
    (injury_type : string) (target_organ : option string)
    : result (dict string Z) :=
  let organs := get_organ_by_body_location location in
  if is_nil organs then Ok []
  else
    do functional_organs <- functional_organs_of medical_state organs;
    if is_nil functional_organs then Ok []
    else if truthy_str target_organ
            && bool_decide (default "" target_organ ∈ functional_organs)
    then Ok [(default "" target_organ, total_damage)]
    else
      do hit_weights <- calculate_hit_weights_for_location location;
      let total_weight :=
        sum (map (fun organ_name =>
                    dict_get_default hit_weights organ_name 0)
                 functional_organs) in
      if total_weight =? 0 then Ok []
      else
        do r <-
          distribute_loop hit_weights total_weight total_damage
            (removelast functional_organs) [] total_damage;
        Ok (dict_set (fst r) (List.last functional_organs "") (snd r)).

(** The loop of [apply_anatomical_damage] over the distribution. *)
Fixpoint apply_loop (injury_type : string)
    (damage_distribution : dict string Z)
    (medical_state : MedicalState) (results : DamageResult)
    : MedicalState * DamageResult :=
  match damage_distribution with
  | [] => (medical_state, results)
  | (organ_name, organ_damage) :: rest =>
      if 0 <? organ_damage then
        let '(medical_state, was_destroyed) :=
          take_organ_damage medical_state organ_name organ_damage
            injury_type in
        let results :=
          {| organs_damaged :=
               organs_damaged results ++ [(organ_name, organ_damage)];
             organs_destroyed :=
               if was_destroyed
               then organs_destroyed results ++ [organ_name]
               else organs_destroyed results;
             conditions_added := conditions_added results;
             total_damage := total_damage results;
             result_location := result_location results;
             limb_lost := limb_lost results;
             message := message results |} in
        apply_loop injury_type rest medical_state results
      else apply_loop injury_type rest medical_state results
  end.

(** [apply_anatomical_damage] on a character that has a medical
    state; it returns the result mapping and the state afterwards. *)
Definition apply_anatomical_damage (medical_state : MedicalState)
    (damage_amount : Z) (location : string) (injury_type : string)
    (target_organ : option string)
    : result (DamageResult * MedicalState) :=
  do damage_distribution <-
    distribute_damage_to_organs location damage_amount medical_state
      injury_type target_organ;
  if is_nil damage_distribution
     && negb (is_nil (get_organ_by_body_location location))
  then
    Ok ({| organs_damaged := []; organs_destroyed := [];
           conditions_added := []; total_damage := 0;
           result_location := location; limb_lost := Some true;
           message :=
             Some ("No damage applied - all organs in " ++ location
                   ++ " are already destroyed") |},
        medical_state)
  else
    let results :=
      {| organs_damaged := []; organs_destroyed := [];
         conditions_added := []; total_damage := damage_amount;
         result_location := location; limb_lost := None;
         message := None |} in
    let '(medical_state, results) :=
      apply_loop injury_type damage_distribution medical_state results in
    Ok (results, update_vital_signs medical_state).

End Utils.

(** *** conditions.py: creating and removing conditions *)

#[global] Instance spec_float_eq_dec : EqDecision spec_float.
Proof. solve_decision. Defined.

#[global] Instance CondClass_eq_dec : EqDecision CondClass.
Proof. solve_decision. Defined.

#[global] Instance Extra_eq_dec : EqDecision Extra.
Proof. solve_decision. Defined.

#[global] Instance Condition_eq_dec : EqDecision Condition.
Proof. solve_decision. Defined.

Definition set_conditions (ms : MedicalState) (l : list Condition)
    : MedicalState :=
  {| blood_level := blood_level ms; pain_level := pain_level ms;
     consciousness := consciousness ms; conditions := l;
     organs := organs ms |}.

(** [create_condition_from_damage(damage_amount, damage_type,
    location)] for an int amount. The table
    [BLEEDING_DAMAGE_THRESHOLDS] of constants.py is a parameter;
    [chance_roll] is what [random.randint(1, 100)] returns and
    [severity_roll] what [random.randint(1, 3)] returns, if they are
    called. *)
Definition create_condition_from_damage (K : Constants)
    (BLEEDING_DAMAGE_THRESHOLDS : gmap string Z)
    (damage_amount : Z) (damage_type : string) (location : option string)
    (chance_roll severity_roll : Z) : list Condition :=
  let conditions : list Condition := [] in
  let threshold := default 5 (BLEEDING_DAMAGE_THRESHOLDS !! "minor") in
  let conditions :=
    if threshold <=? damage_amount then
      let bleeding_severity := Z.min 10 (Z.max 1 (damage_amount / 3)) in
      (conditions
         ++ [BleedingCondition__init__ K bleeding_severity location])%list
    else conditions in
  let conditions :=
    if 0 <? damage_amount then
      let pain_severity := Z.min 8 (Z.max 1 (damage_amount / 2)) in
      (conditions ++ [PainCondition__init__ pain_severity location])%list
    else conditions in
  if bool_decide (damage_type ∈ ["bullet"; "blade"; "pierce"])
     && (8 <=? damage_amount)
  then
    if chance_roll <=? 25 then
      let infection_severity := severity_roll in
      (conditions
         ++ [InfectionCondition__init__ infection_severity location])%list
    else conditions
  else conditions.

(** [l.remove(x)]: the first element equal to [x] is taken out;
    ValueError when there is none. Conditions define no [__eq__]: an
    element equals [x] when it is [x]. Where [remove] is called below,
    every element before [x] that has the fields of [x] has been
    removed already, so the first element with the fields of [x] is
    [x]. *)
Fixpoint list_remove (x : Condition) (l : list Condition)
    : result (list Condition) :=
  match l with
  | [] => Raise ValueError
  | y :: l' =>
      if decide (y = x) then Ok l'
      else do r <- list_remove x l'; Ok (y :: r)
  end.

(** [remove_condition_by_type(character, condition_type)];
    [end_condition] does nothing. *)
Definition remove_condition_by_type (character : Character)
    (condition_type_ : string) : result Character :=
  match medical_state character with
  | None => Ok character
  | Some medical_state =>
      let conditions_to_remove :=
        filter (fun c => condition_type c = condition_type_)
          (conditions medical_state) in
      do remaining <-
        fold_left (fun acc condition =>
                     do l <- acc; list_remove condition l)
          conditions_to_remove (Ok (conditions medical_state));
      Ok (set_medical_state character
            (set_conditions medical_state remaining))
  end.

(** *** utils.py: picking the organ that is hit *)

(** The literals [3.0], [2.0], [1.5] and [0.7]. *)
Definition float_3_0 : float := S754_finite false 6755399441055744 (-51).
Definition float_2_0 : float := S754_finite false 4503599627370496 (-51).
Definition float_1_5 : float := S754_finite false 6755399441055744 (-52).
Definition float_0_7 : float := S754_finite false 6305039478318694 (-53).

(** [int(base_weight * x)]. *)
Definition int_of_scaled (base_weight : Z) (x : float) : result Z :=
  do y <- int_mul_float base_weight x; int_of_float y.

Section Selection.

Variable K : Constants.

(** [max(int(weight), 1)] for the weight the precision gives an organ
    of category [hit_weight_category]. *)
Definition precision_weight (hit_weight_category : string)
    (base_weight precision_total : Z) : result Z :=
  do weight <-
    (if String.eqb hit_weight_category "very_rare" then
       if 25 <=? precision_total then int_of_scaled base_weight float_3_0
       else if 20 <=? precision_total
       then int_of_scaled base_weight float_2_0
       else int_of_scaled base_weight float_0_5
     else if String.eqb hit_weight_category "rare" then
       if 20 <=? precision_total then int_of_scaled base_weight float_2_0
       else if 15 <=? precision_total
       then int_of_scaled base_weight float_1_5
       else Ok base_weight
     else
       if 20 <=? precision_total then int_of_scaled base_weight float_0_7
       else Ok base_weight);
  Ok (Z.max weight 1).

(** The loop that fills [organ_weights]. *)
Fixpoint organ_weights_loop (organs : list string) (precision_total : Z)
    (organ_weights : dict string Z) : result (dict string Z) :=
  match organs with
  | [] => Ok organ_weights
  | organ_name :: rest =>
      let hit_weight_category :=
        match dict_get (ORGANS K) organ_name with
        | Some organ_data => default "common" (hit_weight organ_data)
        | None => "common"
        end in
      do base_weight <- hit_weight_value K hit_weight_category;
      do weight <-
        precision_weight hit_weight_category base_weight precision_total;
      organ_weights_loop rest precision_total
        (dict_set organ_weights organ_name weight)
  end.

(** The loop of the weighted selection: the first name whose
    cumulative weight reaches [rand_value]. *)
Fixpoint weighted_choice (items : dict string Z)
    (rand_value cumulative_weight : Z) : option string :=
  match items with
  | [] => None
  | (name, weight) :: rest =>
      let cumulative_weight := cumulative_weight + weight in
      if rand_value <=? cumulative_weight then Some name
      else weighted_choice rest rand_value cumulative_weight
  end.

(** [select_target_organ(location, precision_roll, attacker_skill)];
    [rand_value] is what [random.randint(1, total_weight)] returns. *)
Definition select_target_organ (location : string)
    (precision_roll attacker_skill rand_value : Z)
    : result (option string) :=
  let organs := get_organ_by_body_location K location in
  if is_nil organs then Ok None
  else
    let precision_total := precision_roll + attacker_skill in
    do organ_weights <- organ_weights_loop organs precision_total [];
    let total_weight := sum (dict_values organ_weights) in
    if total_weight =? 0 then Ok (head organs)
    else
      match weighted_choice organ_weights rand_value 0 with
      | Some organ_name => Ok (Some organ_name)
      | None => Ok (head organs)
      end.

End Selection.

(** *** utils.py: medical items *)

(** What the item helpers read of an item: whether it carries the tag
    "medical_item" of category "item_type", and its attributes
    ([None]: the attribute is not set). *)
Record Item : Type := {
  has_medical_tag : bool;
  attr_medical_type : option string;
  attr_uses_left : option Z;
  attr_stat_requirement : option Z;
  attr_effectiveness : option (dict string Z)
}.

Definition set_uses_left (item : Item) (n : Z) : Item :=
  {| has_medical_tag := has_medical_tag item;
     attr_medical_type := attr_medical_type item;
     attr_uses_left := Some n;
     attr_stat_requirement := attr_stat_requirement item;
     attr_effectiveness := attr_effectiveness item |}.

Definition is_medical_item (item : Item) : bool := has_medical_tag item.

Definition get_medical_type (item : Item) : string :=
  default "" (attr_medical_type item).

Definition can_be_used (item : Item) : bool :=
  if negb (is_medical_item item) then false
  else
    let uses_left := default 1 (attr_uses_left item) in
    0 <? uses_left.

(** [use_item(item)]: the item afterwards and the value returned. *)
Definition use_item (item : Item) : Item * bool :=
  if negb (is_medical_item item) then (item, false)
  else
    let uses_left := default 1 (attr_uses_left item) in
    if 0 <? uses_left then (set_uses_left item (uses_left - 1), true)
    else (item, false).

Definition get_stat_requirement (item : Item) : Z :=
  default 0 (attr_stat_requirement item).

Definition get_effectiveness (item : Item) (condition_type_ : string) : Z :=
  dict_get_default (default [] (attr_effectiveness item)) condition_type_ 5.

(** *** Vocabulary of the properties *)

(** A functional organ: one the medical state has and that is not
    destroyed. *)
Definition is_functional (medical_state : MedicalState)
    (organ_name : string) : bool :=
  match get_organ medical_state organ_name with
  | Some organ => negb (is_destroyed organ)
  | None => false
  end.

(** The hit weight [calculate_hit_weights_for_location] gives an
    organ. *)
Definition organ_hit_weight (K : Constants) (organ_name : string) : Z :=
  let weight_category :=
    match dict_get (ORGANS K) organ_name with
    | Some organ_data => default "common" (hit_weight organ_data)
    | None => "common"
    end in
  match HIT_WEIGHTS K !! "common" with
  | Some common => default common (HIT_WEIGHTS K !! weight_category)
  | None => 0
  end.

(** What the missing tables are taken to satisfy: [ORGANS] is a dict
    (its keys are distinct), [HIT_WEIGHTS] has the "common" entry the
    code indexes, and every hit weight is positive. *)
Definition tables_well_formed (K : Constants) : Prop :=
  NoDup (dict_keys (ORGANS K))
  /\ is_Some (HIT_WEIGHTS K !! "common")
  /\ map_Forall (fun _ w => 0 < w) (HIT_WEIGHTS K).

(** The target organ is one of the functional organs (and truthy). *)
Definition valid_target (target_organ : option string)
    (functional_organs : list string) : bool :=
  truthy_str target_organ
  && bool_decide (default "" target_organ ∈ functional_organs).

(** Amounts far below the overflow threshold of a float: no float
    operation of the damage code overflows on them. *)
Definition representable (n : Z) : Prop := Z.abs n < 2 ^ 512.

(** A bleeding condition created at severity [s] and ticked any number
    of times since, never treated. *)
Inductive untreated_bleeding (K : Constants) (s : Z)
    (loc : option string) : Condition -> Prop :=
| ub_created :
    untreated_bleeding K s loc (BleedingCondition__init__ K s loc)
| ub_ticked c character roll c' character' :
    untreated_bleeding K s loc c ->
    BleedingCondition_tick_effect c character roll = Ok (c', character') ->
    untreated_bleeding K s loc c'.

(** [int(n * 0.3)]. *)
Definition int_of_3_tenths (n : Z) : result Z :=
  do x <- int_mul_float n float_0_3; int_of_float x.

(** *** A small anatomy on which the code is evaluated

    The tables being parameters, these values only serve to run the
    code: two chest organs of equal hit weight, a destroyed brain, and
    a blood-loss rate of 10 at severity 4. *)

Definition example_constants : Constants :=
  {| ORGANS :=
       [("heart", {| container := Some "chest";
                     hit_weight := Some "rare" |});
        ("left_lung", {| container := Some "chest";
                         hit_weight := Some "rare" |});
        ("brain", {| container := Some "head"; hit_weight := None |})];
     HIT_WEIGHTS := {[ "common" := 25; "rare" := 8 ]};
     BLOOD_LOSS_PER_SEVERITY := {[ 4 := 10 ]};
     HEALING_EFFECTIVENESS := ∅ |}.

Definition example_state : MedicalState :=
  {| blood_level := 100; pain_level := 0;
     consciousness := S754_finite false 4503599627370496 (-52);
     conditions := [];
     organs :=
       {[ "heart" := {| current_hp := 10; max_hp := 10 |};
          "left_lung" := {| current_hp := 10; max_hp := 10 |};
          "brain" := {| current_hp := 0; max_hp := 10 |} ]} |}.

Definition example_character : Character :=
  {| key := "A"; medical_state := Some example_state |}.

(** Stand-ins for the two methods of core.py: an organ loses the
    damage it takes, and nothing else changes. *)
Definition example_take_organ_damage (ms : MedicalState)
    (organ_name : string) (amount : Z) (injury_type : string)
    : MedicalState * bool :=
  match organs ms !! organ_name with
  | Some organ =>
      let hp := Z.max 0 (current_hp organ - amount) in
      ({| blood_level := blood_level ms; pain_level := pain_level ms;
          consciousness := consciousness ms; conditions := conditions ms;
          organs := <[organ_name := {| current_hp := hp;
                                       max_hp := max_hp organ |}]>
                      (organs ms) |},
       hp <=? 0)
  | None => (ms, false)
  end.

Definition example_update_vital_signs (ms : MedicalState)
    : MedicalState := ms.

(** The same character with the left lung destroyed as well. *)
Definition example_state_wounded : MedicalState :=
  {| blood_level := 80; pain_level := 4;
     consciousness := S754_finite false 4503599627370496 (-52);
     conditions := [];
     organs :=
       {[ "heart" := {| current_hp := 10; max_hp := 10 |};
          "left_lung" := {| current_hp := 0; max_hp := 10 |};
          "brain" := {| current_hp := 0; max_hp := 10 |} ]} |}.

End Medical.

(** ** world/combat: sessions, grapples, removal *)

Module Combat.

(** A character is referred to by its database id (dbref); two
    character objects are equal when their ids are. *)
Definition dbref : Set := Z.

Record Weapon : Set := {
  is_ranged : bool
}.

(** The transient ndb attributes cleared when a combatant leaves. *)
Inductive NdbAttr : Set :=
| NDB_SKIP_ROUND
| NDB_CHARGE_VULNERABILITY
| NDB_CHARGE_BONUS
| skip_combat_round.

#[global] Instance NdbAttr_eq_dec : EqDecision NdbAttr.
Proof. solve_decision. Defined.

(** What the combat code reads and writes on a character object.
    [in_db] tells whether [search_object] still finds the character;
    an ndb attribute that is not set is [None] (or absent from
    [ndb_flags]). *)
Record CharState : Type := {
  in_db : bool;
  location : option Z;
  motorics : option Z;
  hands : list (string * option Weapon);
  is_dead : bool;
  is_unconscious : bool;
  override_place : option string;
  in_proximity_with : option (gset Z);
  combat_handler : option Z;
  ndb_flags : list NdbAttr
}.

(** The character objects, by id. *)
Definition World : Type := gmap Z CharState.

Definition set_in_proximity_with (st : CharState) (p : option (gset Z))
    : CharState :=
  {| in_db := in_db st; location := location st; motorics := motorics st;
     hands := hands st; is_dead := is_dead st;
     is_unconscious := is_unconscious st;
     override_place := override_place st; in_proximity_with := p;
     combat_handler := combat_handler st; ndb_flags := ndb_flags st |}.

Definition set_combat_handler (st : CharState) (h : option Z)
    : CharState :=
  {| in_db := in_db st; location := location st; motorics := motorics st;
     hands := hands st; is_dead := is_dead st;
     is_unconscious := is_unconscious st;
     override_place := override_place st;
     in_proximity_with := in_proximity_with st;
     combat_handler := h; ndb_flags := ndb_flags st |}.

Definition set_override_place (st : CharState) (o : option string)
    : CharState :=
  {| in_db := in_db st; location := location st; motorics := motorics st;
     hands := hands st; is_dead := is_dead st;
     is_unconscious := is_unconscious st;
     override_place := o; in_proximity_with := in_proximity_with st;
     combat_handler := combat_handler st; ndb_flags := ndb_flags st |}.

Definition set_ndb_flags (st : CharState) (f : list NdbAttr)
    : CharState :=
  {| in_db := in_db st; location := location st; motorics := motorics st;
     hands := hands st; is_dead := is_dead st;
     is_unconscious := is_unconscious st;
     override_place := override_place st;
     in_proximity_with := in_proximity_with st;
     combat_handler := combat_handler st; ndb_flags := f |}.

(** [search_object("#d")]: the characters with that id. *)
Definition search_object (w : World) (d : dbref) : list dbref :=
  match w !! d with
  | Some st => if in_db st then [d] else []
  | None => []
  end.

(** A combatant entry: the dict kept per character in
    [handler.db.combatants]. A reference field is [None] when the key
    is absent or holds None. *)
Record Entry : Set := {
  char : option dbref;
  initiative : Z;
  target_dbref : option dbref;
  grappling_dbref : option dbref;
  grappled_by_dbref : option dbref;
  is_yielding : bool;
  combat_action : option string;
  combat_action_target : option dbref;
  initiated_combat_this_action : bool
}.

Definition set_target_dbref (e : Entry) (d : option dbref) : Entry :=
  {| char := char e; initiative := initiative e; target_dbref := d;
     grappling_dbref := grappling_dbref e;
     grappled_by_dbref := grappled_by_dbref e;
     is_yielding := is_yielding e; combat_action := combat_action e;
     combat_action_target := combat_action_target e;
     initiated_combat_this_action := initiated_combat_this_action e |}.

Definition set_grappling_dbref (e : Entry) (d : option dbref) : Entry :=
  {| char := char e; initiative := initiative e;
     target_dbref := target_dbref e; grappling_dbref := d;
     grappled_by_dbref := grappled_by_dbref e;
     is_yielding := is_yielding e; combat_action := combat_action e;
     combat_action_target := combat_action_target e;
     initiated_combat_this_action := initiated_combat_this_action e |}.

Definition set_grappled_by_dbref (e : Entry) (d : option dbref) : Entry :=
  {| char := char e; initiative := initiative e;
     target_dbref := target_dbref e;
     grappling_dbref := grappling_dbref e; grappled_by_dbref := d;
     is_yielding := is_yielding e; combat_action := combat_action e;
     combat_action_target := combat_action_target e;
     initiated_combat_this_action := initiated_combat_this_action e |}.

Definition set_is_yielding (e : Entry) (b : bool) : Entry :=
  {| char := char e; initiative := initiative e;
     target_dbref := target_dbref e;
     grappling_dbref := grappling_dbref e;
     grappled_by_dbref := grappled_by_dbref e;
     is_yielding := b; combat_action := combat_action e;
     combat_action_target := combat_action_target e;
     initiated_combat_this_action := initiated_combat_this_action e |}.

Definition set_combat_action (e : Entry) (a : option string)
    (t : option dbref) : Entry :=
  {| char := char e; initiative := initiative e;
     target_dbref := target_dbref e;
     grappling_dbref := grappling_dbref e;
     grappled_by_dbref := grappled_by_dbref e;
     is_yielding := is_yielding e; combat_action := a;
     combat_action_target := t;
     initiated_combat_this_action := initiated_combat_this_action e |}.

#[global] Instance Entry_eq_dec : EqDecision Entry.
Proof. solve_decision. Defined.

(** The combat handler script of one location: the persisted roster
    and the working list of the round in progress, if one is set. *)
Record Handler : Set := {
  handler_id : Z;
  combatants : list Entry;
  _active_combatants_list : option (list Entry);
  is_active : bool
}.

Definition set_combatants (h : Handler) (l : list Entry) : Handler :=
  {| handler_id := handler_id h; combatants := l;
     _active_combatants_list := _active_combatants_list h;
     is_active := is_active h |}.

(** [next((e for e in l if e.get("char") == c), None)], with the
    index of the entry found. *)
Definition find_entry (l : list Entry) (c : dbref)
    : option (nat * Entry) :=
  list_find (fun e => char e = Some c) l.

(** [get_character_dbref(char)]. *)
Definition get_character_dbref (c : option dbref) : option dbref := c.

(** Modelled from the spec: world/combat/proximity.py is not among the
    sources. Proximity is the symmetric in-melee-range relation kept
    in each character's [ndb.in_proximity_with] set;
    [establish_proximity] puts each character into the other's set. *)
Definition add_proximity (w : World) (a b : dbref) : World :=
  alter (fun st =>
           set_in_proximity_with st
             (Some ({[ b ]} ∪ default ∅ (in_proximity_with st)))) a w.

Definition establish_proximity (w : World) (a b : dbref) : World :=
  add_proximity (add_proximity w a b) b a.

(** [target in char.ndb.in_proximity_with]. An ndb attribute that is
    not set reads None, and [x in None] raises TypeError. *)
Definition is_in_proximity (w : World) (a b : dbref) : result bool :=
  match (w !! a) ≫= in_proximity_with with
  | Some near => Ok (bool_decide (b ∈ near))
  | None => Raise TypeError
  end.

(** *** utils.py: references and stats *)

(** [get_character_by_dbref(dbref)] of utils.py. *)
Definition get_character_by_dbref (w : World) (d : option dbref)
    : option dbref :=
  match d with
  | None => None
  | Some d => head (search_object w d)
  end.

Definition get_combatant_target (w : World) (entry : Entry)
    : option dbref :=
  get_character_by_dbref w (target_dbref entry).

Definition get_combatant_grappling_target (w : World) (entry : Entry)
    : option dbref :=
  get_character_by_dbref w (grappling_dbref entry).

Definition get_combatant_grappled_by (w : World) (entry : Entry)
    : option dbref :=
  get_character_by_dbref w (grappled_by_dbref entry).

(** Modelled from the spec: the handler methods [get_target_obj],
    [get_grappling_obj], [get_grappled_by_obj] and [set_target] belong
    to world/combat/handler.py, which is not among the sources. They
    are the accessors and the mutator over a combatant's entry,
    resolved by reference. *)
Definition get_target_obj := get_combatant_target.
Definition get_grappling_obj := get_combatant_grappling_target.
Definition get_grappled_by_obj := get_combatant_grappled_by.

Definition set_target (l : list Entry) (c target : dbref) : list Entry :=
  match find_entry l c with
  | Some (k, _) => alter (fun e => set_target_dbref e (Some target)) k l
  | None => l
  end.

(** [get_numeric_stat(character, "motorics", default)]. *)
Definition get_numeric_stat (w : World) (c : dbref) (dflt : Z) : Z :=
  default dflt ((w !! c) ≫= motorics).

(** The values [randint(1, max(1, stat))] can return. *)
Definition possible_roll (w : World) (c : dbref) (r : Z) : Prop :=
  1 <= r <= Z.max 1 (get_numeric_stat w c 1).

(** [if not hasattr(char.ndb, NDB_PROXIMITY):
        setattr(char.ndb, NDB_PROXIMITY, set())].
    The ndb holder of a character answers every attribute name, with
    None for one that is not set, so [hasattr] is true of it and the
    assignment is never reached. *)
Definition ensure_proximity (w : World) (c : dbref) : World := w.

(** [if not hasattr(char.ndb, NDB_PROXIMITY)
        or not isinstance(getattr(char.ndb, NDB_PROXIMITY), set):
        setattr(char.ndb, NDB_PROXIMITY, set())]. *)
Definition initialize_proximity (w : World) (c : dbref) : World :=
  alter (fun st =>
           match in_proximity_with st with
           | None => set_in_proximity_with st (Some ∅)
           | Some _ => st
           end) c w.

(** What a resolver tells the acting character. *)
Inductive Notice : Set :=
| NotAnEntry
| NoTarget
| TargetNotInCombat
| NotInProximity
| NotGrappled
| NoGrappler
| GrapplerNotInCombat
| NotGrappling
| GrappleSuccess
| GrappleFail
| GrappleTakeover
| GrappleContestFail
| GrappleRelease.

(** *** grappling.py *)

Module Grappling.

(** [get_character_by_dbref(dbref)] of grappling.py: a falsy dbref
    resolves to nothing. *)
Definition get_character_by_dbref (w : World) (d : option dbref)
    : option dbref :=
  if truthy_int d then head (search_object w (default 0 d)) else None.

Definition get_grappling_target (w : World) (combatant_entry : Entry)
    : option dbref :=
  get_character_by_dbref w (grappling_dbref combatant_entry).

Definition get_grappled_by (w : World) (combatant_entry : Entry)
    : option dbref :=
  get_character_by_dbref w (grappled_by_dbref combatant_entry).

(** The last entry of [l] satisfying [p] (a loop that overwrites its
    result on every match). *)
Definition last_match (p : Entry -> bool) (l : list Entry)
    : option Entry :=
  fold_left (fun acc e => if p e then Some e else acc) l None.

Definition is_char (c : dbref) (e : Entry) : bool :=
  bool_decide (char e = Some c).

(** [establish_grapple(combat_handler, grappler, victim)]; the
    boolean is the [success] component of the returned pair. *)
Definition establish_grapple (w : World) (combat_handler : Handler)
    (grappler victim : dbref) : World * Handler * bool :=
  if bool_decide (grappler = victim) then (w, combat_handler, false)
  else
    let combatants_list := combatants combat_handler in
    let grappler_entry := last_match (is_char grappler) combatants_list in
    let victim_entry :=
      last_match (fun e => negb (is_char grappler e) && is_char victim e)
        combatants_list in
    match grappler_entry, victim_entry with
    | Some grappler_entry, Some victim_entry =>
        if truthy_int (grappling_dbref grappler_entry)
           && bool_decide
                (is_Some (get_grappling_target w grappler_entry))
        then (w, combat_handler, false)
        else if truthy_int (grappled_by_dbref victim_entry)
                && bool_decide
                     (is_Some (get_grappled_by w victim_entry))
        then (w, combat_handler, false)
        else
          let combatants_list :=
            map (fun entry =>
                   if is_char grappler entry then
                     set_is_yielding
                       (set_grappling_dbref entry (Some victim)) true
                   else if is_char victim entry then
                     set_is_yielding
                       (set_grappled_by_dbref entry (Some grappler)) true
                   else entry)
                combatants_list in
          (establish_proximity w grappler victim,
           set_combatants combat_handler combatants_list, true)
    | _, _ => (w, combat_handler, false)
    end.

(** One entry of the loop of [break_grapple]; the boolean tells
    whether a reference was cleared. *)
Definition break_entry (grappler victim : option dbref) (entry : Entry)
    : Entry * bool :=
  let '(entry, b1) :=
    if bool_decide (is_Some grappler)
       && bool_decide (char entry = grappler)
       && truthy_int (grappling_dbref entry)
    then (set_grappling_dbref entry None, true)
    else (entry, false) in
  let '(entry, b2) :=
    if bool_decide (is_Some victim)
       && bool_decide (char entry = victim)
       && truthy_int (grappled_by_dbref entry)
    then (set_grappled_by_dbref entry None, true)
    else (entry, false) in
  (entry, b1 || b2).

(** [break_grapple(combat_handler, grappler=None, victim=None)]. *)
Definition break_grapple (combat_handler : Handler)
    (grappler victim : option dbref) : Handler * bool :=
  match grappler, victim with
  | None, None => (combat_handler, false)
  | _, _ =>
      let broken :=
        map (break_entry grappler victim) (combatants combat_handler) in
      let grapple_broken := existsb snd broken in
      (set_combatants combat_handler (map fst broken), grapple_broken)
  end.

(** [is_grappling] and [is_grappled]. *)
Definition is_grappling (combat_handler : Handler) (character : dbref)
    : bool :=
  match find_entry (combatants combat_handler) character with
  | Some (_, entry) => truthy_int (grappling_dbref entry)
  | None => false
  end.

Definition is_grappled (combat_handler : Handler) (character : dbref)
    : bool :=
  match find_entry (combatants combat_handler) character with
  | Some (_, entry) => truthy_int (grappled_by_dbref entry)
  | None => false
  end.

(** [not target or not hasattr(target, 'location') or
    target.location != char.location]. *)
Definition invalid_partner (w : World) (c : dbref)
    (partner : option dbref) : bool :=
  match partner with
  | None => true
  | Some t =>
      negb (bool_decide
              ((w !! t) ≫= location = (w !! c) ≫= location))
  end.

(** One entry of the loop of [cleanup_invalid_grapples]. *)
Definition cleanup_entry (w : World) (entry : Entry) : Entry :=
  match char entry with
  | None => entry
  | Some c =>
      let entry :=
        if truthy_int (grappling_dbref entry)
           && invalid_partner w c (get_grappling_target w entry)
        then set_grappling_dbref entry None
        else entry in
      if truthy_int (grappled_by_dbref entry)
         && invalid_partner w c (get_grappled_by w entry)
      then set_grappled_by_dbref entry None
      else entry
  end.

(** [cleanup_invalid_grapples(combat_handler)]. *)
Definition cleanup_invalid_grapples (w : World)
    (combat_handler : Handler) : Handler :=
  set_combatants combat_handler
    (map (cleanup_entry w) (combatants combat_handler)).

(** [resolve_grapple_initiate(char_entry, combatants_list, handler)].
    [char_entry] is the entry at position [i] of [combatants_list];
    the two rolls are the values the two calls of [randint]
    return. *)
Definition resolve_grapple_initiate (w : World) (i : nat)
    (combatants_list : list Entry) (attacker_roll defender_roll : Z)
    : result (World * list Entry * Notice) :=
  match combatants_list !! i with
  | None => Ok (w, combatants_list, NotAnEntry)
  | Some char_entry =>
  match char char_entry with
  | None => Raise AttributeError
  | Some c =>
  match get_target_obj w char_entry with
  | None => Ok (w, combatants_list, NoTarget)
  | Some target =>
  match find_entry combatants_list target with
  | None => Ok (w, combatants_list, TargetNotInCombat)
  | Some (j, target_entry) =>
      let w := ensure_proximity w c in
      do near <- is_in_proximity w c target;
      if negb near
      then Ok (w, combatants_list, NotInProximity)
      else if defender_roll <? attacker_roll then
        let l := alter (fun e => set_grappling_dbref e
                                   (get_character_dbref (Some target)))
                   i combatants_list in
        let l := alter (fun e => set_grappled_by_dbref e
                                   (get_character_dbref (Some c)))
                   j l in
        let l := alter (fun e => set_target_dbref e
                                   (get_character_dbref (Some c)))
                   j l in
        let l := alter (fun e => set_is_yielding e true) i l in
        Ok (w, l, GrappleSuccess)
      else if initiated_combat_this_action char_entry then
        let l := alter (fun e => set_is_yielding e true)
                   i combatants_list in
        let l := alter (fun e => set_is_yielding e true) j l in
        Ok (w, l, GrappleFail)
      else Ok (w, combatants_list, GrappleFail)
  end end end end.

(** [resolve_grapple_join(char_entry, combatants_list, handler)]. *)
Definition resolve_grapple_join (w : World) (i : nat)
    (combatants_list : list Entry)
    (new_grappler_roll current_grappler_roll : Z)
    : result (World * list Entry * Notice) :=
  match combatants_list !! i with
  | None => Ok (w, combatants_list, NotAnEntry)
  | Some char_entry =>
  match char char_entry with
  | None => Raise AttributeError
  | Some c =>
  match get_target_obj w char_entry with
  | None => Ok (w, combatants_list, NoTarget)
  | Some target =>
  match find_entry combatants_list target with
  | None => Ok (w, combatants_list, NotGrappled)
  | Some (j, target_entry) =>
  if negb (truthy_int (grappled_by_dbref target_entry))
  then Ok (w, combatants_list, NotGrappled)
  else
  match get_grappled_by_obj w target_entry with
  | None => Ok (w, combatants_list, NoGrappler)
  | Some current_grappler =>
  match find_entry combatants_list current_grappler with
  | None => Ok (w, combatants_list, GrapplerNotInCombat)
  | Some (k, current_grappler_entry) =>
      let w := ensure_proximity w c in
      do near <- is_in_proximity w c target;
      if negb near
      then Ok (w, combatants_list, NotInProximity)
      else if current_grappler_roll <? new_grappler_roll then
        let l := alter (fun e => set_grappling_dbref e
                                   (get_character_dbref (Some target)))
                   i combatants_list in
        let l := alter (fun e => set_is_yielding e true) i l in
        let l := alter (fun e => set_grappling_dbref e None) k l in
        let l := alter (fun e => set_grappled_by_dbref e
                                   (get_character_dbref (Some c)))
                   j l in
        Ok (w, l, GrappleTakeover)
      else if initiated_combat_this_action char_entry then
        Ok (w, alter (fun e => set_is_yielding e true) i combatants_list,
            GrappleContestFail)
      else Ok (w, combatants_list, GrappleContestFail)
  end end end end end end.

(** [resolve_release_grapple(char_entry, combatants_list, handler)]. *)
Definition resolve_release_grapple (w : World) (i : nat)
    (combatants_list : list Entry)
    : result (list Entry * Notice) :=
  match combatants_list !! i with
  | None => Ok (combatants_list, NotAnEntry)
  | Some char_entry =>
  match char char_entry with
  | None => Raise AttributeError
  | Some c =>
  match get_grappling_obj w char_entry with
  | None => Ok (combatants_list, NotGrappling)
  | Some grappling_target =>
  match find_entry combatants_list grappling_target with
  | None => Ok (combatants_list, TargetNotInCombat)
  | Some (j, target_entry) =>
      let l := alter (fun e => set_grappling_dbref e None)
                 i combatants_list in
      let l := alter (fun e => set_grappled_by_dbref e None) j l in
      Ok (l, GrappleRelease)
  end end end end.

(** The check of [entry]'s grappling reference in the loop of
    [validate_and_cleanup_grapple_state]; [entry] is the loop
    variable, [combatants_list[i] = dict(entry)] followed by the
    assignment is [<[i := ...]>]. *)
Definition validate_grappling (w : World) (valid_combat_chars : list dbref)
    (i : nat) (entry : Entry) (c : dbref)
    (st : list Entry * bool) : list Entry * bool :=
  let '(combatants_list, cleanup_needed) := st in
  match grappling_dbref entry with
  | None => st
  | Some d =>
      match get_character_by_dbref w (Some d) with
      | None =>
          (<[i := set_grappling_dbref entry None]> combatants_list, true)
      | Some grappling_target =>
          if bool_decide (grappling_target = c) then
            (<[i := set_grappling_dbref entry None]> combatants_list,
             true)
          else if negb (bool_decide
                          (grappling_target ∈ valid_combat_chars)) then
            (<[i := set_grappling_dbref entry None]> combatants_list,
             true)
          else
            match find_entry combatants_list grappling_target with
            | Some (target_index, target_entry) =>
                let expected_dbref := get_character_dbref (Some c) in
                if bool_decide
                     (grappled_by_dbref target_entry <> expected_dbref)
                then
                  (<[target_index :=
                       set_grappled_by_dbref target_entry expected_dbref]>
                     combatants_list, true)
                else st
            | None => st
            end
      end
  end.

(** The check of [entry]'s grappled-by reference in the same loop. *)
Definition validate_grappled_by (w : World)
    (valid_combat_chars : list dbref)
    (i : nat) (entry : Entry) (c : dbref)
    (st : list Entry * bool) : list Entry * bool :=
  let '(combatants_list, cleanup_needed) := st in
  match grappled_by_dbref entry with
  | None => st
  | Some d =>
      match get_character_by_dbref w (Some d) with
      | None =>
          (<[i := set_grappled_by_dbref entry None]> combatants_list,
           true)
      | Some grappler =>
          if bool_decide (grappler = c) then
            (<[i := set_grappled_by_dbref entry None]> combatants_list,
             true)
          else if negb (bool_decide (grappler ∈ valid_combat_chars)) then
            (<[i := set_grappled_by_dbref entry None]> combatants_list,
             true)
          else
            match find_entry combatants_list grappler with
            | Some (grappler_index, grappler_entry) =>
                let expected_dbref := get_character_dbref (Some c) in
                if bool_decide
                     (grappling_dbref grappler_entry <> expected_dbref)
                then
                  (<[grappler_index :=
                       set_grappling_dbref grappler_entry expected_dbref]>
                     combatants_list, true)
                else st
            | None => st
            end
      end
  end.

(** One iteration of the loop: [entry] is read once, at the start. *)
Definition validate_entry (w : World) (valid_combat_chars : list dbref)
    (st : list Entry * bool) (i : nat) : list Entry * bool :=
  match fst st !! i with
  | None => st
  | Some entry =>
      match char entry with
      | None => st
      | Some c =>
          validate_grappled_by w valid_combat_chars i entry c
            (validate_grappling w valid_combat_chars i entry c st)
      end
  end.

(** [validate_and_cleanup_grapple_state(handler)]. *)
Definition validate_and_cleanup_grapple_state (w : World)
    (handler : Handler) : Handler :=
  let combatants_list := combatants handler in
  let valid_combat_chars := omap char combatants_list in
  let '(combatants_list, cleanup_needed) :=
    fold_left (validate_entry w valid_combat_chars)
      (seq 0 (length combatants_list)) (combatants_list, false) in
  if cleanup_needed then set_combatants handler combatants_list
  else handler.

End Grappling.

(** *** utils.py: leaving combat *)

(** Modelled from the spec: [clear_all_proximity] belongs to
    world/combat/proximity.py, which is not among the sources. The
    proximity set of a leaving combatant is cleared on both sides: the
    character is discarded from the set of everyone in its own set,
    and its own set is emptied. *)
Definition clear_all_proximity (w : World) (c : dbref) : World :=
  match (w !! c) ≫= in_proximity_with with
  | None => w
  | Some others =>
      let w :=
        map_imap
          (fun o st =>
             Some (if bool_decide (o ∈ others)
                   then set_in_proximity_with st
                          (option_map (fun p => p ∖ {[ c ]})
                             (in_proximity_with st))
                   else st)) w in
      alter (fun st => set_in_proximity_with st (Some ∅)) c w
  end.

(** [get_wielded_weapon(character)]: the first item held. *)
Definition get_wielded_weapon (w : World) (c : dbref) : option Weapon :=
  match w !! c with
  | Some st => head (omap snd (hands st))
  | None => None
  end.

(** The attributes [cleanup_combatant_state] deletes or resets on the
    character object. *)
Definition cleanup_char_state (st : CharState) : CharState :=
  let st := set_in_proximity_with st None in
  let st := set_ndb_flags st [] in
  let st := set_combat_handler st None in
  if bool_decide (override_place st = Some "locked in combat.")
  then set_override_place st (Some "")
  else st.

(** [cleanup_combatant_state(char, entry, handler)]. *)
Definition cleanup_combatant_state (w : World) (c : dbref)
    (entry : Entry) (handler : Handler) : World * Handler :=
  let w := clear_all_proximity w c in
  let grappling := get_combatant_grappling_target w entry in
  let grappled_by := get_combatant_grappled_by w entry in
  let handler :=
    match grappling with
    | Some _ => fst (Grappling.break_grapple handler (Some c) grappling)
    | None => handler
    end in
  let handler :=
    match grappled_by with
    | Some _ => fst (Grappling.break_grapple handler grappled_by (Some c))
    | None => handler
    end in
  (alter cleanup_char_state c w, handler).

(** The two rosters [remove_combatant] works on: the list it iterates
    ([working]) and the persisted one ([db]). Reading
    [handler.db.combatants] gives a copy of the stored roster, and a
    change to that copy or to one of its entries stores the whole copy.
    Without a working list of the round, [working] is such a copy,
    read when the call starts: a change to it makes the stored roster
    equal to it ([saved]). A working list is a plain list, saved back
    when the round ends. *)
Record Rosters : Set := {
  working : list Entry;
  db : list Entry
}.

Definition on_working (saved : bool) (f : list Entry -> list Entry)
    (r : Rosters) : Rosters :=
  let l := f (working r) in
  {| working := l; db := if saved then l else db r |}.

Definition on_db (f : list Entry -> list Entry) (r : Rosters)
    : Rosters :=
  {| working := working r; db := f (db r) |}.

Definition dead_or_unconscious (w : World) (c : dbref) : bool :=
  match w !! c with
  | Some st => is_dead st || is_unconscious st
  | None => false
  end.

(** The inner loop of the auto-retargeting: the combatants that are
    attacking [other_char], as (proximity_attackers,
    ranged_attackers). Reading [.key] of an entry without a character
    raises AttributeError, and the proximity test raises TypeError
    when [other_char] has no proximity set. *)
Fixpoint retarget_candidates (w : World) (c other_char : dbref)
    (l : list Entry) : result (list dbref * list dbref) :=
  match l with
  | [] => Ok ([], [])
  | potential_target_entry :: rest =>
      let potential_target_char := char potential_target_entry in
      let potential_target_dbref := target_dbref potential_target_entry in
      if bool_decide (potential_target_char = Some other_char)
         || bool_decide (potential_target_char = Some c)
      then retarget_candidates w c other_char rest
      else
        match potential_target_char with
        | None => Raise AttributeError
        | Some p =>
            if dead_or_unconscious w p
            then retarget_candidates w c other_char rest
            else if bool_decide
                      (potential_target_dbref
                       = get_character_dbref (Some other_char))
            then
              do near <- is_in_proximity w other_char p;
              do r <- retarget_candidates w c other_char rest;
              Ok (if near then p :: fst r else fst r, p :: snd r)
            else retarget_candidates w c other_char rest
        end
  end.

(** The fields the auto-retargeting writes on an entry. *)
Definition retarget_entry (new_target : dbref) (e : Entry) : Entry :=
  set_is_yielding
    (set_combat_action (set_target_dbref e (Some new_target)) None None)
    false.

Definition alter_first (c : dbref) (f : Entry -> Entry) (l : list Entry)
    : list Entry :=
  match find_entry l c with
  | Some (k, _) => alter f k l
  | None => l
  end.

(** One iteration of the loop of [remove_combatant] over the other
    entries; [k] is the position of [other_entry]. *)
Definition retarget_step (w : World) (saved : bool) (c : dbref)
    (r : result Rosters) (k : nat) : result Rosters :=
  do r <- r;
  match working r !! k with
  | None => Ok r
  | Some other_entry =>
      if bool_decide
           (target_dbref other_entry = get_character_dbref (Some c))
      then
        let r :=
          on_working saved
            (alter (fun e => set_target_dbref e None) k) r in
        match char other_entry with
        | None => Raise AttributeError
        | Some other_char =>
            let other_char_weapon := get_wielded_weapon w other_char in
            let other_char_is_ranged :=
              match other_char_weapon with
              | Some weapon => is_ranged weapon
              | None => false
              end in
            do cands <- retarget_candidates w c other_char (working r);
            let '(proximity_attackers, ranged_attackers) := cands in
            let new_target :=
              if other_char_is_ranged then head ranged_attackers
              else match proximity_attackers with
                   | p :: _ => Some p
                   | [] => head ranged_attackers
                   end in
            match new_target with
            | Some new_target =>
                let r :=
                  on_db (fun l => set_target l other_char new_target) r in
                let r :=
                  on_working saved
                    (alter_first other_char (retarget_entry new_target))
                    r in
                let r :=
                  on_db (alter_first other_char (retarget_entry new_target))
                    r in
                Ok r
            | None => Ok r
            end
        end
      else Ok r
  end.

(** Modelled from the spec: [handler.stop_combat_logic()] belongs to
    handler.py; the session is destroyed when its roster becomes
    empty. *)
Definition stop_combat_logic (h : Handler) : Handler :=
  {| handler_id := handler_id h; combatants := combatants h;
     _active_combatants_list := _active_combatants_list h;
     is_active := false |}.

(** [remove_combatant(handler, char)]. The list the call works on is
    fetched before [cleanup_combatant_state] runs, and it is that
    list, without the entries of [char], that is stored at the end. *)
Definition remove_combatant (w : World) (handler : Handler) (c : dbref)
    : result (World * Handler) :=
  let active_list := _active_combatants_list handler in
  let use_active := negb (is_nil (default [] active_list)) in
  let combatants_ :=
    if use_active then default [] active_list else combatants handler in
  match find_entry combatants_ c with
  | None => Ok (w, handler)
  | Some (_, entry) =>
      let '(w, handler) := cleanup_combatant_state w c entry handler in
      let saved := negb use_active in
      let r := {| working := combatants_; db := combatants handler |} in
      do r <-
        fold_left (retarget_step w saved c)
          (seq 0 (length (working r))) (Ok r);
      let combatants_ :=
        filter (fun e => char e <> Some c) (working r) in
      let handler :=
        {| handler_id := handler_id handler; combatants := combatants_;
           _active_combatants_list :=
             if use_active then Some (working r) else active_list;
           is_active := is_active handler |} in
      let w :=
        alter (fun st =>
                 if bool_decide
                      (combat_handler st = Some (handler_id handler))
                 then set_combat_handler st None else st) c w in
      Ok (w, if is_nil combatants_ then stop_combat_logic handler
             else handler)
  end.

(** The first loop of [detect_and_remove_orphaned_combatants]. *)
Definition targeted_dbrefs (l : list Entry) : list dbref :=
  omap target_dbref l.

(** The orphan test on one entry. *)
Definition is_orphaned (targeted : list dbref) (entry : Entry) : bool :=
  match char entry with
  | None => false
  | Some c =>
      let has_target := bool_decide (is_Some (target_dbref entry)) in
      let is_grappling := bool_decide (is_Some (grappling_dbref entry)) in
      let is_grappled :=
        bool_decide (is_Some (grappled_by_dbref entry)) in
      let is_targeted := bool_decide (c ∈ targeted) in
      negb (has_target || is_grappling || is_grappled || is_targeted)
  end.

(** The second loop: the orphans are removed one after the other. *)
Fixpoint remove_all (w : World) (handler : Handler)
    (orphaned_chars : list dbref) : result (World * Handler) :=
  match orphaned_chars with
  | [] => Ok (w, handler)
  | orphaned_char :: rest =>
      do r <- remove_combatant w handler orphaned_char;
      remove_all (fst r) (snd r) rest
  end.

(** [detect_and_remove_orphaned_combatants(handler)]; the list is the
    returned list of removed characters. *)
Definition detect_and_remove_orphaned_combatants (w : World)
    (handler : Handler) : result (World * Handler * list dbref) :=
  let combatants_ := combatants handler in
  if is_nil combatants_ then Ok (w, handler, [])
  else
    let targeted := targeted_dbrefs combatants_ in
    let orphaned_chars :=
      omap char (filter (fun e => is_orphaned targeted e = true)
                   combatants_) in
    do r <- remove_all w handler orphaned_chars;
    Ok (fst r, snd r, orphaned_chars).

(** *** utils.py: entering combat *)

Section Entering.

(** world/combat/handler.py is not among the sources: the running
    flag of the session, [handler.db.combat_is_running], and
    [handler.start()] are parameters. *)
Variable combat_is_running : Handler -> bool.
Variable start : Handler -> Handler.

(** [add_combatant(handler, char, target, initial_grappling,
    initial_grappled_by, initial_is_yielding)]; [roll] is what
    [randint(1, 20)] returns. *)
Definition add_combatant (w : World) (handler : Handler) (c : dbref)
    (target initial_grappling initial_grappled_by : option dbref)
    (initial_is_yielding : bool) (roll : Z) : World * Handler :=
  let target := if bool_decide (target = Some c) then None else target in
  let combatants_ := combatants handler in
  match find_entry combatants_ c with
  | Some _ => (w, handler)
  | None =>
      let w := initialize_proximity w c in
      let entry :=
        {| char := Some c;
           initiative := roll + get_numeric_stat w c 0;
           target_dbref := get_character_dbref target;
           grappling_dbref := get_character_dbref initial_grappling;
           grappled_by_dbref := get_character_dbref initial_grappled_by;
           is_yielding := initial_is_yielding;
           combat_action := None;
           combat_action_target := None;
           initiated_combat_this_action := false |} in
      let handler := set_combatants handler (combatants_ ++ [entry]) in
      let w :=
        alter (fun st => set_combat_handler st (Some (handler_id handler)))
          c w in
      let w :=
        alter (fun st =>
                 if truthy_str (override_place st) then st
                 else set_override_place st (Some "locked in combat."))
          c w in
      let w :=
        match initial_grappling with
        | Some g => establish_proximity w c g
        | None => w
        end in
      let w :=
        match initial_grappled_by with
        | Some g => establish_proximity w c g
        | None => w
        end in
      let handler :=
        if combat_is_running handler then handler else start handler in
      (w, Grappling.validate_and_cleanup_grapple_state w handler)
  end.

End Entering.

(** *** utils.py: opponents and grenades *)

(** One iteration of the loop of [get_highest_opponent_stat], for the
    stat "motorics". An opponent that is None or has no such attribute
    is skipped; an attribute that is not a number counts as [dflt],
    which never exceeds [highest_value], so that it leaves the pair as
    it is as well. *)
Definition highest_step (w : World) (dflt : Z)
    (acc : Z * option dbref) (opponent : option dbref)
    : Z * option dbref :=
  let '(highest_value, highest_char) := acc in
  match opponent with
  | None => acc
  | Some o =>
      match (w !! o) ≫= motorics with
      | None => acc
      | Some numeric_value =>
          if highest_value <? numeric_value
          then (numeric_value, Some o)
          else acc
      end
  end.

(** [get_highest_opponent_stat(opponents, "motorics", default)]. *)
Definition get_highest_opponent_stat (w : World)
    (opponents : list (option dbref)) (dflt : Z) : Z * option dbref :=
  if is_nil opponents then (dflt, None)
  else fold_left (highest_step w dflt) opponents (dflt, None).

(** The literal [0.0]. *)
Definition float_0_0 : float := S754_zero false.

(** One iteration of the second loop of
    [check_grenade_human_shield]. *)
Definition shield_step (w : World) (combatants_list : list Entry)
    (proximity_list : list dbref)
    (damage_modifiers : dict dbref float) (c : dbref)
    : dict dbref float :=
  match find_entry combatants_list c with
  | None => damage_modifiers
  | Some (_, char_entry) =>
      if truthy_int (grappling_dbref char_entry) then
        match get_character_by_dbref w (grappling_dbref char_entry) with
        | Some victim =>
            if bool_decide (victim ∈ proximity_list) then
              dict_set (dict_set damage_modifiers c float_0_0)
                victim Medical.float_2_0
            else damage_modifiers
        | None => damage_modifiers
        end
      else damage_modifiers
  end.

(** [check_grenade_human_shield(proximity_list, combat_handler)];
    [handlers] are the handler scripts by id, for the handler that a
    character's [ndb.combat_handler] names. Without a handler given,
    the loop that looks for one stops at the first character:
    [hasattr] is true of every ndb attribute, set or not. *)
Definition check_grenade_human_shield (w : World)
    (handlers : gmap Z Handler) (proximity_list : list dbref)
    (combat_handler_ : option Handler) : dict dbref float :=
  let combat_handler_ :=
    match combat_handler_ with
    | Some h => Some h
    | None =>
        match proximity_list with
        | c :: _ =>
            ((w !! c) ≫= combat_handler) ≫= (fun i => handlers !! i)
        | [] => None
        end
    end in
  match combat_handler_ with
  | None => []
  | Some h =>
      fold_left (shield_step w (combatants h) proximity_list)
        proximity_list []
  end.

(** *** Vocabulary of the properties *)

(** Grapple symmetry of a roster: for any two entries A and B, A's
    grappling reference points to B's character exactly when B's
    grappled-by reference points to A's character. *)
Definition grapple_symmetric (l : list Entry) : Prop :=
  forall i j A B a b,
    l !! i = Some A -> l !! j = Some B ->
    char A = Some a -> char B = Some b ->
    (grappling_dbref A = Some b <-> grappled_by_dbref B = Some a).

(** The same, as a test that can be run. *)
Definition grapple_symmetricb (l : list Entry) : bool :=
  forallb
    (fun A =>
       forallb
         (fun B =>
            match char A, char B with
            | Some a, Some b =>
                Bool.eqb (bool_decide (grappling_dbref A = Some b))
                         (bool_decide (grappled_by_dbref B = Some a))
            | _, _ => true
            end) l) l.

(** An entry whose character exists: non-zero id, found by
    [search_object]. *)
Definition entry_resolvable (w : World) (e : Entry) : bool :=
  match char e with
  | Some c => negb (c =? 0) && bool_decide (search_object w c = [c])
  | None => false
  end.

(** A roster as [add_combatant] builds it: no character has two
    entries, and every entry holds a character that exists. *)
Definition roster_ok (w : World) (l : list Entry) : Prop :=
  NoDup (char <$> l) /\ forallb (entry_resolvable w) l = true.

(** The character [c] has an entry in [l]. *)
Definition in_roster (l : list Entry) (c : dbref) : Prop :=
  exists k e, l !! k = Some e /\ char e = Some c.

(** No entry refers to its own character. *)
Definition no_self_grapple (l : list Entry) : Prop :=
  forall k e c, l !! k = Some e -> char e = Some c ->
                grappling_dbref e <> Some c
                /\ grappled_by_dbref e <> Some c.

(** The entry grapples nobody of the roster. *)
Definition grapples_nobody (l : list Entry) (e : Entry) : Prop :=
  forall c, in_roster l c -> grappling_dbref e <> Some c.

(** The entry is grappled by nobody of the roster. *)
Definition grappled_by_nobody (l : list Entry) (e : Entry) : Prop :=
  forall c, in_roster l c -> grappled_by_dbref e <> Some c.

(** Two entries that agree on every field but the two grapple
    references. *)
Definition same_but_grapple (e e' : Entry) : Prop :=
  char e' = char e /\ initiative e' = initiative e
  /\ target_dbref e' = target_dbref e /\ is_yielding e' = is_yielding e
  /\ combat_action e' = combat_action e
  /\ combat_action_target e' = combat_action_target e
  /\ initiated_combat_this_action e' = initiated_combat_this_action e.

(** The roster [remove_combatant] looks the character up in. *)
Definition consulted_roster (h : Handler) : list Entry :=
  if negb (is_nil (default [] (_active_combatants_list h)))
  then default [] (_active_combatants_list h)
  else combatants h.

(** No working list of a round is in place. *)
Definition no_working_list (h : Handler) : Prop :=
  default [] (_active_combatants_list h) = [].

(** Two entries of the same character with the same target. *)
Definition same_char_target (e e' : Entry) : Prop :=
  char e' = char e /\ target_dbref e' = target_dbref e.

(** An update of the entry of character [c]: [f] on that entry, the
    other entries left alone. *)
Definition on_char (c : dbref) (f : Entry -> Entry) (e : Entry) : Entry :=
  if bool_decide (char e = Some c) then f e else e.

(** An entry after a retargeting away from [c]: the same character,
    and a target that is the old one or is not [c]. *)
Definition moved (c : dbref) (e e' : Entry) : Prop :=
  char e' = char e
  /\ (target_dbref e' <> Some c \/ target_dbref e' = target_dbref e).

(** Two entries of the same character that agree on every reference
    to a character of the roster [l]. *)
Definition same_links (l : list Entry) (e e' : Entry) : Prop :=
  char e' = char e
  /\ forall b, in_roster l b ->
       (grappling_dbref e' = Some b <-> grappling_dbref e = Some b)
       /\ (grappled_by_dbref e' = Some b <-> grappled_by_dbref e = Some b).

(** Character [c] uses character [v] as a blast shield: both are in
    the blast, and the first entry of [c] names [v], who exists, as
    the one [c] grapples. *)
Definition shields (w : World) (l : list Entry)
    (proximity_list : list dbref) (c v : dbref) : Prop :=
  c ∈ proximity_list /\ v ∈ proximity_list
  /\ exists k e, find_entry l c = Some (k, e)
       /\ truthy_int (grappling_dbref e) = true
       /\ get_character_by_dbref w (grappling_dbref e) = Some v.

(** *** A small session on which the code is evaluated *)

Definition example_char (room : Z) (stat : Z) (near : list Z) : CharState :=
  {| in_db := true; location := Some room; motorics := Some stat;
     hands := []; is_dead := false; is_unconscious := false;
     override_place := Some "locked in combat.";
     in_proximity_with := Some (list_to_set near);
     combat_handler := Some 1; ndb_flags := [] |}.

(** Characters 1 (motorics 10), 2 (motorics 2) and 3, all in room 7 and
    in melee proximity of one another. *)
Definition example_world : World :=
  {[ 1 := example_char 7 10 [2; 3];
     2 := example_char 7 2 [1; 3];
     3 := example_char 7 5 [1; 2] ]}.

Definition example_entry (c : dbref) (target grappling grappled_by
    : option dbref) (yielding : bool) : Entry :=
  {| char := Some c; initiative := 10; target_dbref := target;
     grappling_dbref := grappling; grappled_by_dbref := grappled_by;
     is_yielding := yielding; combat_action := None;
     combat_action_target := None;
     initiated_combat_this_action := false |}.

(** Character 1 targets 2; nobody grapples. *)
Definition example_roster : list Entry :=
  [example_entry 1 (Some 2) None None false;
   example_entry 2 (Some 1) None None false].

(** Character 1 holds 3 and targets 2. *)
Definition example_roster_holding : list Entry :=
  [example_entry 1 (Some 2) (Some 3) None true;
   example_entry 2 (Some 1) None None false;
   example_entry 3 (Some 1) None (Some 1) false].

(** Character 1 holds 2. *)
Definition example_roster_grappled : list Entry :=
  [example_entry 1 (Some 2) (Some 2) None true;
   example_entry 2 (Some 1) None (Some 1) false].

(** Character 1 holds 2, whom character 3 targets. *)
Definition example_roster_contest : list Entry :=
  [example_entry 1 (Some 2) (Some 2) None true;
   example_entry 2 (Some 1) None (Some 1) false;
   example_entry 3 (Some 2) None None false].

(** Characters 1 and 2 fight; character 3 yields and has no link to
    anyone. *)
Definition example_roster_orphan : list Entry :=
  [example_entry 1 (Some 2) None None false;
   example_entry 2 (Some 1) None None false;
   example_entry 3 None None None true].

Definition example_handler (l : list Entry) : Handler :=
  {| handler_id := 1; combatants := l; _active_combatants_list := None;
     is_active := true |}.

(** A fourth character, in the same room. *)
Definition example_world_four : World :=
  <[ 4 := example_char 7 3 [] ]> example_world.

(** Characters 1 and 2 fight; characters 3 and 4 have no link to
    anyone. *)
Definition example_roster_two_orphans : list Entry :=
  [example_entry 1 (Some 2) None None false;
   example_entry 2 (Some 1) None None false;
   example_entry 3 None None None true;
   example_entry 4 None None None false].

(** A session in the middle of a round: [l] is the stored roster and
    [working_list] the working list of the round. *)
Definition example_handler_round (l working_list : list Entry)
    : Handler :=
  {| handler_id := 1; combatants := l;
     _active_combatants_list := Some working_list; is_active := true |}.

End Combat.

Local Open Scope list_scope.

(** * Part II: the properties *)

(** ** Floats: the operations of the damage code do not overflow *)

Module FloatFacts.

Lemma digits2_pos_size p : digits2_pos p = Pos.size p.
Proof. induction p; simpl; congruence. Qed.

Lemma Zdigits2_log2 m : 0 < m -> Zdigits2 m = Z.log2 m + 1.
Proof.
destruct m as [|p|p]; try lia. intros _. simpl.
rewrite digits2_pos_size. destruct p; simpl; lia.
Qed.

Lemma Zdigits2_nonneg m : 0 <= Zdigits2 m.
Proof. destruct m; simpl; lia. Qed.

(* m < 2^d  <->  Zdigits2 m <= d, for m >= 0, d >= 0 *)
Lemma Zdigits2_le m d : 0 <= m -> 0 <= d -> (Zdigits2 m <= d <-> m < 2 ^ d).
Proof.
intros Hm Hd. destruct (Z.eq_dec m 0) as [->|Hne].
- simpl. split; intros; [apply Z.pow_pos_nonneg; lia | lia].
- rewrite Zdigits2_log2 by lia.
  split; intros H.
  + apply Z.log2_lt_pow2; lia.
  + apply Z.log2_lt_pow2 in H; lia.
Qed.

Lemma Zdigits2_lt_pow m : 0 <= m -> m < 2 ^ Zdigits2 m.
Proof. intros. apply Zdigits2_le; try lia. apply Zdigits2_nonneg. Qed.

Lemma iter_pos_iter {A} (f : A -> A) (p : positive) (x : A) : @SpecFloat.iter_pos A f p x = Pos.iter f x p.
Proof.
revert x. induction p; intros x; simpl; rewrite ?IHp; auto.
now rewrite !Pos.iter_swap.
Qed.

Lemma shr_1_m r : 0 <= shr_m r -> shr_m (shr_1 r) = Z.div2 (shr_m r).
Proof.
destruct r as [m r s]. simpl. destruct m as [|[p|p|]|p]; simpl; auto; lia.
Qed.

Lemma shr_1_nonneg r : 0 <= shr_m r -> 0 <= shr_m (shr_1 r).
Proof. intros H. rewrite shr_1_m by auto. apply Z.div2_nonneg. auto. Qed.

Lemma iter_shr_1_m p r :
0 <= shr_m r -> shr_m (Pos.iter shr_1 r p) = Z.shiftr (shr_m r) (Zpos p)
                /\ 0 <= shr_m (Pos.iter shr_1 r p).
Proof.
intros H. induction p using Pos.peano_ind.
- simpl. rewrite shr_1_m by auto. split; [reflexivity|apply Z.div2_nonneg; auto].
- rewrite Pos.iter_succ. destruct IHp as [IH1 IH2].
  rewrite shr_1_m by auto. rewrite IH1.
  split.
  + rewrite Pos2Z.inj_succ. rewrite Z.div2_spec. rewrite Z.shiftr_shiftr by lia.
    reflexivity.
  + apply Z.div2_nonneg. lia.
Qed.

Lemma shiftr_lt_pow m n k :
0 <= m -> 0 <= n -> 0 <= k -> m < 2 ^ k -> Z.shiftr m n < 2 ^ Z.max 0 (k - n).
Proof.
intros Hm Hn Hk H. rewrite Z.shiftr_div_pow2 by lia.
assert (0 < 2 ^ n) by (apply Z.pow_pos_nonneg; lia).
destruct (Z.le_gt_cases n k) as [Hle|Hgt].
- rewrite Z.max_r by lia.
  apply Z.div_lt_upper_bound; [lia|].
  rewrite <- Z.pow_add_r by lia. now replace (n + (k - n)) with k by lia.
- rewrite Z.max_l by lia. simpl.
  assert (2 ^ k <= 2 ^ n) by (apply Z.pow_le_mono_r; lia).
  rewrite Z.div_small by lia. lia.
Qed.

Lemma round_nearest_even_bounds m l :
0 <= m -> m <= round_nearest_even m l <= m + 1.
Proof.
intros Hm. unfold round_nearest_even.
destruct l as [|[]]; try lia. destruct (Z.even m); lia.
Qed.

Lemma shr_record_of_loc_m m l : shr_m (shr_record_of_loc m l) = m.
Proof. destruct l as [|[]]; reflexivity. Qed.

Lemma shr_fexp_spec m e l :
0 <= m ->
exists mrs e',
  shr_fexp prec emax m e l = (mrs, e') /\
  0 <= shr_m mrs /\
  e' = Z.max e (fexp prec emax (Zdigits2 m + e)) /\
  (forall k, 0 <= k -> m < 2 ^ k ->
             shr_m mrs < 2 ^ Z.max 0 (k + e - e')).
Proof.
intros Hm. unfold shr_fexp, shr.
destruct (fexp prec emax (Zdigits2 m + e) - e) as [|p|p] eqn:E.
- eexists _, _. split; [reflexivity|].
  rewrite shr_record_of_loc_m. repeat split; try lia.
  intros k Hk Hlt. replace (k + e - e) with k by lia.
  now rewrite Z.max_r by lia.
- rewrite iter_pos_iter.
  destruct (iter_shr_1_m p (shr_record_of_loc m l)) as [H1 H2].
  { rewrite shr_record_of_loc_m; lia. }
  rewrite shr_record_of_loc_m in H1.
  eexists _, _. split; [reflexivity|].
  repeat split; try lia.
  intros k Hk Hlt. rewrite H1.
  replace (k + e - (e + Z.pos p)) with (k - Z.pos p) by lia.
  apply shiftr_lt_pow; lia.
- eexists _, _. split; [reflexivity|].
  rewrite shr_record_of_loc_m. repeat split; try lia.
  intros k Hk Hlt. replace (k + e - e) with k by lia.
  now rewrite Z.max_r by lia.
Qed.

Lemma fexp_mono a b : a <= b -> fexp prec emax a <= fexp prec emax b.
Proof. unfold fexp. lia. Qed.

(** Rounding a non-negative mantissa whose magnitude stays clear of the
  overflow threshold gives a zero or a finite float. *)
Lemma binary_round_aux_finite s m e l K :
0 <= m -> 0 <= K -> m < 2 ^ K ->
e <= emax - prec -> K + e + 1 <= emax ->
binary_round_aux prec emax s m e l = S754_zero s \/
exists m' e' K',
  binary_round_aux prec emax s m e l = S754_finite s m' e' /\
  0 <= K' /\ Z.pos m' < 2 ^ K' /\
  e' <= Z.max e (Z.max (K + e + 1 - prec) (emin prec emax)) /\
  K' + e' <= Z.max (K + e) (emin prec emax) + 1.
Proof.
intros Hm HK Hlt He HKe. unfold binary_round_aux.
destruct (shr_fexp_spec m e l Hm) as (mrs1 & e1 & -> & Hm1 & He1 & Hb1).
specialize (Hb1 K HK Hlt).
pose proof (round_nearest_even_bounds (shr_m mrs1) (loc_of_shr_record mrs1) Hm1)
  as Hr.
set (m1 := round_nearest_even (shr_m mrs1) (loc_of_shr_record mrs1)) in *.
set (k1 := Z.max 0 (K + e - e1)) in *.
assert (Hm1lt : m1 < 2 ^ (k1 + 1)).
{ rewrite Z.pow_add_r by lia. change (2 ^ 1) with 2. lia. }
destruct (shr_fexp_spec m1 e1 loc_Exact ltac:(lia))
  as (mrs2 & e2 & -> & Hm2 & He2 & Hb2).
specialize (Hb2 (k1 + 1) ltac:(lia) Hm1lt).
assert (Hd : Zdigits2 m <= K) by (apply Zdigits2_le; lia).
assert (Hd1 : Zdigits2 m1 <= k1 + 1) by (apply Zdigits2_le; lia).
pose proof (fexp_mono _ _ (proj1 (Z.add_le_mono_r _ _ e) Hd)) as Hf.
pose proof (fexp_mono _ _ (proj1 (Z.add_le_mono_r _ _ e1) Hd1)) as Hf1.
unfold fexp, emin, prec, emax in *.
destruct (shr_m mrs2) as [|p|p] eqn:Ep; [left; reflexivity| |lia].
right. destruct (Z.leb_spec e2 (1024 - 53)) as [Hle|Hgt]; [|lia].
exists p, e2, (Z.max 0 (k1 + 1 + e1 - e2)).
split; [reflexivity|]. subst k1. repeat split; try lia.
Qed.

Lemma mag_is_finite f Kb Eb : mag f Kb Eb -> is_finite f = true.
Proof. destruct f; simpl; intros H; auto; destruct H. Qed.

Lemma binary_round_aux_mag s m e l K Kb Eb :
0 <= m -> 0 <= K -> m < 2 ^ K ->
e <= emax - prec -> K + e + 1 <= emax ->
Z.max e (Z.max (K + e + 1 - prec) (emin prec emax)) <= Eb ->
Z.max (K + e) (emin prec emax) + 1 <= Kb ->
mag (binary_round_aux prec emax s m e l) Kb Eb.
Proof.
intros Hm HK Hlt He HKe HEb HKb.
destruct (binary_round_aux_finite s m e l K Hm HK Hlt He HKe)
  as [-> | (m' & e' & K' & -> & H1 & H2 & H3 & H4)]; simpl; auto.
exists K'. repeat split; lia.
Qed.

Lemma pos_iter_xO m d : Z.pos (Pos.iter xO m d) = Z.pos m * 2 ^ Z.pos d.
Proof.
induction d using Pos.peano_ind.
- simpl. lia.
- rewrite Pos.iter_succ, Pos2Z.inj_succ, Z.pow_succ_r by lia.
  rewrite Pos2Z.inj_xO, IHd. lia.
Qed.

Lemma float_of_int_mag n k :
0 <= k <= 1000 -> Z.abs n < 2 ^ k ->
exists f, float_of_int n = Ok f /\ mag f (k + 1) 948.
Proof.
intros Hk Hn. unfold float_of_int.
assert (H : mag (binary_normalize prec emax n 0 false) (k + 1) 948).
{ destruct n as [|p|p]; simpl; auto.
  all: unfold binary_round, shl_align.
  all: pose proof (Zdigits2_lt_pow (Z.pos p) ltac:(lia)) as Hd.
  all: assert (Hd' : Zdigits2 (Z.pos p) <= k)
         by (apply Zdigits2_le; lia).
  all: pose proof (Zdigits2_nonneg (Z.pos p)) as Hd0.
  all: change (Z.pos (digits2_pos p)) with (Zdigits2 (Z.pos p)).
  all: destruct (fexp prec emax (Zdigits2 (Z.pos p) + 0) - 0)
         as [|q|q] eqn:E.
  all: unfold fexp, emin, prec, emax in E.
  1,2,4,5:
    apply binary_round_aux_mag with (K := Zdigits2 (Z.pos p));
    unfold emin, prec, emax; try lia.
  all: apply binary_round_aux_mag
         with (K := Zdigits2 (Z.pos p) + Z.pos q);
       unfold fexp, emin, prec, emax; try lia.
  all: rewrite pos_iter_xO, Z.pow_add_r by lia.
  all: assert (0 < 2 ^ Z.pos q) by (apply Z.pow_pos_nonneg; lia).
  all: nia. }
rewrite (mag_is_finite _ _ _ H). eauto.
Qed.

Lemma int_truediv_mag a b :
0 <= a <= b -> 0 < b ->
exists q, int_truediv a b = Ok q /\ mag q 2 0.
Proof.
intros Ha Hb. unfold int_truediv.
destruct (Z.eqb_spec b 0) as [|_]; [lia|].
destruct (Z.eqb_spec a 0) as [|Ha0];
  [eexists; split; [reflexivity|exact I]|].
rewrite !Z.abs_eq by lia.
unfold SFdiv_core_binary.
set (e' := Z.min (fexp prec emax (Zdigits2 a + 0 - (Zdigits2 b + 0))) (0 - 0)).
assert (He' : e' <= 0) by (subst e'; lia).
set (m' := match 0 - 0 - e' with
           | 0 => a | Z.pos _ => Z.shiftl a (0 - 0 - e') | Z.neg _ => 0
           end).
assert (Hm' : m' = a * 2 ^ (- e')).
{ subst m'. replace (0 - 0 - e') with (- e') by lia.
  destruct (- e') as [|p|p] eqn:E; try lia.
  rewrite Z.shiftl_mul_pow2 by lia. reflexivity. }
assert (Hp : 0 < 2 ^ (- e')) by (apply Z.pow_pos_nonneg; lia).
pose proof (Z.div_eucl_eq m' b ltac:(lia)) as Heq.
pose proof (Z.mod_pos_bound m' b Hb) as Hmod.
unfold Z.modulo in Hmod.
destruct (Z.div_eucl m' b) as [q r] eqn:Ediv.
assert (Hq : 0 <= q) by nia.
assert (Hq2 : q < 2 ^ (- e' + 1)).
{ rewrite Z.pow_add_r by lia. change (2 ^ 1) with 2. nia. }
assert (H : mag (binary_round_aux prec emax (xorb (a <? 0) (b <? 0)) q e'
                   (new_location b r)) 2 0).
{ apply binary_round_aux_mag with (K := - e' + 1);
    unfold emin, prec, emax; lia. }
rewrite (mag_is_finite _ _ _ H). eauto.
Qed.

Lemma SFmul_mag x y Kx Ex Ky Ey :
mag x Kx Ex -> mag y Ky Ey ->
Ex + Ey <= emax - prec -> Kx + Ky + 1 <= emax ->
mag (SFmul prec emax x y) (Z.max (Kx + Ky) (emin prec emax) + 1)
  (emax - prec).
Proof.
intros Hx Hy HE HK.
destruct x as [sx|sx| |sx mx ex], y as [sy|sy| |sy my ey];
  simpl in Hx, Hy; try contradiction; try exact I.
destruct Hx as (K1 & H1 & H2 & H3 & H4).
destruct Hy as (K2 & H5 & H6 & H7 & H8).
unfold SFmul.
assert (0 < 2 ^ K1) by (apply Z.pow_pos_nonneg; lia).
assert (0 < 2 ^ K2) by (apply Z.pow_pos_nonneg; lia).
apply binary_round_aux_mag with (K := K1 + K2);
  unfold emin, prec, emax in *; try lia.
rewrite Pos2Z.inj_mul, Z.pow_add_r by lia. nia.
Qed.

Lemma int_of_float_bound x Kb Eb :
mag x Kb Eb -> 0 <= Kb ->
exists z, int_of_float x = Ok z /\ Z.abs z < 2 ^ Kb.
Proof.
intros Hx HKb. destruct x as [s|s| |s m e]; simpl in Hx; try contradiction.
- exists 0. split; [reflexivity|]. simpl. apply Z.pow_pos_nonneg; lia.
- destruct Hx as (K & H1 & H2 & H3 & H4). simpl.
  eexists. split; [reflexivity|].
  assert (Hb : match e with
               | Z.neg p => Z.shiftr (Z.pos m) (Z.pos p)
               | _ => Z.shiftl (Z.pos m) e
               end < 2 ^ Kb
               /\ 0 <= match e with
                       | Z.neg p => Z.shiftr (Z.pos m) (Z.pos p)
                       | _ => Z.shiftl (Z.pos m) e
                       end).
  { destruct e as [|p|p].
    - rewrite Z.shiftl_0_r. split; [|lia].
      eapply Z.lt_le_trans; [exact H2|]. apply Z.pow_le_mono_r; lia.
    - rewrite Z.shiftl_mul_pow2 by lia.
      assert (0 < 2 ^ Z.pos p) by (apply Z.pow_pos_nonneg; lia).
      split; [|nia].
      apply Z.lt_le_trans with (2 ^ K * 2 ^ Z.pos p); [nia|].
      rewrite <- Z.pow_add_r by lia. apply Z.pow_le_mono_r; lia.
    - split.
      + eapply Z.lt_le_trans;
          [apply (shiftr_lt_pow (Z.pos m) (Z.pos p) K); lia|].
        apply Z.pow_le_mono_r; lia.
      + apply Z.shiftr_nonneg. lia. }
  destruct s; lia.
Qed.

Lemma int_of_float_finite x :
is_finite x = true -> exists z, int_of_float x = Ok z.
Proof. destruct x; simpl; intros H; try discriminate; eauto. Qed.

Lemma float_0_3_mag : mag float_0_3 (-1) 0.
Proof. simpl. exists 53. repeat split; lia. Qed.

End FloatFacts.

(** ** world/medical: distribution, conditions *)

Module MedicalFacts.

Import Medical FloatFacts.

(** *** Dicts *)

Section Dicts.

Context {V : Type}.
Implicit Types (d : dict string V) (k : string) (v : V).

Lemma dict_set_fresh d k v :
  k ∉ dict_keys d -> dict_set d k v = d ++ [(k, v)].
Proof.
  induction d as [|[k' v'] d IH]; simpl; intros Hk; [reflexivity|].
  rewrite not_elem_of_cons in Hk. destruct Hk as [Hne Hk].
  destruct (decide (k = k')); [contradiction|]. now rewrite IH.
Qed.

Lemma dict_get_set d k k' v :
  dict_get (dict_set d k v) k'
  = if decide (k' = k) then Some v else dict_get d k'.
Proof.
  induction d as [|[k0 v0] d IH]; simpl.
  - destruct (decide (k' = k)); reflexivity.
  - destruct (decide (k = k0)) as [->|Hne]; simpl.
    + destruct (decide (k' = k0)); reflexivity.
    + rewrite IH. destruct (decide (k' = k0)) as [->|];
        destruct (decide (k0 = k)); try reflexivity; congruence.
Qed.

End Dicts.

Lemma Forall2_impl_elem {A B} (P Q : A -> B -> Prop) l k :
  Forall2 P l k -> (forall x y, x ∈ l -> P x y -> Q x y) -> Forall2 Q l k.
Proof.
  induction 1 as [|x y l k Hxy _ IH]; intros HPQ; constructor.
  - apply HPQ; [left|exact Hxy].
  - apply IH. intros x' y' Hx'. apply HPQ. now right.
Qed.

Lemma sum_app l1 l2 : sum (l1 ++ l2) = sum l1 + sum l2.
Proof. induction l1; simpl; lia. Qed.

Lemma sum_nonneg (l : list Z) : Forall (fun y => 0 <= y) l -> 0 <= sum l.
Proof. induction 1; simpl; lia. Qed.

Lemma sum_elem_le (l : list Z) x :
  Forall (fun y => 0 <= y) l -> x ∈ l -> 0 <= x <= sum l.
Proof.
  induction 1 as [|y l Hy Hl IH]; intros Hx; [inversion Hx|].
  pose proof (sum_nonneg l Hl).
  apply elem_of_cons in Hx as [->|Hx]; simpl; [lia|].
  specialize (IH Hx). lia.
Qed.

(** *** The proportional share is always computed *)

Lemma organ_share_ok organ_weight total_weight total_damage :
  0 <= organ_weight <= total_weight -> 0 < total_weight ->
  representable total_damage ->
  exists z, organ_share organ_weight total_weight total_damage = Ok z.
Proof.
  intros Hw Htw HD. unfold organ_share.
  destruct (int_truediv_mag _ _ Hw Htw) as (q & -> & Hq). simpl.
  unfold float_mul_int.
  destruct (float_of_int_mag _ 512 ltac:(lia) HD) as (y & -> & Hy). simpl.
  apply int_of_float_finite. eapply mag_is_finite.
  eapply SFmul_mag; eauto; unfold emax, prec; lia.
Qed.

Lemma int_of_3_tenths_ok n k :
  0 <= k <= 1000 -> Z.abs n < 2 ^ k ->
  exists z, int_of_3_tenths n = Ok z /\ Z.abs z < 2 ^ (k + 1).
Proof.
  intros Hk Hn. unfold int_of_3_tenths, int_mul_float.
  destruct (float_of_int_mag _ k Hk Hn) as (y & -> & Hy). simpl.
  pose proof (SFmul_mag _ _ _ _ _ _ Hy float_0_3_mag) as Hm.
  unfold emax, prec, emin in Hm.
  replace (Z.max (k + 1 + -1) (3 - 1024 - 53) + 1) with (k + 1) in Hm
    by lia.
  eapply int_of_float_bound; [apply Hm; lia|lia].
Qed.

(** *** Organs of a location *)

Section Distribution.

Variable K : Constants.
Hypothesis Hwf : tables_well_formed K.

Lemma organs_NoDup location :
  NoDup (get_organ_by_body_location K location).
Proof.
  destruct Hwf as [Hnd _]. unfold get_organ_by_body_location, dict_keys.
  eapply sublist_NoDup; [exact Hnd|].
  apply (fmap_sublist fst), sublist_filter.
Qed.

Lemma organ_hit_weight_pos organ_name : 0 < organ_hit_weight K organ_name.
Proof.
  destruct Hwf as (_ & [c Hc] & Hpos). unfold organ_hit_weight.
  unfold map_Forall in Hpos.
  rewrite Hc.
  generalize (match dict_get (ORGANS K) organ_name with
              | Some organ_data => default "common" (hit_weight organ_data)
              | None => "common"
              end).
  intros cat. destruct (HIT_WEIGHTS K !! cat) as [w|] eqn:E; simpl;
    [exact (Hpos _ _ E)|exact (Hpos _ _ Hc)].
Qed.

Lemma hit_weight_value_ok organ_name :
  hit_weight_value K
    (match dict_get (ORGANS K) organ_name with
     | Some organ_data => default "common" (hit_weight organ_data)
     | None => "common"
     end) = Ok (organ_hit_weight K organ_name).
Proof.
  destruct Hwf as (_ & [c Hc] & _).
  unfold hit_weight_value, organ_hit_weight. now rewrite Hc.
Qed.

Lemma hit_weights_loop_spec organs hit_weights :
  exists hw,
    hit_weights_loop K organs hit_weights = Ok hw
    /\ forall o, dict_get hw o
                 = if decide (o ∈ organs)
                   then Some (organ_hit_weight K o)
                   else dict_get hit_weights o.
Proof.
  revert hit_weights.
  induction organs as [|organ_name rest IH]; intros hit_weights; simpl.
  - exists hit_weights. split; [reflexivity|]. intros o.
    destruct (decide (o ∈ [])) as [H|]; [inversion H|reflexivity].
  - rewrite hit_weight_value_ok. simpl.
    destruct (IH (dict_set hit_weights organ_name
                    (organ_hit_weight K organ_name))) as (hw & -> & Hhw).
    exists hw. split; [reflexivity|]. intros o. rewrite Hhw.
    rewrite dict_get_set.
    repeat case_decide; subst; try reflexivity; exfalso; set_solver.
Qed.

Lemma functional_organs_sublist medical_state organs fo :
  functional_organs_of medical_state organs = Ok fo ->
  fo `sublist_of` organs.
Proof.
  revert fo. induction organs as [|o rest IH]; simpl; intros fo H.
  - injection H as <-. constructor.
  - destruct (get_organ medical_state o) as [organ|]; [|discriminate].
    destruct (functional_organs_of medical_state rest) as [tail|];
      [|discriminate].
    simpl in H. injection H as <-.
    destruct (is_destroyed organ);
      [apply sublist_cons|apply sublist_skip]; auto.
Qed.

(** The functional organs are exactly the organs of the list that
    are not destroyed. *)
Lemma functional_organs_elem medical_state organs fo o :
  functional_organs_of medical_state organs = Ok fo ->
  o ∈ fo <->
  o ∈ organs /\ exists organ, get_organ medical_state o = Some organ
                              /\ is_destroyed organ = false.
Proof.
  revert fo. induction organs as [|o' rest IH]; simpl; intros fo H.
  - injection H as <-. split; [inversion 1|intros [H _]; inversion H].
  - destruct (get_organ medical_state o') as [organ|] eqn:Eo;
      [|discriminate].
    destruct (functional_organs_of medical_state rest) as [tail|];
      [|discriminate].
    simpl in H. injection H as <-. specialize (IH tail eq_refl).
    destruct (is_destroyed organ) eqn:Ed.
    + rewrite IH, elem_of_cons. split.
      * intros (? & ?); eauto.
      * intros ([->|?] & organ' & H1 & H2); [congruence|eauto].
    + rewrite !elem_of_cons, IH. split.
      * intros [->|(? & ?)]; eauto.
      * intros ([->|?] & organ' & H1 & H2); eauto.
Qed.

(** *** The loop over all but the last functional organ *)

Lemma distribute_loop_spec hit_weights total_weight total_damage
    organs damage_distribution remaining_damage :
  NoDup (dict_keys damage_distribution ++ organs) ->
  (forall o, o ∈ organs ->
             0 <= dict_get_default hit_weights o 0 <= total_weight) ->
  0 < total_weight -> representable total_damage ->
  exists shares,
    distribute_loop hit_weights total_weight total_damage organs
      damage_distribution remaining_damage
    = Ok (damage_distribution ++ zip organs shares,
          remaining_damage - sum shares)
    /\ Forall2 (fun o z =>
                  organ_share (dict_get_default hit_weights o 0)
                    total_weight total_damage = Ok z)
         organs shares.
Proof.
  intros Hnd Hw Htw HD.
  revert damage_distribution remaining_damage Hnd.
  induction organs as [|o rest IH]; intros dist rem Hnd; simpl.
  - exists []. simpl. rewrite app_nil_r, Z.sub_0_r. split; constructor.
  - destruct (organ_share_ok _ _ _ (Hw o ltac:(left)) Htw HD)
      as (z & Hz).
    rewrite Hz. simpl.
    apply NoDup_app in Hnd as (Hd & Hdisj & Hr).
    apply NoDup_cons in Hr as (Ho & Hr).
    assert (Hfresh : o ∉ dict_keys dist).
    { intros Hin. apply (Hdisj o Hin). left. }
    rewrite (dict_set_fresh _ _ _ Hfresh).
    destruct (IH (fun o' H' => Hw o' ltac:(now right))
                 (dist ++ [(o, z)]) (rem - z)) as (shares & -> & Hsh).
    { unfold dict_keys. rewrite map_app. simpl. rewrite <- app_assoc.
      simpl. apply NoDup_app. split; [exact Hd|]. split.
      - intros x Hx Hx'. apply elem_of_cons in Hx' as [->|Hx'].
        + contradiction.
        + apply (Hdisj x Hx). now right.
      - apply NoDup_cons; auto. }
    exists (z :: shares). simpl. rewrite <- app_assoc. simpl.
    split; [f_equal; f_equal; lia|]. constructor; auto.
Qed.

(** *** The distribution without a valid target organ *)

Lemma hit_weights_of_location location o :
  o ∈ get_organ_by_body_location K location ->
  exists hw,
    calculate_hit_weights_for_location K location = Ok hw
    /\ forall o', o' ∈ get_organ_by_body_location K location ->
                  dict_get_default hw o' 0 = organ_hit_weight K o'.
Proof.
  intros _. unfold calculate_hit_weights_for_location.
  destruct (hit_weights_loop_spec
              (get_organ_by_body_location K location) [])
    as (hw & -> & Hhw).
  exists hw. split; [reflexivity|]. intros o' Ho'.
  unfold dict_get_default. rewrite Hhw.
  destruct (decide _); [reflexivity|contradiction].
Qed.

Lemma distribute_proportional_spec location total_damage medical_state
    injury_type target_organ fo :
  functional_organs_of medical_state
    (get_organ_by_body_location K location) = Ok fo ->
  fo <> [] ->
  valid_target target_organ fo = false ->
  representable total_damage ->
  exists shares,
    distribute_damage_to_organs K location total_damage medical_state
      injury_type target_organ
    = Ok (zip (removelast fo) shares
          ++ [(List.last fo "", total_damage - sum shares)])
    /\ Forall2
         (fun o z =>
            organ_share (organ_hit_weight K o)
              (sum (map (organ_hit_weight K) fo)) total_damage = Ok z)
         (removelast fo) shares.
Proof.
  intros Hfo Hne Hvt HD.
  pose proof (functional_organs_sublist _ _ _ Hfo) as Hsub.
  pose proof (sublist_NoDup _ _ (organs_NoDup location) Hsub) as Hnd.
  assert (Horg : is_nil (get_organ_by_body_location K location) = false).
  { destruct (get_organ_by_body_location K location); [|reflexivity].
    simpl in Hfo. injection Hfo as <-. contradiction. }
  assert (Hnil : is_nil fo = false) by (destruct fo; [contradiction|reflexivity]).
  destruct fo as [|f0 fo'] eqn:Efo; [contradiction|].
  rewrite <- Efo in *.
  unfold distribute_damage_to_organs.
  rewrite Horg, Hfo. simpl bind. cbv beta. rewrite Hnil.
  change (truthy_str target_organ
          && bool_decide (default "" target_organ ∈ fo))
    with (valid_target target_organ fo).
  rewrite Hvt.
  destruct (hit_weights_of_location location f0) as (hw & -> & Hhw).
  { eapply elem_of_sublist; [|exact Hsub]. rewrite Efo. left. }
  simpl bind. cbv beta.
  assert (Hw : map (fun organ_name => dict_get_default hw organ_name 0) fo
               = map (organ_hit_weight K) fo).
  { apply map_ext_in. intros o Ho. apply Hhw.
    eapply elem_of_sublist; [|exact Hsub]. now apply list_elem_of_In. }
  rewrite Hw.
  assert (Hpos : Forall (fun y => 0 <= y) (map (organ_hit_weight K) fo)).
  { apply Forall_forall. intros y Hy.
    apply list_elem_of_fmap in Hy as (o & -> & _).
    pose proof (organ_hit_weight_pos o). lia. }
  assert (Htw : 0 < sum (map (organ_hit_weight K) fo)).
  { pose proof (organ_hit_weight_pos f0).
    assert (Hin : organ_hit_weight K f0 ∈ map (organ_hit_weight K) fo).
    { apply list_elem_of_fmap. exists f0. split; [reflexivity|].
      rewrite Efo. left. }
    pose proof (sum_elem_le _ _ Hpos Hin). lia. }
  destruct (Z.eqb_spec (sum (map (organ_hit_weight K) fo)) 0); [lia|].
  pose proof (app_removelast_last "" Hne) as Hsplit.
  assert (Hnd' : NoDup (removelast fo ++ [List.last fo ""])).
  { rewrite <- Hsplit. exact Hnd. }
  apply NoDup_app in Hnd' as (Hnd1 & Hdisj & _).
  destruct (distribute_loop_spec hw
              (sum (map (organ_hit_weight K) fo)) total_damage
              (removelast fo) [] total_damage) as (shares & -> & Hsh);
    auto.
  { intros o Ho.
    assert (Ho' : o ∈ fo).
    { rewrite Hsplit. apply elem_of_app. now left. }
    rewrite Hhw by (eapply elem_of_sublist; eauto).
    apply sum_elem_le; [exact Hpos|].
    apply list_elem_of_fmap. eauto. }
  simpl bind. cbv beta. simpl fst. simpl snd.
  assert (Hlen : length (removelast fo) = length shares)
    by (eapply Forall2_length; eauto).
  exists shares. split.
  - rewrite dict_set_fresh; [reflexivity|].
    unfold dict_keys. change (map fst ?l) with (l.*1).
    rewrite fst_zip by lia.
    intros Hin. apply (Hdisj _ Hin). left.
  - eapply Forall2_impl_elem; [exact Hsh|]. intros o z Ho Hz.
    cbv beta in Hz. rewrite Hhw in Hz; [exact Hz|].
    eapply elem_of_sublist; [|exact Hsub].
    rewrite Hsplit. apply elem_of_app. now left.
Qed.

End Distribution.

(** *** Equal hit weights split 12 damage into 6 and 6 *)




(** *** Functional organs *)

Lemma is_functional_spec medical_state o :
  is_functional medical_state o = true
  <-> exists organ, get_organ medical_state o = Some organ
                    /\ is_destroyed organ = false.
Proof.
  unfold is_functional. destruct (get_organ medical_state o) as [organ|].
  - rewrite negb_true_iff. split; [eauto|]. intros (? & [= <-] & ?). auto.
  - split; [discriminate|]. intros (? & ? & _). discriminate.
Qed.

(** On a state that has every organ of the list, the filter of the
    code keeps exactly the organs that are not destroyed. *)
Lemma functional_organs_filter medical_state organs :
  (forall o, o ∈ organs -> is_Some (get_organ medical_state o)) ->
  functional_organs_of medical_state organs
  = Ok (filter (fun o => is_functional medical_state o = true) organs).
Proof.
  induction organs as [|o rest IH]; intros Hall; [reflexivity|].
  cbn [functional_organs_of].
  destruct (Hall o ltac:(left)) as [organ Ho].
  rewrite Ho, IH by (intros o' Ho'; apply Hall; now right).
  cbn [bind]. rewrite filter_cons.
  assert (Hf : is_functional medical_state o = negb (is_destroyed organ))
    by (unfold is_functional; now rewrite Ho).
  destruct (decide _) as [Hd|Hd]; rewrite Hf in Hd;
    destruct (is_destroyed organ); try reflexivity;
    [discriminate Hd|now destruct Hd].
Qed.


(** C10. When the target organ named in the call is destroyed or does
    not belong to the location, while another organ of the location
    is functional, the call returns what the call without a target
    organ returns: it does not raise, the named organ receives
    nothing, and the damage is distributed over the functional organs
    of the location. *)
Theorem distribute_damage_invalid_target
    (K : Constants) (location : string) (total_damage : Z)
    (medical_state : MedicalState) (injury_type : string)
    (organ : string) :
  tables_well_formed K ->
  (forall o, o ∈ get_organ_by_body_location K location ->
             is_Some (get_organ medical_state o)) ->
  (organ ∉ get_organ_by_body_location K location
   \/ exists target, get_organ medical_state organ = Some target
                     /\ is_destroyed target = true) ->
  (exists o other,
     o <> organ /\ o ∈ get_organ_by_body_location K location
     /\ get_organ medical_state o = Some other
     /\ is_destroyed other = false) ->
  representable total_damage ->
  exists dist,
    distribute_damage_to_organs K location total_damage medical_state
      injury_type (Some organ) = Ok dist
    /\ distribute_damage_to_organs K location total_damage medical_state
         injury_type None = Ok dist
    /\ dict_get dist organ = None
    /\ dict_keys dist
       = filter (fun o => is_functional medical_state o = true)
           (get_organ_by_body_location K location)
    /\ sum (dict_values dist) = total_damage.
Proof.
  intros Hwf Hall Hbad (o0 & organ0 & _ & Ho0 & Hg0 & Hd0) HD.
  set (fo := filter (fun o => is_functional medical_state o = true)
               (get_organ_by_body_location K location)).
  pose proof (functional_organs_filter medical_state _ Hall) as Hfo.
  fold fo in Hfo.
  assert (Hne : fo <> []).
  { intros Hnil.
    assert (Hin : o0 ∈ fo).
    { apply list_elem_of_filter. split; [|exact Ho0].
      apply is_functional_spec. eauto. }
    rewrite Hnil in Hin. inversion Hin. }
  assert (Hnot : organ ∉ fo).
  { intros Hin. apply list_elem_of_filter in Hin as [Hf Hin].
    destruct Hbad as [Hout|(target & Hg & Hd)]; [contradiction|].
    apply is_functional_spec in Hf as (target' & Hg' & Hd'). congruence. }
  assert (Hv1 : valid_target (Some organ) fo = false).
  { unfold valid_target. simpl default.
    rewrite bool_decide_eq_false_2 by exact Hnot. apply andb_false_r. }
  assert (Hv2 : valid_target None fo = false) by reflexivity.
  destruct (distribute_proportional_spec K Hwf location total_damage
              medical_state injury_type (Some organ) fo Hfo Hne Hv1 HD)
    as (shares & Hdist & Hsh).
  destruct (distribute_proportional_spec K Hwf location total_damage
              medical_state injury_type None fo Hfo Hne Hv2 HD)
    as (shares' & Hdist' & Hsh').
  assert (shares' = shares).
  { clear -Hsh Hsh'. revert shares' Hsh'.
    induction Hsh as [|o z l k Hz _ IH]; intros shares' Hsh';
      inversion Hsh' as [|? z' ? k' Hz' Hk']; subst; [reflexivity|].
    rewrite Hz in Hz'. injection Hz' as <-. f_equal. now apply IH. }
  subst shares'.
  pose proof (Forall2_length _ _ _ Hsh) as Hlen.
  assert (Hkeys : dict_keys
                    (zip (removelast fo) shares
                     ++ [(List.last fo "", total_damage - sum shares)])
                  = fo).
  { unfold dict_keys. rewrite map_app.
    change (map fst ?l) with (l.*1). rewrite fst_zip by lia. simpl.
    symmetry. now apply app_removelast_last. }
  eexists. split; [exact Hdist|]. split; [exact Hdist'|].
  split; [|split; [exact Hkeys|]].
  - destruct (dict_get _ organ) as [v|] eqn:E; [|reflexivity].
    exfalso. apply Hnot. rewrite <- Hkeys.
    clear -E. revert E.
    generalize (zip (removelast fo) shares
                ++ [(List.last fo "", total_damage - sum shares)]).
    intros d. induction d as [|[k' v'] d IH]; simpl; [discriminate|].
    destruct (decide (organ = k')) as [->|]; [left|right; auto].
  - unfold dict_values. rewrite map_app.
    change (map snd ?l) with (l.*2). rewrite snd_zip by lia.
    rewrite sum_app. simpl. lia.
Qed.

(** *** apply_anatomical_damage *)

Lemma apply_loop_flags take_organ_damage injury_type dist ms results :
  limb_lost
    (snd (apply_loop take_organ_damage injury_type dist ms results))
  = limb_lost results
  /\ message
       (snd (apply_loop take_organ_damage injury_type dist ms results))
     = message results
  /\ total_damage
       (snd (apply_loop take_organ_damage injury_type dist ms results))
     = total_damage results.
Proof.
  revert ms results.
  induction dist as [|[organ_name organ_damage] rest IH];
    intros ms results; simpl; [auto|].
  destruct (0 <? organ_damage); [|apply IH].
  destruct (take_organ_damage ms organ_name organ_damage injury_type)
    as [ms' was_destroyed].
  destruct (IH ms'
              {| organs_damaged :=
                   organs_damaged results ++ [(organ_name, organ_damage)];
                 organs_destroyed :=
                   if was_destroyed
                   then organs_destroyed results ++ [organ_name]
                   else organs_destroyed results;
                 conditions_added := conditions_added results;
                 total_damage := total_damage results;
                 result_location := result_location results;
                 limb_lost := limb_lost results;
                 message := message results |}) as (H1 & H2 & H3).
  auto.
Qed.

Lemma functional_organs_all_destroyed medical_state organs :
  (forall o, o ∈ organs ->
             exists organ, get_organ medical_state o = Some organ
                           /\ is_destroyed organ = true) ->
  functional_organs_of medical_state organs = Ok [].
Proof.
  induction organs as [|o rest IH]; intros Hall; simpl; [reflexivity|].
  destruct (Hall o ltac:(left)) as (organ & -> & ->).
  rewrite IH by (intros o' Ho'; apply Hall; now right).
  reflexivity.
Qed.

(** C7. [apply_anatomical_damage] on a location that has organs, all
    of them destroyed, leaves the medical state as it is and returns
    the flagged result: no organ damaged, total damage 0, the
    [limb_lost] marker and the "already destroyed" message. Every
    result built from a non-empty distribution (a normal result, also
    one of zero damage) carries neither marker nor message and
    reports the damage it was called with. *)
Theorem apply_damage_to_destroyed_location
    (K : Constants)
    (take_organ_damage :
       MedicalState -> string -> Z -> string -> MedicalState * bool)
    (update_vital_signs : MedicalState -> MedicalState)
    (medical_state : MedicalState) (damage_amount : Z)
    (location injury_type : string) (target_organ : option string) :
  get_organ_by_body_location K location <> [] ->
  (forall o, o ∈ get_organ_by_body_location K location ->
             exists organ, get_organ medical_state o = Some organ
                           /\ is_destroyed organ = true) ->
  (exists r,
     apply_anatomical_damage K take_organ_damage update_vital_signs
       medical_state damage_amount location injury_type target_organ
     = Ok (r, medical_state)
     /\ organs_damaged r = [] /\ organs_destroyed r = []
     /\ conditions_added r = [] /\ total_damage r = 0
     /\ limb_lost r = Some true /\ is_Some (message r))
  /\ (forall ms2 d2 loc2 ty2 tgt2 dist r2 ms2',
        distribute_damage_to_organs K loc2 d2 ms2 ty2 tgt2 = Ok dist ->
        dist <> [] ->
        apply_anatomical_damage K take_organ_damage update_vital_signs
          ms2 d2 loc2 ty2 tgt2 = Ok (r2, ms2') ->
        limb_lost r2 = None /\ message r2 = None
        /\ total_damage r2 = d2).
Proof.
  intros Horg Hall. split.
  - pose proof (functional_organs_all_destroyed medical_state _ Hall)
      as Hfo.
    unfold apply_anatomical_damage, distribute_damage_to_organs.
    rewrite Hfo.
    destruct (get_organ_by_body_location K location) as [|o rest];
      [contradiction|].
    simpl. eexists. split; [reflexivity|]. simpl. repeat split; eauto.
  - intros ms2 d2 loc2 ty2 tgt2 dist r2 ms2' Hdist Hne Happ.
    unfold apply_anatomical_damage in Happ. rewrite Hdist in Happ.
    simpl in Happ.
    destruct dist as [|p dist']; [contradiction|]. simpl is_nil in Happ.
    cbv iota in Happ. rewrite andb_false_l in Happ.
    match type of Happ with
    | context [apply_loop ?t ?i ?d ?m ?r] =>
        pose proof (apply_loop_flags t i d m r) as (H1 & H2 & H3);
        destruct (apply_loop t i d m r) as [ms3 r3]
    end.
    injection Happ as <- <-. simpl in *. auto.
Qed.

(** *** Witnesses on the example anatomy *)

Lemma example_tables_well_formed : tables_well_formed example_constants.
Proof.
  split; [|split].
  - unfold dict_keys. apply (bool_decide_unpack _). vm_compute. exact I.
  - apply (bool_decide_unpack _). vm_compute. exact I.
  - apply (bool_decide_unpack _). vm_compute. exact I.
Defined.


Lemma distribute_damage_invalid_target_witness :
  exists dist,
    distribute_damage_to_organs example_constants "chest" 13
      example_state_wounded "bullet" (Some "left_lung") = Ok dist
    /\ distribute_damage_to_organs example_constants "chest" 13
         example_state_wounded "bullet" None = Ok dist
    /\ dict_get dist "left_lung" = None
    /\ dict_keys dist
       = filter (fun o => is_functional example_state_wounded o = true)
           (get_organ_by_body_location example_constants "chest")
    /\ sum (dict_values dist) = 13.
Proof.
  apply (distribute_damage_invalid_target example_constants "chest" 13
           example_state_wounded "bullet" "left_lung").
  - exact example_tables_well_formed.
  - intros o Ho. vm_compute in Ho.
    repeat (apply elem_of_cons in Ho as [->|Ho]);
      try (apply elem_of_nil in Ho; contradiction);
      vm_compute; eauto.
  - right. exists {| current_hp := 0; max_hp := 10 |}.
    split; vm_compute; reflexivity.
  - exists "heart", {| current_hp := 10; max_hp := 10 |}.
    split; [discriminate|]. split; [vm_compute; left|].
    split; vm_compute; reflexivity.
  - unfold representable. simpl. lia.
Defined.

Lemma apply_damage_to_destroyed_location_witness :
  exists r,
    apply_anatomical_damage example_constants example_take_organ_damage
      example_update_vital_signs example_state 7 "head" "bullet" None
    = Ok (r, example_state)
    /\ organs_damaged r = [] /\ organs_destroyed r = []
    /\ conditions_added r = [] /\ total_damage r = 0
    /\ limb_lost r = Some true /\ is_Some (message r).
Proof.
  apply (apply_damage_to_destroyed_location example_constants
           example_take_organ_damage example_update_vital_signs
           example_state 7 "head" "bullet" None).
  - vm_compute. discriminate.
  - intros o Ho. vm_compute in Ho.
    apply list_elem_of_singleton in Ho. subst o.
    eexists. split; vm_compute; reflexivity.
Defined.

(** *** Conditions: serialization *)

(** C3. The condition round trip fails for two of the three variants:
    [PainCondition] and [InfectionCondition] inherit
    [MedicalCondition.from_dict], which calls the class with three
    positional arguments (type, severity, location) although their
    [__init__] takes two, so [from_dict] raises TypeError on every
    mapping, in particular on the one [to_dict] has just written. *)
Theorem pain_infection_from_dict_raises :
  (forall K data, from_dict K PainCondition data = Raise TypeError)
  /\ (forall K data, from_dict K InfectionCondition data = Raise TypeError)
  /\ (do data <- to_dict (PainCondition__init__ 4 (Some "chest"));
      from_dict example_constants PainCondition data) = Raise TypeError
  /\ (do data <- to_dict (InfectionCondition__init__ 2 (Some "chest"));
      from_dict example_constants InfectionCondition data)
     = Raise TypeError.
Proof. repeat split. Qed.

(** The variant that overrides [from_dict] does round-trip: a bleeding
    condition is rebuilt field for field. *)
Lemma bleeding_round_trip K c r :
  cls c = BleedingCondition ->
  condition_type c = "minor_bleeding" ->
  extra c = BleedingAttrs r ->
  (do data <- to_dict c; from_dict K BleedingCondition data) = Ok c.
Proof.
  destruct c as [cl ct sev msev loc ti rt tr ex]. simpl.
  intros -> -> ->. unfold to_dict, BleedingCondition_to_dict. simpl.
  destruct loc; reflexivity.
Qed.

(** *** Conditions: bleeding ticks *)

Lemma untreated_bleeding_invariant K s loc c :
  untreated_bleeding K s loc c ->
  treated c = false
  /\ extra c = BleedingAttrs (default 1 (BLOOD_LOSS_PER_SEVERITY K !! s)).
Proof.
  induction 1 as [|c character roll c' character' _ [IHt IHe] Htick].
  - split; reflexivity.
  - unfold BleedingCondition_tick_effect, blood_loss_rate in Htick.
    rewrite IHe, IHt in Htick.
    destruct (medical_state character) as [ms|]; simpl in Htick.
    + injection Htick as <- _.
      destruct (roll <=? 10); simpl; auto.
    + injection Htick as <- _. auto.
Qed.

Lemma apply_treatment_inv K c q c1 R :
  treated c = false -> extra c = BleedingAttrs R ->
  BleedingCondition_apply_treatment K c q = Ok c1 ->
  exists n, int_of_3_tenths R = Ok n
            /\ treated c1 = true
            /\ extra c1 = BleedingAttrs (Z.max 1 n).
Proof.
  intros Ht He H. unfold BleedingCondition_apply_treatment in H.
  destruct (int_mul_float _ _) as [x|]; [|discriminate]. simpl in H.
  destruct (int_of_float x) as [n0|]; [|discriminate]. simpl in H.
  unfold blood_loss_rate in H. simpl in H. rewrite He in H. simpl in H.
  unfold int_of_3_tenths.
  destruct (int_mul_float R float_0_3) as [y|]; [|discriminate].
  simpl in H |- *.
  destruct (int_of_float y) as [m|]; [|discriminate]. simpl in H.
  injection H as <-. exists m. auto.
Qed.

(** Treating twice over: for every rate from 0 to 10000, the value
    [int(0.3 * max(1, int(0.3 * R)))] equals [int(0.3 * R)] exactly
    when [R] is at most 3 (both are then 0). *)
Lemma double_reduction_table :
  forallb
    (fun R =>
       match int_of_3_tenths R with
       | Ok n =>
           match int_of_3_tenths (Z.max 1 n) with
           | Ok loss => Bool.eqb (loss =? n) (R <=? 3) && (loss <=? n)
           | Raise _ => false
           end
       | Raise _ => false
       end)
    (seqZ 0 10001) = true.
Proof. vm_compute. reflexivity. Qed.

Lemma double_reduction R n loss :
  0 <= R <= 10000 ->
  int_of_3_tenths R = Ok n ->
  int_of_3_tenths (Z.max 1 n) = Ok loss ->
  (loss = n <-> R <= 3) /\ loss <= n.
Proof.
  intros HR Hn Hloss.
  pose proof double_reduction_table as H.
  rewrite forallb_forall in H.
  specialize (H R). rewrite Hn, Hloss in H.
  assert (Hin : In R (seqZ 0 10001))
    by (apply list_elem_of_In, elem_of_seqZ; lia).
  apply H in Hin. apply andb_true_iff in Hin as [He Hle].
  apply Bool.eqb_prop in He. split; [|lia].
  destruct (Z.eqb_spec loss n), (Z.leb_spec R 3);
    try discriminate; split; intros; try lia; try congruence.
Qed.

(** C9. A bleeding condition created at severity [s] has the rate [R]
    the blood-loss table gives for [s] (1 when the table has no
    entry). While it is untreated every tick lowers the blood level by
    exactly [R], with a floor of 0, whatever the natural healing roll
    of that tick does. [apply_treatment] marks the condition treated
    and stores the rate [max(1, int(0.3 * R))]; a tick of the treated
    condition then lowers the blood level by [int(0.3 * stored rate)],
    the reduction being applied a second time. For a table rate from
    0 to 10000 that loss is the [int(0.3 * R)] of the specification
    exactly when [R] is at most 3, and is smaller from 4 on. *)
Theorem bleeding_tick_blood_loss
    (K : Constants) (s : Z) (loc : option string) (c : Condition) :
  untreated_bleeding K s loc c ->
  let R := default 1 (BLOOD_LOSS_PER_SEVERITY K !! s) in
  (forall character ms roll,
     medical_state character = Some ms ->
     exists c',
       BleedingCondition_tick_effect c character roll
       = Ok (c', set_medical_state character
                   (set_blood_level ms (Z.max 0 (blood_level ms - R))))
       /\ untreated_bleeding K s loc c'
       /\ (R <= blood_level ms ->
           Z.max 0 (blood_level ms - R) = blood_level ms - R))
  /\ (forall q c1,
        representable R ->
        BleedingCondition_apply_treatment K c q = Ok c1 ->
        exists n loss,
          int_of_3_tenths R = Ok n
          /\ treated c1 = true
          /\ blood_loss_rate c1 = Ok (Z.max 1 n)
          /\ int_of_3_tenths (Z.max 1 n) = Ok loss
          /\ (forall character ms roll,
                medical_state character = Some ms ->
                BleedingCondition_tick_effect c1 character roll
                = Ok (c1, set_medical_state character
                            (set_blood_level ms
                               (Z.max 0 (blood_level ms - loss)))))
          /\ (0 <= R <= 10000 -> (loss = n <-> R <= 3) /\ loss <= n)).
Proof.
  intros Hu R.
  destruct (untreated_bleeding_invariant K s loc c Hu) as [Ht He].
  fold R in He. split.
  - intros character ms roll Hms.
    assert (Htick :
      BleedingCondition_tick_effect c character roll
      = Ok (if roll <=? 10
            then set_severity c (Z.max 0 (severity c - 1)) else c,
            set_medical_state character
              (set_blood_level ms (Z.max 0 (blood_level ms - R))))).
    { unfold BleedingCondition_tick_effect, blood_loss_rate.
      rewrite Hms, He, Ht. reflexivity. }
    eexists. split; [exact Htick|]. split; [|lia].
    eapply ub_ticked; [exact Hu|exact Htick].
  - intros q c1 HR Hq.
    destruct (apply_treatment_inv K c q c1 R Ht He Hq)
      as (n & Hn & Ht1 & He1).
    unfold representable in HR.
    destruct (int_of_3_tenths_ok R 512 ltac:(lia) HR) as (n' & Hn' & Hb).
    rewrite Hn in Hn'. injection Hn' as <-.
    destruct (int_of_3_tenths_ok (Z.max 1 n) 513 ltac:(lia))
      as (loss & Hloss & _).
    { assert (1 < 2 ^ 513) by (apply Z.pow_gt_1; lia).
      simpl in Hb. lia. }
    exists n, loss.
    split; [exact Hn|]. split; [exact Ht1|].
    split; [unfold blood_loss_rate; now rewrite He1|].
    split; [exact Hloss|]. split.
    + intros character ms roll Hms.
      unfold BleedingCondition_tick_effect, blood_loss_rate.
      rewrite Hms, He1, Ht1. simpl bind.
      unfold int_of_3_tenths in Hloss. rewrite Hloss. reflexivity.
    + intros HR'. exact (double_reduction R n loss HR' Hn Hloss).
Qed.

Lemma bleeding_tick_blood_loss_witness :
  let c := BleedingCondition__init__ example_constants 4 None in
  let R := default 1 (BLOOD_LOSS_PER_SEVERITY example_constants !! 4) in
  (forall character ms roll,
     medical_state character = Some ms ->
     exists c',
       BleedingCondition_tick_effect c character roll
       = Ok (c', set_medical_state character
                   (set_blood_level ms (Z.max 0 (blood_level ms - R))))
       /\ untreated_bleeding example_constants 4 None c'
       /\ (R <= blood_level ms ->
           Z.max 0 (blood_level ms - R) = blood_level ms - R))
  /\ (forall q c1,
        representable R ->
        BleedingCondition_apply_treatment example_constants c q = Ok c1 ->
        exists n loss,
          int_of_3_tenths R = Ok n
          /\ treated c1 = true
          /\ blood_loss_rate c1 = Ok (Z.max 1 n)
          /\ int_of_3_tenths (Z.max 1 n) = Ok loss
          /\ (forall character ms roll,
                medical_state character = Some ms ->
                BleedingCondition_tick_effect c1 character roll
                = Ok (c1, set_medical_state character
                            (set_blood_level ms
                               (Z.max 0 (blood_level ms - loss)))))
          /\ (0 <= R <= 10000 -> (loss = n <-> R <= 3) /\ loss <= n)).
Proof.
  apply (bleeding_tick_blood_loss example_constants 4 None
           (BleedingCondition__init__ example_constants 4 None)).
  apply ub_created.
Defined.

End MedicalFacts.

(** ** world/combat: grapples and removal *)

Module CombatFacts.

Import Combat Combat.Grappling.

(** *** Looking entries up *)

Lemma find_entry_Some l c j T :
  find_entry l c = Some (j, T) -> l !! j = Some T /\ char T = Some c.
Proof.
  unfold find_entry. intros H. apply list_find_Some in H. tauto.
Qed.

Lemma find_entry_None l c :
  find_entry l c = None <-> forall k e, l !! k = Some e -> char e <> Some c.
Proof.
  unfold find_entry. rewrite list_find_None, Forall_lookup. reflexivity.
Qed.

(** *** Initiating a grapple *)

(** C4. A grapple-initiate action of an attacker on a distinct target
    that has an entry in the same roster and is in the attacker's
    proximity is won exactly when the attacker's roll is strictly
    greater than the defender's (a tie goes to the defender). On
    success the attacker's entry refers to the target as grappling and
    is yielding, the target's entry refers to the attacker as
    grappled-by, and the target's yielding flag is left as it was: a
    non-yielding victim remains non-yielding. With the rolls 9 and 1
    the grapple succeeds. *)
Theorem grapple_initiate_outcome
    (w : World) (i : nat) (combatants_list : list Entry)
    (attacker_roll defender_roll : Z)
    (char_entry target_entry : Entry) (attacker target : dbref) (j : nat) :
  combatants_list !! i = Some char_entry ->
  char char_entry = Some attacker ->
  get_target_obj w char_entry = Some target ->
  attacker <> target ->
  find_entry combatants_list target = Some (j, target_entry) ->
  is_in_proximity w attacker target = Ok true ->
  exists l notice,
    resolve_grapple_initiate w i combatants_list attacker_roll defender_roll
    = Ok (w, l, notice)
    /\ (notice = GrappleSuccess <-> defender_roll < attacker_roll)
    /\ (notice = GrappleFail <-> attacker_roll <= defender_roll)
    /\ (defender_roll < attacker_roll ->
        exists char_entry' target_entry',
          l !! i = Some char_entry' /\ l !! j = Some target_entry'
          /\ grappling_dbref char_entry' = Some target
          /\ is_yielding char_entry' = true
          /\ grappled_by_dbref target_entry' = Some attacker
          /\ is_yielding target_entry' = is_yielding target_entry
          /\ (is_yielding target_entry = false ->
              is_yielding target_entry' = false))
    /\ (attacker_roll = 9 -> defender_roll = 1 -> notice = GrappleSuccess).
Proof.
  intros Hi Hc Ht Hne Hfind Hprox.
  destruct (find_entry_Some _ _ _ _ Hfind) as [Hj Hcj].
  assert (Hij : i <> j).
  { intros ->. rewrite Hi in Hj. injection Hj as <-. congruence. }
  unfold resolve_grapple_initiate.
  rewrite Hi, Hc, Ht, Hfind. unfold ensure_proximity.
  rewrite Hprox. cbn [bind negb]. cbv iota.
  destruct (Z.ltb_spec defender_roll attacker_roll) as [Hlt|Hge].
  - eexists _, _. split; [reflexivity|].
    split; [tauto|]. split; [split; [discriminate|lia]|].
    split; [|reflexivity].
    intros _.
    exists (set_is_yielding (set_grappling_dbref char_entry (Some target)) true),
           (set_target_dbref
              (set_grappled_by_dbref target_entry (Some attacker))
              (Some attacker)).
    split.
    { rewrite list_lookup_alter_eq, !list_lookup_alter_ne by auto.
      rewrite list_lookup_alter_eq, Hi. reflexivity. }
    split.
    { rewrite list_lookup_alter_ne by auto.
      rewrite !list_lookup_alter_eq, list_lookup_alter_ne, Hj by auto.
      reflexivity. }
    simpl. auto.
  - destruct (initiated_combat_this_action char_entry);
      (eexists _, _; split; [reflexivity|]);
      (split; [split; [discriminate|lia]|]);
      (split; [tauto|]); (split; [lia|lia]).
Qed.

Lemma grapple_initiate_outcome_witness :
  exists l notice,
    resolve_grapple_initiate example_world 0 example_roster 9 1
    = Ok (example_world, l, notice)
    /\ (notice = GrappleSuccess <-> 1 < 9)
    /\ (notice = GrappleFail <-> 9 <= 1)
    /\ (1 < 9 ->
        exists char_entry' target_entry',
          l !! 0%nat = Some char_entry' /\ l !! 1%nat = Some target_entry'
          /\ grappling_dbref char_entry' = Some 2
          /\ is_yielding char_entry' = true
          /\ grappled_by_dbref target_entry' = Some 1
          /\ is_yielding target_entry'
             = is_yielding (example_entry 2 (Some 1) None None false)
          /\ (is_yielding (example_entry 2 (Some 1) None None false) = false
              -> is_yielding target_entry' = false))
    /\ (9 = 9 -> 1 = 1 -> notice = GrappleSuccess).
Proof.
  apply (grapple_initiate_outcome example_world 0 example_roster 9 1
           (example_entry 1 (Some 2) None None false)
           (example_entry 2 (Some 1) None None false) 1 2 1).
  - reflexivity.
  - reflexivity.
  - vm_compute. reflexivity.
  - lia.
  - vm_compute. reflexivity.
  - vm_compute. reflexivity.
Defined.

(** *** Releasing a grapple *)

(** C8. A release by a character whose grappling reference resolves to
    a victim with an entry in the roster always succeeds: afterwards
    the releaser's grappling reference and the victim's grappled-by
    reference are both None, every other field of the two entries (the
    yielding flags among them) is what it was, and no other entry has
    changed. *)
Theorem release_grapple_frame
    (w : World) (i : nat) (combatants_list : list Entry)
    (char_entry target_entry : Entry) (releaser victim : dbref) (j : nat) :
  combatants_list !! i = Some char_entry ->
  char char_entry = Some releaser ->
  get_grappling_obj w char_entry = Some victim ->
  find_entry combatants_list victim = Some (j, target_entry) ->
  exists l char_entry' target_entry',
    resolve_release_grapple w i combatants_list = Ok (l, GrappleRelease)
    /\ length l = length combatants_list
    /\ l !! i = Some char_entry' /\ l !! j = Some target_entry'
    /\ grappling_dbref char_entry' = None
    /\ grappled_by_dbref target_entry' = None
    /\ same_but_grapple char_entry char_entry'
    /\ same_but_grapple target_entry target_entry'
    /\ (i <> j ->
        grappled_by_dbref char_entry' = grappled_by_dbref char_entry
        /\ grappling_dbref target_entry' = grappling_dbref target_entry)
    /\ (forall k, k <> i -> k <> j -> l !! k = combatants_list !! k).
Proof.
  intros Hi Hc Hg Hfind.
  destruct (find_entry_Some _ _ _ _ Hfind) as [Hj Hcj].
  unfold resolve_release_grapple. rewrite Hi, Hc, Hg, Hfind.
  destruct (decide (i = j)) as [<-|Hij].
  - rewrite Hi in Hj. injection Hj as <-.
    eexists _, _, _. split; [reflexivity|].
    rewrite !length_alter, !list_lookup_alter_eq, Hi. simpl.
    repeat split; try reflexivity; try contradiction.
    intros k Hk _. now rewrite !list_lookup_alter_ne by auto.
  - eexists _, _, _. split; [reflexivity|].
    rewrite !length_alter.
    rewrite list_lookup_alter_ne, list_lookup_alter_eq, Hi by auto.
    rewrite list_lookup_alter_eq, list_lookup_alter_ne, Hj by auto.
    simpl. repeat split; try reflexivity.
    intros k Hki Hkj. now rewrite !list_lookup_alter_ne by auto.
Qed.

Lemma release_grapple_frame_witness :
  exists l char_entry' target_entry',
    resolve_release_grapple example_world 0 example_roster_grappled
    = Ok (l, GrappleRelease)
    /\ length l = length example_roster_grappled
    /\ l !! 0%nat = Some char_entry' /\ l !! 1%nat = Some target_entry'
    /\ grappling_dbref char_entry' = None
    /\ grappled_by_dbref target_entry' = None
    /\ same_but_grapple (example_entry 1 (Some 2) (Some 2) None true)
         char_entry'
    /\ same_but_grapple (example_entry 2 (Some 1) None (Some 1) false)
         target_entry'
    /\ (0%nat <> 1%nat ->
        grappled_by_dbref char_entry'
        = grappled_by_dbref (example_entry 1 (Some 2) (Some 2) None true)
        /\ grappling_dbref target_entry'
           = grappling_dbref (example_entry 2 (Some 1) None (Some 1) false))
    /\ (forall k, k <> 0%nat -> k <> 1%nat ->
                  l !! k = example_roster_grappled !! k).
Proof.
  apply (release_grapple_frame example_world 0 example_roster_grappled
           (example_entry 1 (Some 2) (Some 2) None true)
           (example_entry 2 (Some 1) None (Some 1) false) 1 2 1).
  - reflexivity.
  - reflexivity.
  - vm_compute. reflexivity.
  - vm_compute. reflexivity.
Defined.

(** *** Leaving combat *)

Lemma not_targeted_spec l c :
  c ∉ targeted_dbrefs l <-> forall e, e ∈ l -> target_dbref e <> Some c.
Proof.
  unfold targeted_dbrefs. rewrite list_elem_of_omap. split.
  - intros H e He Ht. apply H. eauto.
  - intros H (e & He & Ht). exact (H e He Ht).
Qed.

Lemma same_char_target_refl l : Forall2 same_char_target l l.
Proof. induction l; constructor; [split; reflexivity|assumption]. Qed.

Lemma same_char_target_trans l1 l2 l3 :
  Forall2 same_char_target l1 l2 -> Forall2 same_char_target l2 l3 ->
  Forall2 same_char_target l1 l3.
Proof.
  intros H. revert l3. induction H as [|x y l k [H1 H2] _ IH];
    intros l3 H3; inversion H3 as [|? z ? k3 [H4 H5] H6]; subst;
    constructor; [|auto].
  split; congruence.
Qed.

Lemma same_char_target_map f l :
  (forall e, same_char_target e (f e)) ->
  Forall2 same_char_target l (map f l).
Proof. intros H. induction l; simpl; constructor; auto. Qed.

Lemma same_char_target_elem l l' e' :
  Forall2 same_char_target l l' -> e' ∈ l' ->
  exists e, e ∈ l /\ same_char_target e e'.
Proof.
  intros H He. apply list_elem_of_lookup in He as [k Hk].
  destruct (Forall2_lookup_r _ _ _ _ _ H Hk) as (e & Hl & Hs).
  exists e. split; [eapply list_elem_of_lookup_2; eauto|assumption].
Qed.

Lemma break_entry_same grappler victim e :
  same_char_target e (fst (break_entry grappler victim e)).
Proof.
  unfold break_entry.
  repeat match goal with
         | |- context [if ?b then _ else _] => destruct b; simpl
         end; split; reflexivity.
Qed.

Lemma break_grapple_same h grappler victim :
  Forall2 same_char_target (combatants h)
    (combatants (fst (break_grapple h grappler victim)))
  /\ _active_combatants_list (fst (break_grapple h grappler victim))
     = _active_combatants_list h
  /\ handler_id (fst (break_grapple h grappler victim)) = handler_id h
  /\ is_active (fst (break_grapple h grappler victim)) = is_active h.
Proof.
  assert (Forall2 same_char_target (combatants h)
            (map fst (map (break_entry grappler victim) (combatants h)))).
  { rewrite map_map. apply same_char_target_map, break_entry_same. }
  unfold break_grapple. destruct grappler, victim; simpl; auto.
  auto using same_char_target_refl.
Qed.

Lemma cleanup_combatant_state_same w c entry h :
  Forall2 same_char_target (combatants h)
    (combatants (snd (cleanup_combatant_state w c entry h)))
  /\ _active_combatants_list (snd (cleanup_combatant_state w c entry h))
     = _active_combatants_list h
  /\ handler_id (snd (cleanup_combatant_state w c entry h)) = handler_id h
  /\ is_active (snd (cleanup_combatant_state w c entry h)) = is_active h.
Proof.
  unfold cleanup_combatant_state. cbv zeta. cbn [snd].
  set (w1 := clear_all_proximity w c).
  set (h1 := match get_combatant_grappling_target w1 entry with
             | Some _ => _ | None => h end).
  assert (H1 : Forall2 same_char_target (combatants h) (combatants h1)
               /\ _active_combatants_list h1 = _active_combatants_list h
               /\ handler_id h1 = handler_id h
               /\ is_active h1 = is_active h).
  { subst h1. destruct (get_combatant_grappling_target w1 entry).
    - apply break_grapple_same.
    - auto using same_char_target_refl. }
  destruct H1 as (Ha & Hb & Hc & Hd).
  destruct (get_combatant_grappled_by w1 entry).
  - destruct (break_grapple_same h1 (Some d) (Some c)) as (Ha' & Hb' & Hc' & Hd').
    repeat split; try congruence.
    eapply same_char_target_trans; eauto.
  - auto.
Qed.

Lemma retarget_fold_id w saved c ks r :
  (forall e, e ∈ working r -> target_dbref e <> Some c) ->
  fold_left (retarget_step w saved c) ks (Ok r) = Ok r.
Proof.
  intros H. induction ks as [|k ks IH]; [reflexivity|].
  cbn [fold_left].
  assert (retarget_step w saved c (Ok r) k = Ok r) as ->; [|exact IH].
  unfold retarget_step. cbn [bind].
  destruct (working r !! k) as [e|] eqn:E; [|reflexivity].
  rewrite bool_decide_false; [reflexivity|].
  unfold get_character_dbref. apply H.
  eapply list_elem_of_lookup_2; eauto.
Qed.

Lemma retarget_fold_raise w saved c ks x :
  fold_left (retarget_step w saved c) ks (Raise x) = Raise x.
Proof. induction ks as [|k ks IH]; [reflexivity|exact IH]. Qed.

Lemma filter_all {A} (P : A -> Prop) `{forall x, Decision (P x)}
    (l : list A) :
  (forall x, x ∈ l -> P x) -> filter P l = l.
Proof.
  induction l as [|x l IH]; intros HP; [reflexivity|].
  rewrite filter_cons_True by (apply HP; left).
  f_equal. apply IH. intros y Hy. apply HP. now right.
Qed.

(** Removing a character nobody targets, with no working list in
    place: the call returns, and the stored roster is the old one
    without the character's entries. *)
Lemma remove_untargeted w h c :
  no_working_list h ->
  (forall e, e ∈ combatants h -> target_dbref e <> Some c) ->
  exists w' h',
    remove_combatant w h c = Ok (w', h')
    /\ no_working_list h'
    /\ combatants h' = filter (fun e => char e <> Some c) (combatants h).
Proof.
  intros Hnw Hnt. unfold remove_combatant. unfold no_working_list in Hnw.
  rewrite Hnw. cbn [is_nil negb].
  destruct (find_entry (combatants h) c) as [[k entry]|] eqn:Ef.
  - destruct (cleanup_combatant_state_same w c entry h) as (_ & Hb & _).
    destruct (cleanup_combatant_state w c entry h) as [w1 h1].
    cbn [snd] in Hb. cbn [working db].
    rewrite retarget_fold_id by (cbn [working]; exact Hnt).
    cbn [bind working].
    eexists _, _. split; [reflexivity|].
    unfold no_working_list.
    destruct (is_nil (filter _ (combatants h))); cbn; auto.
  - exists w, h. split; [reflexivity|].
    split; [exact Hnw|].
    symmetry. apply filter_all. intros e He.
    apply list_elem_of_lookup in He as [k Hk].
    rewrite find_entry_None in Ef. eauto.
Qed.

Lemma remove_all_untargeted orphaned_chars :
  forall w h,
    no_working_list h ->
    (forall o e, o ∈ orphaned_chars -> e ∈ combatants h ->
                 target_dbref e <> Some o) ->
    exists w' h',
      remove_all w h orphaned_chars = Ok (w', h')
      /\ no_working_list h'
      /\ combatants h'
         = filter (fun e => char e ∉ (Some <$> orphaned_chars))
             (combatants h).
Proof.
  induction orphaned_chars as [|o rest IH]; intros w h Hnw Hnt.
  - exists w, h. split; [reflexivity|]. split; [assumption|].
    symmetry. apply filter_all. intros e _. cbn. apply not_elem_of_nil.
  - destruct (remove_untargeted w h o Hnw) as (w1 & h1 & Hr & Hnw1 & Hf).
    { intros e He. apply Hnt; [left|assumption]. }
    destruct (IH w1 h1 Hnw1) as (w' & h' & Hr' & Hnw' & Hf').
    { intros o' e Ho' He. rewrite Hf in He.
      apply list_elem_of_filter in He as [_ He].
      apply Hnt; [now right|assumption]. }
    exists w', h'. cbn [remove_all]. rewrite Hr. cbn [bind fst snd].
    split; [exact Hr'|]. split; [assumption|].
    rewrite Hf', Hf, list_filter_filter. apply list_filter_iff.
    intros e. rewrite fmap_cons, not_elem_of_cons. tauto.
Qed.

(** *** Retargeting *)

Lemma moved_refl c l : Forall2 (moved c) l l.
Proof.
  apply Forall_Forall2_diag, Forall_forall. intros e _.
  split; [reflexivity|now right].
Qed.

Lemma moved_trans c l1 l2 l3 :
  Forall2 (moved c) l1 l2 -> Forall2 (moved c) l2 l3 ->
  Forall2 (moved c) l1 l3.
Proof.
  intros H. revert l3. induction H as [|x y l k [H1 H2] _ IH];
    intros l3 H3; inversion H3 as [|? z ? k3 [H4 H5] H6]; subst;
    constructor; [|auto].
  split; [congruence|]. destruct H5 as [H5|H5]; [now left|].
  rewrite H5. exact H2.
Qed.

Lemma moved_alter c (f : Entry -> Entry) k l :
  (forall e, moved c e (f e)) -> Forall2 (moved c) l (alter f k l).
Proof.
  intros Hf. revert k. induction l as [|x l IH]; intros [|k]; cbn;
    constructor; auto using moved_refl.
  split; [reflexivity|now right].
Qed.

Lemma moved_alter_first c o (f : Entry -> Entry) l :
  (forall e, moved c e (f e)) -> Forall2 (moved c) l (alter_first o f l).
Proof.
  intros Hf. unfold alter_first.
  destruct (find_entry l o) as [[k ?]|];
    [now apply moved_alter|apply moved_refl].
Qed.

Lemma moved_retarget_entry c nt e :
  nt <> c -> moved c e (retarget_entry nt e).
Proof. intros Hnt. split; [reflexivity|]. left. cbn. congruence. Qed.

Lemma moved_chars c l l' :
  Forall2 (moved c) l l' -> Forall (fun e => is_Some (char e)) l ->
  Forall (fun e => is_Some (char e)) l'.
Proof.
  induction 1 as [|x y l k [Hc _] _ IH]; intros HF; [constructor|].
  inversion HF; subst. constructor; [now rewrite Hc|auto].
Qed.

Lemma moved_untargeted c l l' k :
  Forall2 (moved c) l l' ->
  (forall idx e, (idx < k)%nat -> l !! idx = Some e ->
                 target_dbref e <> Some c) ->
  forall idx e, (idx < k)%nat -> l' !! idx = Some e ->
                target_dbref e <> Some c.
Proof.
  intros HF Hl idx e' Hidx He'.
  destruct (Forall2_lookup_r _ _ _ _ _ HF He') as (e & He & _ & [Ht|Ht]);
    [assumption|].
  rewrite Ht. eauto.
Qed.

(** The candidates for a new target are never the leaving
    character. *)
Lemma retarget_candidates_not_leaving w c other_char l :
  forall cands,
    retarget_candidates w c other_char l = Ok cands ->
    Forall (fun p => p <> c) (fst cands)
    /\ Forall (fun p => p <> c) (snd cands).
Proof.
  induction l as [|e l IH]; intros cands H; cbn [retarget_candidates] in H.
  - injection H as <-. split; constructor.
  - destruct (bool_decide (char e = Some other_char)
              || bool_decide (char e = Some c)) eqn:Hskip; [auto|].
    apply orb_false_iff in Hskip as [_ Hpc].
    apply bool_decide_eq_false in Hpc.
    destruct (char e) as [p|]; [|discriminate].
    destruct (dead_or_unconscious w p); [auto|].
    destruct (bool_decide _); [|auto].
    destruct (is_in_proximity w other_char p) as [near|]; [|discriminate].
    cbn [bind] in H.
    destruct (retarget_candidates w c other_char l) as [r|];
      [|discriminate].
    cbn [bind] in H. injection H as <-. cbn [fst snd].
    destruct (IH r eq_refl) as [H1 H2].
    assert (p <> c) by congruence.
    split; [destruct near|]; auto.
Qed.

(** One step of the retargeting loop, when it returns: every entry
    keeps its character, no entry starts targeting the leaving
    character, and the entry at hand stops targeting it. *)
Lemma retarget_step_inv w saved c r k r' :
  retarget_step w saved c (Ok r) k = Ok r' ->
  (forall idx e, (idx < k)%nat -> working r !! idx = Some e ->
                 target_dbref e <> Some c) ->
  Forall2 (moved c) (working r) (working r')
  /\ (forall idx e, (idx < S k)%nat -> working r' !! idx = Some e ->
                    target_dbref e <> Some c).
Proof.
  intros Hstep Hlow. unfold retarget_step in Hstep. cbn [bind] in Hstep.
  destruct (working r !! k) as [other_entry|] eqn:Hk.
  2:{ injection Hstep as <-. split; [apply moved_refl|].
      intros idx e Hidx He.
      destruct (decide (idx = k)) as [->|]; [congruence|].
      apply (Hlow idx e); [lia|assumption]. }
  case_bool_decide as Ht.
  2:{ injection Hstep as <-. split; [apply moved_refl|].
      intros idx e Hidx He.
      destruct (decide (idx = k)) as [->|].
      - unfold get_character_dbref in Ht. congruence.
      - apply (Hlow idx e); [lia|assumption]. }
  set (f1 := alter (fun e => set_target_dbref e None) k) in *.
  set (r1 := on_working saved f1 r) in *.
  assert (HW1 : working r1 = f1 (working r)) by reflexivity.
  assert (HM1 : Forall2 (moved c) (working r) (working r1)).
  { rewrite HW1. apply moved_alter. intros e. split; [reflexivity|].
    left. discriminate. }
  assert (Hlow1 : forall idx e, (idx < S k)%nat ->
             working r1 !! idx = Some e -> target_dbref e <> Some c).
  { intros idx e Hidx He. rewrite HW1 in He. subst f1.
    destruct (decide (idx = k)) as [->|Hne].
    - rewrite list_lookup_alter_eq, Hk in He. injection He as <-.
      discriminate.
    - rewrite list_lookup_alter_ne in He by auto.
      apply (Hlow idx e); [lia|assumption]. }
  destruct (char other_entry) as [other_char|]; [|discriminate].
  destruct (retarget_candidates w c other_char (working r1))
    as [[pa ra]|] eqn:Hcands; [|discriminate].
  destruct (retarget_candidates_not_leaving _ _ _ _ _ Hcands)
    as [Hpa Hra].
  cbn [bind fst snd] in *.
  set (new_target :=
         if match get_wielded_weapon w other_char with
            | Some weapon => is_ranged weapon
            | None => false
            end
         then head ra
         else match pa with p :: _ => Some p | [] => head ra end) in *.
  assert (Hnt : forall nt, new_target = Some nt -> nt <> c).
  { intros nt. subst new_target.
    assert (Hh : head ra = Some nt -> nt <> c).
    { destruct ra as [|x ra']; [discriminate|]. intros [= <-].
      now inversion Hra. }
    destruct (match get_wielded_weapon w other_char with
              | Some weapon => is_ranged weapon | None => false end);
      [exact Hh|].
    destruct pa as [|p pa']; [exact Hh|]. intros [= <-].
    now inversion Hpa. }
  destruct new_target as [nt|] eqn:Hnew.
  2:{ injection Hstep as <-. split; assumption. }
  specialize (Hnt nt eq_refl). injection Hstep as <-.
  assert (HM : Forall2 (moved c) (working r1)
                 (alter_first other_char (retarget_entry nt)
                    (working r1))).
  { apply moved_alter_first. intros e. now apply moved_retarget_entry. }
  cbn [working on_db on_working]. split.
  - eapply moved_trans; eassumption.
  - eapply moved_untargeted; eassumption.
Qed.

Lemma retarget_fold_inv w saved c len :
  forall start r r',
    fold_left (retarget_step w saved c) (seq start len) (Ok r) = Ok r' ->
    (forall idx e, (idx < start)%nat -> working r !! idx = Some e ->
                   target_dbref e <> Some c) ->
    Forall2 (moved c) (working r) (working r')
    /\ (forall idx e, (idx < start + len)%nat ->
                      working r' !! idx = Some e ->
                      target_dbref e <> Some c).
Proof.
  induction len as [|len IH]; intros start r r' Hf Hlow.
  - injection Hf as <-. split; [apply moved_refl|].
    intros idx e Hidx. apply Hlow. lia.
  - cbn [seq fold_left] in Hf.
    destruct (retarget_step w saved c (Ok r) start) as [r1|x] eqn:Hs.
    2:{ rewrite retarget_fold_raise in Hf. discriminate. }
    destruct (retarget_step_inv _ _ _ _ _ _ Hs Hlow) as [HM1 Hlow1].
    destruct (IH (S start) r1 r' Hf Hlow1) as [HM Hlow'].
    split.
    + eapply moved_trans; eassumption.
    + intros idx e Hidx. apply Hlow'. lia.
Qed.

(** After the loop nobody targets the leaving character. *)
Lemma retarget_fold_untargeted w saved c r r' :
  fold_left (retarget_step w saved c) (seq 0 (length (working r))) (Ok r)
  = Ok r' ->
  Forall2 (moved c) (working r) (working r')
  /\ forall e, e ∈ working r' -> target_dbref e <> Some c.
Proof.
  intros Hf.
  destruct (retarget_fold_inv _ _ _ _ _ _ _ Hf) as [HM Hlow].
  { intros idx e Hidx. lia. }
  split; [exact HM|]. intros e He.
  apply list_elem_of_lookup in He as [idx Hidx].
  apply (Hlow idx e); [|exact Hidx].
  apply lookup_lt_Some in Hidx.
  rewrite <- (Forall2_length _ _ _ HM) in Hidx. lia.
Qed.

(** *** What the character is left with *)

Lemma world_lookup_alter (f : CharState -> CharState) (w : World) c :
  alter f c w !! c = f <$> w !! c.
Proof. apply lookup_alter_eq. Qed.

Lemma world_lookup_alter_ne (f : CharState -> CharState) (w : World) c d :
  c <> d -> alter f c w !! d = w !! d.
Proof. apply lookup_alter_ne. Qed.







(** *** Orphans during a round *)

(** C5. With the working list of a round in place, the orphan
    detection on a roster with two orphans (characters 3 and 4, one
    yielding and one not) reports both as removed, but the roster it
    leaves stored still holds character 3: the removal of character 4
    stores the working list without character 4, and the working list
    was never told that character 3 had left. *)
Theorem orphan_written_back_during_round :
  exists w' h',
    detect_and_remove_orphaned_combatants example_world_four
      (example_handler_round example_roster_two_orphans
         example_roster_two_orphans)
    = Ok (w', h', [3; 4])
    /\ combatants h'
       = [example_entry 1 (Some 2) None None false;
          example_entry 2 (Some 1) None None false;
          example_entry 3 None None None true]
    /\ in_roster (combatants h') 3.
Proof.
  eexists _, _. split; [vm_compute; reflexivity|].
  split; [reflexivity|].
  exists 2%nat, (example_entry 3 None None None true).
  split; reflexivity.
Qed.

End CombatFacts.

(** ** world/combat: the grapple cross-references *)

Module SymmetryFacts.

Import Combat Combat.Grappling CombatFacts.

Set Warnings "-clear-no-such-hyp".

(** *** Rosters with one entry per character *)

Lemma roster_unique l A B :
  NoDup (char <$> l) -> A ∈ l -> B ∈ l -> char A = char B -> A = B.
Proof.
  intros Hnd HA HB Hc.
  apply list_elem_of_lookup in HA as [i Hi].
  apply list_elem_of_lookup in HB as [j Hj].
  assert (i = j) as ->.
  { apply (NoDup_lookup (char <$> l) i j (char A) Hnd);
      rewrite list_lookup_fmap; [rewrite Hi|rewrite Hj, Hc]; reflexivity. }
  congruence.
Qed.

Lemma roster_resolvable w l e :
  roster_ok w l -> e ∈ l ->
  exists c, char e = Some c /\ c <> 0 /\ search_object w c = [c].
Proof.
  intros [_ Hall] He. rewrite forallb_forall in Hall.
  apply list_elem_of_In in He. specialize (Hall e He).
  unfold entry_resolvable in Hall. destruct (char e) as [c|]; [|discriminate].
  apply andb_true_iff in Hall as [Hz Hs].
  exists c. split; [reflexivity|]. split.
  - intros ->. discriminate.
  - now apply bool_decide_eq_true in Hs.
Qed.

Lemma search_object_head w d x :
  head (search_object w d) = Some x -> x = d.
Proof.
  unfold search_object. destruct (w !! d) as [st|]; [|discriminate].
  destruct (in_db st); simpl; congruence.
Qed.

Lemma get_character_by_dbref_Some w d x :
  Combat.get_character_by_dbref w d = Some x -> d = Some x.
Proof.
  unfold Combat.get_character_by_dbref. destruct d as [d|]; [|discriminate].
  intros H. apply search_object_head in H. congruence.
Qed.

Lemma grappling_get_character_by_dbref_Some w d x :
  Grappling.get_character_by_dbref w d = Some x -> d = Some x.
Proof.
  unfold Grappling.get_character_by_dbref.
  destruct d as [d|]; [|discriminate].
  destruct (truthy_int (Some d)); [|discriminate].
  intros H. apply search_object_head in H. rewrite H. reflexivity.
Qed.

Lemma grappling_get_character_by_dbref_roster w l e c :
  roster_ok w l -> e ∈ l -> char e = Some c ->
  Grappling.get_character_by_dbref w (Some c) = Some c
  /\ truthy_int (Some c) = true.
Proof.
  intros Hok He Hc.
  destruct (roster_resolvable w l e Hok He) as (c' & Hc' & Hz & Hs).
  assert (c' = c) as -> by congruence.
  assert (Ht : truthy_int (Some c) = true).
  { unfold truthy_int. destruct (Z.eqb_spec c 0); [contradiction|reflexivity]. }
  unfold Grappling.get_character_by_dbref. rewrite Ht. simpl.
  rewrite Hs. split; reflexivity.
Qed.

(** *** Symmetry over the entries *)

Lemma symmetric_elem l :
  grapple_symmetric l <->
  forall A B a b, A ∈ l -> B ∈ l -> char A = Some a -> char B = Some b ->
    (grappling_dbref A = Some b <-> grappled_by_dbref B = Some a).
Proof.
  unfold grapple_symmetric. split.
  - intros H A B a b HA HB.
    apply list_elem_of_lookup in HA as [i Hi].
    apply list_elem_of_lookup in HB as [j Hj]. eauto.
  - intros H i j A B a b Hi Hj.
    apply H; eapply list_elem_of_lookup_2; eauto.
Qed.

Lemma grapple_symmetricb_spec l :
  grapple_symmetricb l = true <-> grapple_symmetric l.
Proof.
  rewrite symmetric_elem. unfold grapple_symmetricb.
  rewrite forallb_forall. split.
  - intros H A B a b HA HB Ha Hb.
    apply list_elem_of_In in HA, HB. specialize (H A HA).
    rewrite forallb_forall in H. specialize (H B HB).
    rewrite Ha, Hb in H. apply eqb_prop in H.
    split; intros Hx; apply (proj1 (bool_decide_eq_true _));
      [rewrite <- H|rewrite H]; apply (proj2 (bool_decide_eq_true _));
      exact Hx.
  - intros H A HA. rewrite forallb_forall. intros B HB.
    apply list_elem_of_In in HA, HB.
    destruct (char A) as [a|] eqn:Ha; [|reflexivity].
    destruct (char B) as [b|] eqn:Hb; [|reflexivity].
    specialize (H A B a b HA HB Ha Hb).
    apply eqb_true_iff, eq_true_iff_eq.
    rewrite 2!bool_decide_eq_true. exact H.
Qed.

(** The rosters of the example session. *)
Lemma example_roster_ok : roster_ok example_world example_roster.
Proof.
  split; [apply (bool_decide_unpack _)|]; vm_compute; [exact I|reflexivity].
Defined.

Lemma example_roster_grappled_ok :
  roster_ok example_world example_roster_grappled.
Proof.
  split; [apply (bool_decide_unpack _)|]; vm_compute; [exact I|reflexivity].
Defined.

Lemma example_roster_contest_ok :
  roster_ok example_world example_roster_contest.
Proof.
  split; [apply (bool_decide_unpack _)|]; vm_compute; [exact I|reflexivity].
Defined.

Lemma example_roster_holding_ok :
  roster_ok example_world example_roster_holding.
Proof.
  split; [apply (bool_decide_unpack _)|]; vm_compute; [exact I|reflexivity].
Defined.

(** An operation that rewrites every entry on its own, keeping its
    character, keeps the roster symmetric when it treats the two
    references of any two entries alike. *)
Lemma symmetric_map (g : Entry -> Entry) l :
  (forall e, char (g e) = char e) ->
  (forall A B a b, A ∈ l -> B ∈ l -> char A = Some a -> char B = Some b ->
     (grappling_dbref (g A) = Some b <-> grappled_by_dbref (g B) = Some a)) ->
  grapple_symmetric (map g l).
Proof.
  intros Hc H. apply symmetric_elem. intros A' B' a b HA HB Ha Hb.
  apply list_elem_of_fmap in HA as (A & -> & HA).
  apply list_elem_of_fmap in HB as (B & -> & HB).
  rewrite Hc in Ha, Hb. auto.
Qed.

(** Under one entry per character, an update by position is an update
    by character. *)
Lemma alter_as_map (f : Entry -> Entry) l i E c :
  NoDup (char <$> l) -> l !! i = Some E -> char E = Some c ->
  alter f i l = map (on_char c f) l.
Proof.
  intros Hnd Hi Hc. apply list_eq. intros k.
  change (map ?g l) with (g <$> l). rewrite list_lookup_fmap.
  unfold on_char.
  destruct (decide (i = k)) as [<-|Hne].
  - rewrite list_lookup_alter_eq, Hi. simpl.
    now rewrite bool_decide_true.
  - rewrite list_lookup_alter_ne by assumption.
    destruct (l !! k) as [e|] eqn:Hk; [|reflexivity]. simpl.
    rewrite bool_decide_false; [reflexivity|]. intros He. apply Hne.
    apply (NoDup_lookup (char <$> l) i k (Some c) Hnd);
      rewrite list_lookup_fmap; [rewrite Hi|rewrite Hk]; simpl; congruence.
Qed.

Lemma map_keeps_chars (g : Entry -> Entry) l :
  (forall e, char (g e) = char e) -> char <$> map g l = char <$> l.
Proof.
  intros H. change (map g l) with (g <$> l).
  rewrite <- list_fmap_compose. apply list_fmap_ext. intros _ e _. apply H.
Qed.

Lemma alter_map_as_map (f g : Entry -> Entry) l j T c :
  NoDup (char <$> l) -> (forall e, char (g e) = char e) ->
  l !! j = Some T -> char T = Some c ->
  alter f j (map g l) = map (fun e => on_char c f (g e)) l.
Proof.
  intros Hnd Hg Hj Hc.
  rewrite (alter_as_map f (map g l) j (g T) c).
  - apply map_map.
  - now rewrite map_keeps_chars.
  - change (map g l) with (g <$> l). now rewrite list_lookup_fmap, Hj.
  - now rewrite Hg.
Qed.

Lemma on_char_keeps_char c f e :
  (forall e, char (f e) = char e) -> char (on_char c f e) = char e.
Proof. intros H. unfold on_char. destruct (bool_decide _); auto. Qed.

(** Entries of one character are one entry. *)
Ltac same_entries Hnd :=
  repeat match goal with
    | HA : ?A ∈ ?l, HE : ?E ∈ ?l, H1 : char ?A = Some ?c,
      H2 : char ?E = Some ?c |- _ =>
        tryif constr_eq A E then fail
        else (assert (A = E)
               by (apply (roster_unique l A E Hnd HA HE); congruence);
              subst A)
    end.

(** The symmetry facts of all the entries at hand. *)
Ltac symmetry_facts Hsym :=
  repeat match goal with
    | HA : ?A ∈ ?l, HB : ?B ∈ ?l, Ha : char ?A = Some ?a,
      Hb : char ?B = Some ?b |- _ =>
        lazymatch goal with
        | _ : grappling_dbref A = Some b <-> grappled_by_dbref B = Some a
          |- _ => fail
        | _ => pose proof (Hsym A B a b HA HB Ha Hb)
        end
    end.

Lemma in_roster_elem l e c : e ∈ l -> char e = Some c -> in_roster l c.
Proof.
  intros He Hc. apply list_elem_of_lookup in He as [k Hk]. now exists k, e.
Qed.

(** What "grapples nobody" and "grappled by nobody" say of the
    entries at hand. *)
Ltac free_facts :=
  repeat match goal with
    | Hfree : grapples_nobody ?l ?E, HB : ?B ∈ ?l,
      Hb : char ?B = Some ?b |- _ =>
        lazymatch goal with
        | _ : grappling_dbref E <> Some b |- _ => fail
        | _ => pose proof (Hfree b (in_roster_elem l B b HB Hb))
        end
    | Hfree : grappled_by_nobody ?l ?E, HB : ?B ∈ ?l,
      Hb : char ?B = Some ?b |- _ =>
        lazymatch goal with
        | _ : grappled_by_dbref E <> Some b |- _ => fail
        | _ => pose proof (Hfree b (in_roster_elem l B b HB Hb))
        end
    end.

(** The references that symmetry derives from the ones at hand. *)
Ltac chase Hs :=
  repeat match goal with
    | H : grappling_dbref ?A = Some ?b, HA : ?A ∈ ?l,
      Ha : char ?A = Some ?a, HB : ?B ∈ ?l, Hb : char ?B = Some ?b |- _ =>
        lazymatch goal with
        | _ : grappled_by_dbref B = Some a |- _ => fail
        | _ => pose proof (proj1 (Hs A B a b HA HB Ha Hb) H)
        end
    | H : grappling_dbref ?A = Some ?a, HA : ?A ∈ ?l,
      Ha : char ?A = Some ?a |- _ =>
        lazymatch goal with
        | _ : grappled_by_dbref A = Some a |- _ => fail
        | _ => pose proof (proj1 (Hs A A a a HA HA Ha Ha) H)
        end
    | H : grappled_by_dbref ?B = Some ?a, HA : ?A ∈ ?l,
      Ha : char ?A = Some ?a, HB : ?B ∈ ?l, Hb : char ?B = Some ?b |- _ =>
        lazymatch goal with
        | _ : grappling_dbref A = Some b |- _ => fail
        | _ => pose proof (proj2 (Hs A B a b HA HB Ha Hb) H)
        end
    | H : grappled_by_dbref ?A = Some ?a, HA : ?A ∈ ?l,
      Ha : char ?A = Some ?a |- _ =>
        lazymatch goal with
        | _ : grappling_dbref A = Some a |- _ => fail
        | _ => pose proof (proj2 (Hs A A a a HA HA Ha Ha) H)
        end
    end.

(** The case analysis on whose entries the two at hand are, and the
    references that follow. *)
Ltac no_duplicates :=
  repeat match goal with
    | H1 : ?P, H2 : ?P |- _ =>
        lazymatch type of P with Prop => clear H2 end
    end.

(** Equal references name equal characters. *)
Ltac same_chars :=
  repeat match goal with
    | H : None = Some _ |- _ => discriminate H
    | H : Some _ = None |- _ => discriminate H
    | H : Some ?x = Some ?y |- _ =>
        tryif constr_eq x y then clear H
        else (assert (x = y) by congruence; clear H;
              first [subst x | subst y])
    | H1 : char ?A = Some ?x, H2 : char ?A = Some ?y |- _ =>
        tryif constr_eq x y then clear H2
        else (assert (x = y) by congruence; first [subst x | subst y])
    end.

Ltac entry_cases Hnd Hs :=
  unfold on_char, is_char; repeat (case_bool_decide; try congruence; simpl);
  same_chars; same_entries Hnd; simpl in *; no_duplicates;
  split; intros ?; same_chars; same_entries Hnd; simpl in *;
  no_duplicates; chase Hs; free_facts; congruence.

(** *** Release *)

(** X1. In a roster with one entry per character, a release action
    keeps the grapple cross-references symmetric, whatever its
    outcome: a successful release clears the releaser's grappling
    reference together with the victim's grappled-by reference. *)
Theorem release_keeps_symmetry w i l l' n :
  NoDup (char <$> l) -> grapple_symmetric l ->
  resolve_release_grapple w i l = Ok (l', n) ->
  grapple_symmetric l'.
Proof.
  intros Hnd Hsym. unfold resolve_release_grapple.
  destruct (l !! i) as [E|] eqn:Hi; [|intros [= <- _]; assumption].
  destruct (char E) as [a|] eqn:Ha; [|discriminate].
  destruct (get_grappling_obj w E) as [v|] eqn:Hv;
    [|intros [= <- _]; assumption].
  destruct (find_entry l v) as [[j T]|] eqn:Hf;
    [|intros [= <- _]; assumption].
  intros [= <- _].
  destruct (find_entry_Some _ _ _ _ Hf) as [Hj Hcv].
  apply get_character_by_dbref_Some in Hv.
  rewrite (alter_as_map _ l i E a Hnd Hi Ha).
  rewrite (alter_map_as_map _ _ l j T v Hnd); try assumption.
  2:{ intros e. now apply on_char_keeps_char. }
  assert (HE : E ∈ l) by (eapply list_elem_of_lookup_2; eauto).
  assert (HT : T ∈ l) by (eapply list_elem_of_lookup_2; eauto).
  pose proof (proj1 (symmetric_elem l) Hsym) as Hs.
  apply symmetric_map.
  { intros e. rewrite !on_char_keeps_char; auto. }
  intros A B a' b' HA HB Ha' Hb'.
  entry_cases Hnd Hs.
Qed.

Lemma release_keeps_symmetry_witness :
  grapple_symmetric
    [example_entry 1 (Some 2) None None true;
     example_entry 2 (Some 1) None None false].
Proof.
  apply (release_keeps_symmetry example_world 0 example_roster_grappled
           _ GrappleRelease).
  - exact (proj1 example_roster_grappled_ok).
  - apply grapple_symmetricb_spec. vm_compute. reflexivity.
  - vm_compute. reflexivity.
Defined.

(** *** Updates that leave the references alone *)

Lemma alter_keeps_symmetry (f : Entry -> Entry) i l :
  (forall e, char (f e) = char e
             /\ grappling_dbref (f e) = grappling_dbref e
             /\ grappled_by_dbref (f e) = grappled_by_dbref e) ->
  grapple_symmetric l -> grapple_symmetric (alter f i l).
Proof.
  intros Hf Hsym i1 i2 A' B' a b HA HB Ha Hb.
  assert (Hlk : forall k X', alter f i l !! k = Some X' ->
            exists X, l !! k = Some X /\ char X' = char X
                      /\ grappling_dbref X' = grappling_dbref X
                      /\ grappled_by_dbref X' = grappled_by_dbref X).
  { intros k X' Hk. destruct (decide (i = k)) as [<-|Hne].
    - rewrite list_lookup_alter_eq in Hk.
      destruct (l !! i) as [X|]; [|discriminate]. injection Hk as <-.
      exists X. split; [reflexivity|]. apply Hf.
    - rewrite list_lookup_alter_ne in Hk by assumption. eauto. }
  destruct (Hlk _ _ HA) as (A & HA0 & -> & -> & _) in Ha |- *.
  destruct (Hlk _ _ HB) as (B & HB0 & -> & _ & ->) in Hb |- *.
  eauto.
Qed.

(** *** Initiate *)

(** X2. In a roster with one entry per character, a grapple-initiate
    action keeps the cross-references symmetric, whatever the rolls,
    when the attacker's entry refers to no character of the roster as
    grappling and the target's entry refers to none as grappled-by. *)
Theorem initiate_keeps_symmetry w i l E attacker_roll defender_roll w' l' n :
  NoDup (char <$> l) -> grapple_symmetric l ->
  l !! i = Some E ->
  grapples_nobody l E ->
  (forall t T, get_target_obj w E = Some t -> T ∈ l -> char T = Some t ->
               grappled_by_nobody l T) ->
  resolve_grapple_initiate w i l attacker_roll defender_roll
  = Ok (w', l', n) ->
  grapple_symmetric l'.
Proof.
  intros Hnd Hsym Hi Hfree Htfree. unfold resolve_grapple_initiate.
  rewrite Hi.
  destruct (char E) as [a|] eqn:Ha; [|discriminate].
  destruct (get_target_obj w E) as [t|] eqn:Ht;
    [|intros [= _ <- _]; assumption].
  destruct (find_entry l t) as [[j T]|] eqn:Hf;
    [|intros [= _ <- _]; assumption].
  destruct (find_entry_Some _ _ _ _ Hf) as [Hj Hct].
  assert (HE : E ∈ l) by (eapply list_elem_of_lookup_2; eauto).
  assert (HT : T ∈ l) by (eapply list_elem_of_lookup_2; eauto).
  specialize (Htfree t T eq_refl HT Hct).
  destruct (is_in_proximity _ _ _) as [near|]; [cbn [bind]|discriminate].
  destruct (negb near); [intros [= _ <- _]; assumption|].
  destruct (defender_roll <? attacker_roll).
  - intros [= _ <- _]. unfold get_character_dbref.
    rewrite (alter_as_map _ l i E a Hnd Hi Ha).
    rewrite (alter_map_as_map _ _ l j T t Hnd); try assumption.
    2:{ intros e. now apply on_char_keeps_char. }
    rewrite (alter_map_as_map _ _ l j T t Hnd); try assumption.
    2:{ intros e. rewrite !on_char_keeps_char; auto. }
    rewrite (alter_map_as_map _ _ l i E a Hnd); try assumption.
    2:{ intros e. rewrite !on_char_keeps_char; auto. }
    pose proof (proj1 (symmetric_elem l) Hsym) as Hs.
    apply symmetric_map.
    { intros e. rewrite !on_char_keeps_char; auto. }
    intros A B a' b' HA HB Ha' Hb'.
    entry_cases Hnd Hs.
  - destruct (initiated_combat_this_action E); intros [= _ <- _];
      [|assumption].
    apply alter_keeps_symmetry; [auto|].
    apply alter_keeps_symmetry; [auto|assumption].
Qed.

Lemma initiate_keeps_symmetry_witness :
  grapple_symmetric example_roster_grappled.
Proof.
  apply (initiate_keeps_symmetry example_world 0 example_roster
           (example_entry 1 (Some 2) None None false) 9 1
           example_world example_roster_grappled GrappleSuccess).
  - exact (proj1 example_roster_ok).
  - apply grapple_symmetricb_spec. vm_compute. reflexivity.
  - reflexivity.
  - intros c _. discriminate.
  - intros t T _ HT _ c _. apply list_elem_of_In in HT. simpl in HT.
    destruct HT as [<-|[<-|[]]]; discriminate.
  - vm_compute. reflexivity.
Defined.

(** *** Join *)

(** X3. In a roster with one entry per character, a join (takeover)
    action keeps the cross-references symmetric, whatever the rolls,
    when the challenger's entry refers to no character of the roster
    as grappling: on a win the old grappler's reference is cleared and
    the victim's grappled-by reference moves to the challenger. *)
Theorem join_keeps_symmetry w i l E new_roll current_roll w' l' n :
  NoDup (char <$> l) -> grapple_symmetric l ->
  l !! i = Some E ->
  grapples_nobody l E ->
  resolve_grapple_join w i l new_roll current_roll = Ok (w', l', n) ->
  grapple_symmetric l'.
Proof.
  intros Hnd Hsym Hi Hfree. unfold resolve_grapple_join.
  rewrite Hi.
  destruct (char E) as [c|] eqn:Hc; [|discriminate].
  destruct (get_target_obj w E) as [t|] eqn:Ht;
    [|intros [= _ <- _]; assumption].
  destruct (find_entry l t) as [[j T]|] eqn:Hf;
    [|intros [= _ <- _]; assumption].
  destruct (find_entry_Some _ _ _ _ Hf) as [Hj Hct].
  destruct (negb (truthy_int _)); [intros [= _ <- _]; assumption|].
  destruct (get_grappled_by_obj w T) as [cg|] eqn:Hcg;
    [|intros [= _ <- _]; assumption].
  apply get_character_by_dbref_Some in Hcg.
  destruct (find_entry l cg) as [[k G]|] eqn:Hfg;
    [|intros [= _ <- _]; assumption].
  destruct (find_entry_Some _ _ _ _ Hfg) as [Hk Hcgc].
  assert (HE : E ∈ l) by (eapply list_elem_of_lookup_2; eauto).
  assert (HT : T ∈ l) by (eapply list_elem_of_lookup_2; eauto).
  assert (HG : G ∈ l) by (eapply list_elem_of_lookup_2; eauto).
  destruct (is_in_proximity _ _ _) as [near|]; [cbn [bind]|discriminate].
  destruct (negb near); [intros [= _ <- _]; assumption|].
  destruct (current_roll <? new_roll).
  - intros [= _ <- _]. unfold get_character_dbref.
    rewrite (alter_as_map _ l i E c Hnd Hi Hc).
    rewrite (alter_map_as_map _ _ l i E c Hnd); try assumption.
    2:{ intros e. now apply on_char_keeps_char. }
    rewrite (alter_map_as_map _ _ l k G cg Hnd); try assumption.
    2:{ intros e. rewrite !on_char_keeps_char; auto. }
    rewrite (alter_map_as_map _ _ l j T t Hnd); try assumption.
    2:{ intros e. rewrite !on_char_keeps_char; auto. }
    pose proof (proj1 (symmetric_elem l) Hsym) as Hs.
    apply symmetric_map.
    { intros e. rewrite !on_char_keeps_char; auto. }
    intros A B a' b' HA HB Ha' Hb'.
    entry_cases Hnd Hs.
  - destruct (initiated_combat_this_action E); intros [= _ <- _];
      [|assumption].
    apply alter_keeps_symmetry; [auto|assumption].
Qed.

Lemma join_keeps_symmetry_witness :
  grapple_symmetric
    [example_entry 1 (Some 2) None None true;
     example_entry 2 (Some 1) None (Some 3) false;
     example_entry 3 (Some 2) (Some 2) None true].
Proof.
  apply (join_keeps_symmetry example_world 2 example_roster_contest
           (example_entry 3 (Some 2) None None false) 5 1
           example_world _ GrappleTakeover).
  - exact (proj1 example_roster_contest_ok).
  - apply grapple_symmetricb_spec. vm_compute. reflexivity.
  - reflexivity.
  - intros c _. discriminate.
  - vm_compute. reflexivity.
Defined.

(** *** Establish *)

Lemma last_match_Some p l e :
  last_match p l = Some e -> e ∈ l /\ p e = true.
Proof.
  unfold last_match.
  assert (H : forall acc,
             fold_left (fun acc e => if p e then Some e else acc) l acc
             = Some e ->
             (e ∈ l /\ p e = true) \/ acc = Some e).
  { induction l as [|x l IH]; intros acc; simpl; [auto|].
    intros Hf. destruct (IH _ Hf) as [[Hin Hp]|Hacc].
    - left. split; [now right|assumption].
    - destruct (p x) eqn:Hpx; [|auto].
      injection Hacc as ->. left. split; [left|assumption]. }
  intros Hf. destruct (H None Hf) as [?|?]; [assumption|discriminate].
Qed.

Lemma guard_false_grapples_nobody w l GE :
  roster_ok w l ->
  truthy_int (grappling_dbref GE)
  && bool_decide (is_Some (get_grappling_target w GE)) = false ->
  grapples_nobody l GE.
Proof.
  intros Hok Hg c (k & e & Hk & Hc) Hgr.
  apply list_elem_of_lookup_2 in Hk.
  destruct (grappling_get_character_by_dbref_roster w l e c Hok Hk Hc)
    as [Hres Htr].
  unfold get_grappling_target in Hg. rewrite Hgr, Htr, Hres in Hg.
  rewrite bool_decide_true in Hg by eauto. discriminate.
Qed.

Lemma guard_false_grappled_by_nobody w l VE :
  roster_ok w l ->
  truthy_int (grappled_by_dbref VE)
  && bool_decide (is_Some (get_grappled_by w VE)) = false ->
  grappled_by_nobody l VE.
Proof.
  intros Hok Hg c (k & e & Hk & Hc) Hgr.
  apply list_elem_of_lookup_2 in Hk.
  destruct (grappling_get_character_by_dbref_roster w l e c Hok Hk Hc)
    as [Hres Htr].
  unfold get_grappled_by in Hg. rewrite Hgr, Htr, Hres in Hg.
  rewrite bool_decide_true in Hg by eauto. discriminate.
Qed.

(** X4. On a roster with one entry per existing character,
    establish_grapple keeps the cross-references symmetric, whether it
    succeeds or refuses: its two guards (grappler already grappling,
    victim already grappled) are enough. *)
Theorem establish_keeps_symmetry w h grappler victim w' h' ok :
  roster_ok w (combatants h) -> grapple_symmetric (combatants h) ->
  establish_grapple w h grappler victim = (w', h', ok) ->
  grapple_symmetric (combatants h').
Proof.
  intros Hok Hsym. pose proof Hok as [Hnd _]. unfold establish_grapple.
  case_bool_decide; [intros [= _ <- _]; assumption|].
  destruct (last_match (is_char grappler) _) as [GE|] eqn:HGE;
    [|intros [= _ <- _]; assumption].
  destruct (last_match _ _) as [VE|] eqn:HVE in |- *;
    [|intros [= _ <- _]; assumption].
  destruct (_ && _) eqn:Hg1 in |- *; [intros [= _ <- _]; assumption|].
  destruct (_ && _) eqn:Hg2 in |- *; [intros [= _ <- _]; assumption|].
  intros [= _ <- _]. cbn [combatants set_combatants].
  apply last_match_Some in HGE as [HGin HGc].
  apply last_match_Some in HVE as [HVin HVc].
  apply andb_true_iff in HVc as [_ HVc].
  unfold is_char in HGc, HVc.
  apply bool_decide_eq_true in HGc. apply bool_decide_eq_true in HVc.
  pose proof (guard_false_grapples_nobody _ _ _ Hok Hg1) as Hgfree.
  pose proof (guard_false_grappled_by_nobody _ _ _ Hok Hg2) as Hvfree.
  pose proof (proj1 (symmetric_elem _) Hsym) as Hs.
  apply symmetric_map.
  { intros e. unfold is_char. repeat case_bool_decide; reflexivity. }
  intros A B a' b' HA HB Ha' Hb'.
  entry_cases Hnd Hs.
Qed.

Lemma establish_keeps_symmetry_witness :
  grapple_symmetric
    [example_entry 1 (Some 2) (Some 2) None true;
     example_entry 2 (Some 1) None (Some 1) true].
Proof.
  apply (establish_keeps_symmetry example_world
           (example_handler example_roster) 1 2
           (establish_proximity example_world 1 2)
           (example_handler
              [example_entry 1 (Some 2) (Some 2) None true;
               example_entry 2 (Some 1) None (Some 1) true]) true).
  - exact example_roster_ok.
  - apply grapple_symmetricb_spec. vm_compute. reflexivity.
  - vm_compute. reflexivity.
Defined.

End SymmetryFacts.

(** ** world/combat: breaking, cleaning and validating grapples *)

Module RepairFacts.

Import Combat Combat.Grappling CombatFacts SymmetryFacts.

Set Warnings "-clear-no-such-hyp".

(** *** Break *)

Lemma truthy_int_nonzero b : b <> 0 -> truthy_int (Some b) = true.
Proof.
  intros Hb. unfold truthy_int. now destruct (Z.eqb_spec b 0).
Qed.

Lemma break_entry_spec grappler victim e :
  let e' := fst (break_entry (Some grappler) (Some victim) e) in
  char e' = char e
  /\ (char e <> Some grappler ->
      grappling_dbref e' = grappling_dbref e)
  /\ (char e = Some grappler ->
      forall b, b <> 0 -> grappling_dbref e' <> Some b)
  /\ (char e <> Some victim ->
      grappled_by_dbref e' = grappled_by_dbref e)
  /\ (char e = Some victim ->
      forall a, a <> 0 -> grappled_by_dbref e' <> Some a).
Proof.
  intros e'. subst e'. unfold break_entry.
  rewrite !bool_decide_true by eauto. cbn [andb].
  destruct (bool_decide (char e = Some grappler)
            && truthy_int (grappling_dbref e)) eqn:H1; cbn;
    destruct (bool_decide (char e = Some victim)
              && truthy_int (grappled_by_dbref e)) eqn:H2; cbn.
  all: repeat match goal with
         | H : _ && _ = true |- _ =>
             apply andb_true_iff in H as [?%bool_decide_eq_true ?]
         | H : _ && _ = false |- _ =>
             apply andb_false_iff in H as [?%bool_decide_eq_false|?]
         end.
  all: repeat split; intros; try congruence; try discriminate.
  all: intros Hx; rewrite Hx in *;
    rewrite truthy_int_nonzero in * by assumption; discriminate.
Qed.

(** X5. On a symmetric roster with one entry per existing character,
    break_grapple called for a grappler and a victim that are linked
    (the grappler's entry refers to the victim, or the victim's entry
    to the grappler) keeps the cross-references symmetric. *)
Theorem break_keeps_symmetry w h grappler victim :
  roster_ok w (combatants h) -> grapple_symmetric (combatants h) ->
  (exists GE, GE ∈ combatants h /\ char GE = Some grappler
              /\ grappling_dbref GE = Some victim)
  \/ (exists VE, VE ∈ combatants h /\ char VE = Some victim
                 /\ grappled_by_dbref VE = Some grappler) ->
  grapple_symmetric
    (combatants (fst (break_grapple h (Some grappler) (Some victim)))).
Proof.
  intros Hok Hsym Hpair. pose proof Hok as [Hnd _].
  pose proof (proj1 (symmetric_elem _) Hsym) as Hs.
  unfold break_grapple. cbn [fst combatants set_combatants].
  rewrite map_map. apply symmetric_map.
  { intros e. apply (break_entry_spec grappler victim e). }
  intros A B a b HA HB Ha Hb.
  destruct (roster_resolvable _ _ _ Hok HA) as (a0 & Ha0 & Hza & _).
  destruct (roster_resolvable _ _ _ Hok HB) as (b0 & Hb0 & Hzb & _).
  assert (a0 = a) as -> by congruence. assert (b0 = b) as -> by congruence.
  destruct (break_entry_spec grappler victim A) as (_ & HA1 & HA2 & _).
  destruct (break_entry_spec grappler victim B) as (_ & _ & _ & HB1 & HB2).
  cbv zeta in *.
  assert (Hlink : forall GE VE, GE ∈ combatants h -> VE ∈ combatants h ->
            char GE = Some grappler -> char VE = Some victim ->
            grappling_dbref GE = Some victim
            /\ grappled_by_dbref VE = Some grappler).
  { intros GE VE HG HV HGc HVc.
    destruct Hpair as [(G0 & HG0 & HG0c & HG0g)|(V0 & HV0 & HV0c & HV0g)].
    - assert (G0 = GE) as ->
        by (apply (roster_unique _ _ _ Hnd HG0 HG); congruence).
      split; [assumption|]. now apply (Hs GE VE grappler victim).
    - assert (V0 = VE) as ->
        by (apply (roster_unique _ _ _ Hnd HV0 HV); congruence).
      split; [|assumption]. now apply (Hs GE VE grappler victim). }
  destruct (decide (a = grappler)) as [->|Hag];
    destruct (decide (b = victim)) as [->|Hbv].
  - split; intros Hx; exfalso;
      [apply (HA2 Ha victim Hzb Hx)|apply (HB2 Hb grappler Hza Hx)].
  - rewrite HB1 by congruence. split; intros Hx; exfalso.
    + apply (HA2 Ha b Hzb Hx).
    + apply (Hs A B grappler b HA HB Ha Hb) in Hx.
      destruct Hpair as [(G0 & HG0 & HG0c & HG0g)|(V0 & HV0 & HV0c & HV0g)].
      * assert (G0 = A) as ->
          by (apply (roster_unique _ _ _ Hnd HG0 HA); congruence).
        congruence.
      * destruct (Hlink A V0 HA HV0 Ha HV0c) as [Hl _]. congruence.
  - rewrite HA1 by congruence. split; intros Hx; exfalso.
    + apply (Hs A B a victim HA HB Ha Hb) in Hx.
      destruct Hpair as [(G0 & HG0 & HG0c & HG0g)|(V0 & HV0 & HV0c & HV0g)].
      * destruct (Hlink G0 B HG0 HB HG0c Hb) as [_ Hl]. congruence.
      * assert (V0 = B) as ->
          by (apply (roster_unique _ _ _ Hnd HV0 HB); congruence).
        congruence.
    + apply (HB2 Hb a Hza Hx).
  - rewrite HA1, HB1 by congruence. now apply Hs.
Qed.

Lemma break_keeps_symmetry_witness :
  grapple_symmetric
    (combatants
       (fst (break_grapple (example_handler example_roster_grappled)
               (Some 1) (Some 2)))).
Proof.
  apply (break_keeps_symmetry example_world
           (example_handler example_roster_grappled) 1 2).
  - exact example_roster_grappled_ok.
  - apply grapple_symmetricb_spec. vm_compute. reflexivity.
  - left. exists (example_entry 1 (Some 2) (Some 2) None true).
    split; [left|split; reflexivity].
Defined.

(** *** Cleanup of invalid references *)

Lemma cleanup_entry_char w e : char (cleanup_entry w e) = char e.
Proof.
  unfold cleanup_entry. destruct (char e) eqn:Hc; [|assumption].
  repeat match goal with
         | |- context [if ?b then _ else _] => destruct b; simpl
         end; assumption.
Qed.

Lemma cleanup_entry_grappling w l e c B b :
  roster_ok w l -> char e = Some c -> B ∈ l -> char B = Some b ->
  grappling_dbref (cleanup_entry w e) = Some b
  <-> grappling_dbref e = Some b
      /\ (w !! b) ≫= location = (w !! c) ≫= location.
Proof.
  intros Hok Hc HB Hb.
  destruct (grappling_get_character_by_dbref_roster w l B b Hok HB Hb)
    as [Hres Htr].
  unfold cleanup_entry. rewrite Hc.
  assert (Hin : forall x, grappling_dbref
             (if truthy_int (grappled_by_dbref x)
                 && invalid_partner w c (get_grappled_by w x)
              then set_grappled_by_dbref x None else x)
             = grappling_dbref x).
  { intros x. destruct (_ && _); reflexivity. }
  rewrite Hin.
  destruct (decide (grappling_dbref e = Some b)) as [Hg|Hg].
  - unfold get_grappling_target. rewrite Hg, Htr, Hres. cbn.
    case_bool_decide; cbn; rewrite ?Hg; split; try tauto;
      try discriminate; intros [_ ?]; contradiction.
  - split; [|tauto]. intros Hx. exfalso. apply Hg.
    destruct (_ && _) in Hx; [discriminate|assumption].
Qed.

Lemma cleanup_entry_grappled_by w l e c A a :
  roster_ok w l -> char e = Some c -> A ∈ l -> char A = Some a ->
  grappled_by_dbref (cleanup_entry w e) = Some a
  <-> grappled_by_dbref e = Some a
      /\ (w !! a) ≫= location = (w !! c) ≫= location.
Proof.
  intros Hok Hc HA Ha.
  destruct (grappling_get_character_by_dbref_roster w l A a Hok HA Ha)
    as [Hres Htr].
  unfold cleanup_entry. rewrite Hc.
  set (e1 := if truthy_int (grappling_dbref e)
                && invalid_partner w c (get_grappling_target w e)
             then set_grappling_dbref e None else e).
  assert (H1 : grappled_by_dbref e1 = grappled_by_dbref e)
    by (subst e1; destruct (_ && _); reflexivity).
  assert (H2 : get_grappled_by w e1 = get_grappled_by w e)
    by (unfold get_grappled_by; now rewrite H1).
  rewrite H2, H1.
  destruct (decide (grappled_by_dbref e = Some a)) as [Hg|Hg].
  - unfold get_grappled_by. rewrite Hg, Htr, Hres. cbn.
    case_bool_decide; cbn; rewrite ?H1, ?Hg; split; try tauto;
      try discriminate; intros [_ ?]; contradiction.
  - split; [|tauto]. intros Hx. exfalso. apply Hg.
    destruct (_ && _) in Hx; [discriminate|]. now rewrite H1 in Hx.
Qed.

(** X6. On a roster with one entry per existing character,
    cleanup_invalid_grapples keeps the cross-references symmetric: a
    reference between two combatants is dropped on both sides or on
    neither, because the same-location test is the same from either
    side. *)
Theorem cleanup_keeps_symmetry w h :
  roster_ok w (combatants h) -> grapple_symmetric (combatants h) ->
  grapple_symmetric (combatants (cleanup_invalid_grapples w h)).
Proof.
  intros Hok Hsym.
  pose proof (proj1 (symmetric_elem _) Hsym) as Hs.
  unfold cleanup_invalid_grapples. cbn [combatants set_combatants].
  apply symmetric_map; [apply cleanup_entry_char|].
  intros A B a b HA HB Ha Hb.
  rewrite (cleanup_entry_grappling w _ A a B b Hok Ha HB Hb).
  rewrite (cleanup_entry_grappled_by w _ B b A a Hok Hb HA Ha).
  rewrite (Hs A B a b HA HB Ha Hb). split; intros [? ?]; split; congruence.
Qed.

Lemma cleanup_keeps_symmetry_witness :
  grapple_symmetric
    (combatants
       (cleanup_invalid_grapples example_world
          (example_handler example_roster_grappled))).
Proof.
  apply (cleanup_keeps_symmetry example_world
           (example_handler example_roster_grappled)).
  - exact example_roster_grappled_ok.
  - apply grapple_symmetricb_spec. vm_compute. reflexivity.
Defined.

(** *** The validation pass *)

Lemma same_links_refl l e : same_links l e e.
Proof. split; [reflexivity|]. intros b _. tauto. Qed.

Lemma same_links_symmetric l l' :
  Forall2 (same_links l) l l' -> grapple_symmetric l ->
  grapple_symmetric l'.
Proof.
  intros HF Hsym i j A' B' a b Hi Hj Ha Hb.
  destruct (Forall2_lookup_r _ _ _ _ _ HF Hi) as (A & HA & HcA & HlA).
  destruct (Forall2_lookup_r _ _ _ _ _ HF Hj) as (B & HB & HcB & HlB).
  rewrite HcA in Ha. rewrite HcB in Hb.
  assert (Hra : in_roster l a) by (now exists i, A).
  assert (Hrb : in_roster l b) by (now exists j, B).
  rewrite (proj1 (HlA b Hrb)), (proj2 (HlB a Hra)). eauto.
Qed.

Lemma same_links_insert l cl i E e' :
  Forall2 (same_links l) l cl -> l !! i = Some E -> same_links l E e' ->
  Forall2 (same_links l) l (<[i := e']> cl).
Proof.
  intros HF Hi He. rewrite <- (list_insert_id l i E Hi) at 2.
  now apply Forall2_insert.
Qed.

Section Validate.

Variable w : World.
Variable l : list Entry.
Hypothesis Hok : roster_ok w l.
Hypothesis Hsym : grapple_symmetric l.
Hypothesis Hself : no_self_grapple l.

Lemma valid_chars_roster c : c ∈ omap char l <-> in_roster l c.
Proof.
  rewrite list_elem_of_omap. unfold in_roster. split.
  - intros (e & He & Hc). apply list_elem_of_lookup in He as [k Hk]. eauto.
  - intros (k & e & Hk & Hc). exists e.
    split; [eapply list_elem_of_lookup_2; eauto|assumption].
Qed.

Lemma in_roster_resolves b :
  in_roster l b -> Grappling.get_character_by_dbref w (Some b) = Some b.
Proof.
  intros (k & e & Hk & Hc). apply list_elem_of_lookup_2 in Hk.
  apply (grappling_get_character_by_dbref_roster w l e b Hok Hk Hc).
Qed.

(** Clearing a reference that does not name a character of the roster
    changes no link. *)
Lemma clear_grappling_same_links E entry d :
  same_links l E entry -> grappling_dbref entry = Some d ->
  ~ in_roster l d ->
  same_links l E (set_grappling_dbref entry None).
Proof.
  intros [Hc Hl] Hd Hout. split; [assumption|]. intros b Hb. cbn.
  destruct (Hl b Hb) as [H1 H2]. split; [|assumption].
  split; [discriminate|]. intros HE. apply H1 in HE.
  exfalso. apply Hout. congruence.
Qed.

Lemma clear_grappled_by_same_links E entry d :
  same_links l E entry -> grappled_by_dbref entry = Some d ->
  ~ in_roster l d ->
  same_links l E (set_grappled_by_dbref entry None).
Proof.
  intros [Hc Hl] Hd Hout. split; [assumption|]. intros b Hb. cbn.
  destruct (Hl b Hb) as [H1 H2]. split; [assumption|].
  split; [discriminate|]. intros HE. apply H2 in HE.
  exfalso. apply Hout. congruence.
Qed.

Lemma validate_grappling_keeps_links i E entry c cl flag :
  l !! i = Some E -> same_links l E entry -> char entry = Some c ->
  Forall2 (same_links l) l cl ->
  Forall2 (same_links l) l
    (fst (validate_grappling w (omap char l) i entry c (cl, flag))).
Proof.
  intros Hi HE Hc HF. unfold validate_grappling.
  destruct (grappling_dbref entry) as [d|] eqn:Hd; [|assumption].
  assert (Hclear : ~ in_roster l d ->
            Forall2 (same_links l) l
              (<[i := set_grappling_dbref entry None]> cl)).
  { intros Hout. apply (same_links_insert l cl i E); try assumption.
    eapply clear_grappling_same_links; eauto. }
  assert (HcE : char E = Some c) by (destruct HE as [HcE _]; congruence).
  assert (Hrc : in_roster l c) by (now exists i, E).
  destruct (Grappling.get_character_by_dbref w (Some d)) as [gt|] eqn:Hres.
  2:{ cbn. apply Hclear. intros Hin.
      rewrite (in_roster_resolves d Hin) in Hres. discriminate. }
  apply grappling_get_character_by_dbref_Some in Hres.
  injection Hres as ->.
  case_bool_decide as Hgc.
  { subst gt. exfalso.
    destruct (Hself i E c Hi HcE) as [Hns _]. apply Hns.
    destruct HE as [_ Hl]. now apply (Hl c Hrc). }
  case_bool_decide as Hv; cbn.
  2:{ apply Hclear. now rewrite <- valid_chars_roster. }
  destruct (find_entry cl gt) as [[ti T]|] eqn:Hf; [|assumption].
  case_bool_decide as Hx; [|assumption]. exfalso. apply Hx.
  destruct (find_entry_Some _ _ _ _ Hf) as [Hti HTc].
  destruct (Forall2_lookup_r _ _ _ _ _ HF Hti) as (T0 & HT0 & HcT & HlT).
  unfold get_character_dbref.
  apply (HlT c Hrc).
  apply (Hsym i ti E T0 c gt Hi HT0 HcE); [congruence|].
  destruct HE as [_ Hl]. apply (Hl gt); [|assumption].
  now apply valid_chars_roster.
Qed.

Lemma validate_grappled_by_keeps_links i E entry c cl flag :
  l !! i = Some E -> same_links l E entry -> char entry = Some c ->
  Forall2 (same_links l) l cl ->
  Forall2 (same_links l) l
    (fst (validate_grappled_by w (omap char l) i entry c (cl, flag))).
Proof.
  intros Hi HE Hc HF. unfold validate_grappled_by.
  destruct (grappled_by_dbref entry) as [d|] eqn:Hd; [|assumption].
  assert (Hclear : ~ in_roster l d ->
            Forall2 (same_links l) l
              (<[i := set_grappled_by_dbref entry None]> cl)).
  { intros Hout. apply (same_links_insert l cl i E); try assumption.
    eapply clear_grappled_by_same_links; eauto. }
  assert (HcE : char E = Some c) by (destruct HE as [HcE _]; congruence).
  assert (Hrc : in_roster l c) by (now exists i, E).
  destruct (Grappling.get_character_by_dbref w (Some d)) as [gr|] eqn:Hres.
  2:{ cbn. apply Hclear. intros Hin.
      rewrite (in_roster_resolves d Hin) in Hres. discriminate. }
  apply grappling_get_character_by_dbref_Some in Hres.
  injection Hres as ->.
  case_bool_decide as Hgc.
  { subst gr. exfalso.
    destruct (Hself i E c Hi HcE) as [_ Hns]. apply Hns.
    destruct HE as [_ Hl]. now apply (Hl c Hrc). }
  case_bool_decide as Hv; cbn.
  2:{ apply Hclear. now rewrite <- valid_chars_roster. }
  destruct (find_entry cl gr) as [[gi G]|] eqn:Hf; [|assumption].
  case_bool_decide as Hx; [|assumption]. exfalso. apply Hx.
  destruct (find_entry_Some _ _ _ _ Hf) as [Hgi HGc].
  destruct (Forall2_lookup_r _ _ _ _ _ HF Hgi) as (G0 & HG0 & HcG & HlG).
  unfold get_character_dbref.
  apply (HlG c Hrc).
  apply (Hsym gi i G0 E gr c HG0 Hi); [congruence|assumption|].
  destruct HE as [_ Hl]. apply (Hl gr); [|assumption].
  now apply valid_chars_roster.
Qed.

Lemma validate_entry_keeps_links st i :
  Forall2 (same_links l) l (fst st) ->
  Forall2 (same_links l) l (fst (validate_entry w (omap char l) st i)).
Proof.
  intros HF. unfold validate_entry.
  destruct (fst st !! i) as [entry|] eqn:Hi; [|assumption].
  destruct (char entry) as [c|] eqn:Hc; [|assumption].
  destruct (Forall2_lookup_r _ _ _ _ _ HF Hi) as (E & HE & HlE).
  destruct st as [cl flag].
  pose proof (validate_grappling_keeps_links i E entry c cl flag
                HE HlE Hc HF) as H1.
  destruct (validate_grappling w (omap char l) i entry c (cl, flag))
    as [cl1 flag1].
  now apply validate_grappled_by_keeps_links with (E := E).
Qed.

Lemma validate_fold_keeps_links ks st :
  Forall2 (same_links l) l (fst st) ->
  Forall2 (same_links l) l
    (fst (fold_left (validate_entry w (omap char l)) ks st)).
Proof.
  revert st. induction ks as [|k ks IH]; intros st HF; [assumption|].
  cbn [fold_left]. apply IH. now apply validate_entry_keeps_links.
Qed.

End Validate.

Lemma validate_keeps_links w h :
  roster_ok w (combatants h) -> grapple_symmetric (combatants h) ->
  no_self_grapple (combatants h) ->
  Forall2 (same_links (combatants h)) (combatants h)
    (combatants (validate_and_cleanup_grapple_state w h)).
Proof.
  intros Hok Hsym Hself. unfold validate_and_cleanup_grapple_state.
  assert (Hrefl : Forall2 (same_links (combatants h)) (combatants h)
                    (combatants h)).
  { apply Forall_Forall2_diag, Forall_forall. intros e _.
    apply same_links_refl. }
  pose proof (validate_fold_keeps_links w (combatants h) Hok Hsym Hself
                (seq 0 (length (combatants h))) (combatants h, false) Hrefl)
    as HF.
  destruct (fold_left _ _ _) as [cl flag]. cbn [fst] in HF.
  destruct flag; [exact HF|exact Hrefl].
Qed.

(** X7. On a symmetric roster with one entry per existing character
    and no entry referring to itself, the validation pass changes no
    reference from one combatant to another (it can only clear
    references to characters outside the roster), so the roster it
    leaves is symmetric again. *)
Theorem validate_keeps_symmetry w h :
  roster_ok w (combatants h) -> grapple_symmetric (combatants h) ->
  no_self_grapple (combatants h) ->
  Forall2 (same_links (combatants h)) (combatants h)
    (combatants (validate_and_cleanup_grapple_state w h))
  /\ grapple_symmetric
       (combatants (validate_and_cleanup_grapple_state w h)).
Proof.
  intros Hok Hsym Hself.
  pose proof (validate_keeps_links w h Hok Hsym Hself) as HF.
  split; [exact HF|].
  eapply same_links_symmetric; [exact HF|exact Hsym].
Qed.

Lemma example_roster_grappled_no_self :
  no_self_grapple example_roster_grappled.
Proof.
  intros [|[|k]] e c Hk Hc; simpl in Hk; try discriminate;
    injection Hk as <-; injection Hc as <-; split; discriminate.
Defined.

Lemma validate_keeps_symmetry_witness :
  Forall2 (same_links example_roster_grappled) example_roster_grappled
    (combatants
       (validate_and_cleanup_grapple_state example_world
          (example_handler example_roster_grappled)))
  /\ grapple_symmetric
       (combatants
          (validate_and_cleanup_grapple_state example_world
             (example_handler example_roster_grappled))).
Proof.
  apply (validate_keeps_symmetry example_world
           (example_handler example_roster_grappled)).
  - exact example_roster_grappled_ok.
  - apply grapple_symmetricb_spec. vm_compute. reflexivity.
  - exact example_roster_grappled_no_self.
Defined.

End RepairFacts.

(** ** world/combat: what the grapple operations establish *)

Module GrappleFacts.

Import Combat Combat.Grappling CombatFacts SymmetryFacts.

Lemma find_entry_map (g : Entry -> Entry) l c :
  (forall e, char (g e) = char e) ->
  find_entry (map g l) c = prod_map id g <$> find_entry l c.
Proof.
  intros Hg. unfold find_entry. change (map g l) with (g <$> l).
  rewrite list_find_fmap. f_equal. apply list_find_ext.
  intros e. simpl. now rewrite Hg.
Qed.

Lemma find_entry_present l e c :
  e ∈ l -> char e = Some c ->
  exists k e0, find_entry l c = Some (k, e0) /\ char e0 = Some c.
Proof.
  intros He Hc.
  destruct (list_find_elem_of (fun e => char e = Some c) l e He Hc)
    as [[k e0] Hf].
  exists k, e0. split; [exact Hf|].
  now destruct (find_entry_Some _ _ _ _ Hf).
Qed.

(** X8. A successful grapple initiate by an attacker whose entry
    already holds another combatant leaves the roster asymmetric: the
    attacker's grappling reference moves to the new target while the
    combatant held before still names the attacker as its grappler.
    Nothing in the resolver prevents it. *)
Theorem initiate_while_holding_breaks_symmetry
    (w : World) (i : nat) (l : list Entry) (E : Entry) (a v : dbref)
    (kv : nat) (V : Entry) (t : dbref) (j : nat) (T : Entry)
    (attacker_roll defender_roll : Z) :
  l !! i = Some E -> char E = Some a ->
  l !! kv = Some V -> char V = Some v ->
  grappling_dbref E = Some v -> grappled_by_dbref V = Some a ->
  a <> v -> t <> v ->
  get_target_obj w E = Some t ->
  find_entry l t = Some (j, T) ->
  is_in_proximity w a t = Ok true ->
  defender_roll < attacker_roll ->
  exists l',
    resolve_grapple_initiate w i l attacker_roll defender_roll
    = Ok (w, l', GrappleSuccess)
    /\ ~ grapple_symmetric l'.
Proof.
  intros Hi Ha Hkv Hv Hg Hgb Hav Htv Ht Hf Hprox Hlt.
  destruct (find_entry_Some _ _ _ _ Hf) as [Hj Hct].
  assert (Hki : kv <> i) by (intros ->; congruence).
  assert (Hkj : kv <> j) by (intros ->; congruence).
  unfold resolve_grapple_initiate.
  rewrite Hi, Ha, Ht, Hf. unfold ensure_proximity. rewrite Hprox.
  cbn [bind negb]. destruct (Z.ltb_spec defender_roll attacker_roll); [|lia].
  eexists. split; [reflexivity|]. intros Hsym.
  unfold get_character_dbref in Hsym.
  set (l' := alter _ i (alter _ j (alter _ j (alter _ i l)))) in Hsym.
  assert (HV' : l' !! kv = Some V).
  { subst l'. now rewrite !list_lookup_alter_ne by auto. }
  assert (HE' : exists E', l' !! i = Some E' /\ char E' = Some a
                           /\ grappling_dbref E' = Some t).
  { subst l'. rewrite list_lookup_alter_eq.
    destruct (decide (j = i)) as [->|Hji].
    - rewrite !list_lookup_alter_eq, Hi. cbn.
      eexists. split; [reflexivity|]. cbn. auto.
    - rewrite !list_lookup_alter_ne by auto.
      rewrite list_lookup_alter_eq, Hi. cbn.
      eexists. split; [reflexivity|]. cbn. auto. }
  destruct HE' as (E' & HE' & HcE' & HgE').
  apply (Hsym i kv E' V a v HE' HV' HcE' Hv) in Hgb. congruence.
Qed.

Lemma initiate_while_holding_breaks_symmetry_witness :
  exists l',
    resolve_grapple_initiate example_world 0 example_roster_holding 9 1
    = Ok (example_world, l', GrappleSuccess)
    /\ ~ grapple_symmetric l'.
Proof.
  apply (initiate_while_holding_breaks_symmetry example_world 0
           example_roster_holding
           (example_entry 1 (Some 2) (Some 3) None true) 1 3
           2 (example_entry 3 (Some 1) None (Some 1) false) 2
           1 (example_entry 2 (Some 1) None None false) 9 1).
  - reflexivity.
  - reflexivity.
  - reflexivity.
  - reflexivity.
  - reflexivity.
  - reflexivity.
  - lia.
  - lia.
  - vm_compute. reflexivity.
  - vm_compute. reflexivity.
  - vm_compute. reflexivity.
  - lia.
Defined.

(** X9. When establish_grapple reports success for two characters
    with non-zero ids, they are distinct, is_grappling holds of the
    grappler and is_grappled of the victim in the new roster, the two
    are put in each other's proximity, and every entry of another
    character is what it was. *)
Theorem establish_grapple_links
    (w : World) (h : Handler) (grappler victim : dbref)
    (w' : World) (h' : Handler) :
  establish_grapple w h grappler victim = (w', h', true) ->
  grappler <> 0 -> victim <> 0 ->
  grappler <> victim
  /\ is_grappling h' grappler = true
  /\ is_grappled h' victim = true
  /\ w' = establish_proximity w grappler victim
  /\ length (combatants h') = length (combatants h)
  /\ (forall k e, combatants h !! k = Some e ->
        char e <> Some grappler -> char e <> Some victim ->
        combatants h' !! k = Some e).
Proof.
  unfold establish_grapple. intros Hest Hg0 Hv0.
  case_bool_decide as Hne; [discriminate|].
  destruct (last_match (is_char grappler) _) as [GE|] eqn:HGE;
    [|discriminate].
  destruct (last_match _ _) as [VE|] eqn:HVE in Hest; [|discriminate].
  destruct (_ && _) in Hest; [discriminate|].
  destruct (_ && _) in Hest; [discriminate|].
  injection Hest as <- <-.
  apply last_match_Some in HGE as [HGin HGc].
  apply last_match_Some in HVE as [HVin HVc].
  apply andb_true_iff in HVc as [_ HVc].
  unfold is_char in HGc, HVc.
  apply bool_decide_eq_true in HGc. apply bool_decide_eq_true in HVc.
  set (g := fun entry : Entry =>
              if is_char grappler entry
              then set_is_yielding
                     (set_grappling_dbref entry (Some victim)) true
              else if is_char victim entry
                   then set_is_yielding
                          (set_grappled_by_dbref entry (Some grappler)) true
                   else entry).
  assert (Hgc : forall e, char (g e) = char e).
  { intros e. subst g. cbn. unfold is_char.
    repeat case_bool_decide; reflexivity. }
  split; [assumption|].
  unfold is_grappling, is_grappled. cbn [combatants set_combatants].
  rewrite !(find_entry_map g) by assumption.
  destruct (find_entry_present _ _ _ HGin HGc) as (kg & eg & -> & Hcg).
  destruct (find_entry_present _ _ _ HVin HVc) as (kv & ev & -> & Hcv).
  change (prod_map id g <$> Some (kg, eg)) with (Some (kg, g eg)).
  change (prod_map id g <$> Some (kv, ev)) with (Some (kv, g ev)).
  assert (H1 : grappling_dbref (g eg) = Some victim).
  { subst g. cbv beta. unfold is_char.
    now rewrite (bool_decide_true (char eg = Some grappler)). }
  assert (H2 : grappled_by_dbref (g ev) = Some grappler).
  { subst g. cbv beta. unfold is_char.
    rewrite (bool_decide_false (char ev = Some grappler)) by congruence.
    now rewrite (bool_decide_true (char ev = Some victim)). }
  cbv beta iota.
  rewrite H1, H2, !RepairFacts.truthy_int_nonzero by assumption.
  repeat split; try reflexivity.
  - apply length_map.
  - intros k e Hk Hcg' Hcv'.
    change (map ?f ?x) with (f <$> x). rewrite list_lookup_fmap, Hk.
    subst g. cbn. unfold is_char.
    now rewrite !bool_decide_false by assumption.
Qed.

Lemma establish_grapple_links_witness :
  1 <> 2
  /\ is_grappling
       (example_handler
          [example_entry 1 (Some 2) (Some 2) None true;
           example_entry 2 (Some 1) None (Some 1) true]) 1 = true
  /\ is_grappled
       (example_handler
          [example_entry 1 (Some 2) (Some 2) None true;
           example_entry 2 (Some 1) None (Some 1) true]) 2 = true
  /\ establish_proximity example_world 1 2
     = establish_proximity example_world 1 2
  /\ length
       (combatants
          (example_handler
             [example_entry 1 (Some 2) (Some 2) None true;
              example_entry 2 (Some 1) None (Some 1) true]))
     = length (combatants (example_handler example_roster))
  /\ (forall k e, combatants (example_handler example_roster) !! k = Some e ->
        char e <> Some 1 -> char e <> Some 2 ->
        combatants
          (example_handler
             [example_entry 1 (Some 2) (Some 2) None true;
              example_entry 2 (Some 1) None (Some 1) true]) !! k = Some e).
Proof.
  apply (establish_grapple_links example_world
           (example_handler example_roster) 1 2).
  - vm_compute. reflexivity.
  - lia.
  - lia.
Defined.

(** X10. Breaking a grapple that establish_grapple has just set up
    between two characters with non-zero ids reports a broken grapple
    and leaves neither is_grappling of the grappler nor is_grappled of
    the victim. *)
Theorem establish_then_break
    (w : World) (h : Handler) (grappler victim : dbref)
    (w' : World) (h' : Handler) :
  establish_grapple w h grappler victim = (w', h', true) ->
  grappler <> 0 -> victim <> 0 ->
  snd (break_grapple h' (Some grappler) (Some victim)) = true
  /\ is_grappling (fst (break_grapple h' (Some grappler) (Some victim)))
       grappler = false
  /\ is_grappled (fst (break_grapple h' (Some grappler) (Some victim)))
       victim = false.
Proof.
  unfold establish_grapple. intros Hest Hg0 Hv0.
  case_bool_decide as Hne; [discriminate|].
  destruct (last_match (is_char grappler) _) as [GE|] eqn:HGE;
    [|discriminate].
  destruct (last_match _ _) as [VE|] eqn:HVE in Hest; [|discriminate].
  destruct (_ && _) in Hest; [discriminate|].
  destruct (_ && _) in Hest; [discriminate|].
  injection Hest as <- <-.
  apply last_match_Some in HGE as [HGin HGc].
  apply last_match_Some in HVE as [HVin HVc].
  apply andb_true_iff in HVc as [_ HVc].
  unfold is_char in HGc, HVc.
  apply bool_decide_eq_true in HGc. apply bool_decide_eq_true in HVc.
  set (g := fun entry : Entry =>
              if is_char grappler entry
              then set_is_yielding
                     (set_grappling_dbref entry (Some victim)) true
              else if is_char victim entry
                   then set_is_yielding
                          (set_grappled_by_dbref entry (Some grappler)) true
                   else entry).
  assert (Hgc : forall e, char (g e) = char e).
  { intros e. subst g. cbn. unfold is_char.
    repeat case_bool_decide; reflexivity. }
  set (b := break_entry (Some grappler) (Some victim)).
  assert (Hbc : forall e, char (fst (b (g e))) = char e).
  { intros e. subst b.
    rewrite (proj1 (RepairFacts.break_entry_spec grappler victim (g e))).
    apply Hgc. }
  assert (Hfalsy : forall o : option Z,
            (forall x, x <> 0 -> o <> Some x) -> truthy_int o = false).
  { intros [x|] Hx; [|reflexivity]. unfold truthy_int.
    destruct (Z.eqb_spec x 0) as [|Hnz]; [reflexivity|].
    now destruct (Hx x Hnz). }
  assert (HbG : forall e, char e = Some grappler ->
                  truthy_int (grappling_dbref (fst (b (g e)))) = false).
  { intros e He. apply Hfalsy. subst b.
    apply (RepairFacts.break_entry_spec grappler victim (g e)).
    now rewrite Hgc. }
  assert (HbV : forall e, char e = Some victim ->
                  truthy_int (grappled_by_dbref (fst (b (g e)))) = false).
  { intros e He. apply Hfalsy. subst b.
    apply (RepairFacts.break_entry_spec grappler victim (g e)).
    now rewrite Hgc. }
  assert (Hsnd : snd (b (g GE)) = true).
  { assert (Hgr : grappling_dbref (g GE) = Some victim).
    { subst g. cbv beta. unfold is_char.
      now rewrite (bool_decide_true (char GE = Some grappler)). }
    subst b. unfold break_entry.
    rewrite (bool_decide_true (is_Some (Some grappler))) by eauto.
    rewrite (bool_decide_true (char (g GE) = Some grappler))
      by (now rewrite Hgc).
    rewrite Hgr, RepairFacts.truthy_int_nonzero by assumption.
    cbn [andb]. cbv beta iota. destruct (_ && _); reflexivity. }
  unfold break_grapple, is_grappling, is_grappled.
  cbn [fst snd combatants set_combatants].
  fold b. rewrite !map_map.
  rewrite !(find_entry_map (fun e => fst (b (g e)))) by assumption.
  destruct (find_entry_present _ _ _ HGin HGc) as (kg & eg & -> & Hcg).
  destruct (find_entry_present _ _ _ HVin HVc) as (kv & ev & -> & Hcv).
  change (prod_map id ?f <$> Some (?k, ?e)) with (Some (k, f e)).
  cbv beta iota. rewrite (HbG eg Hcg), (HbV ev Hcv).
  split; [|split; reflexivity].
  apply existsb_exists. exists (b (g GE)).
  split; [|exact Hsnd].
  apply in_map_iff. exists GE. split; [reflexivity|].
  now apply list_elem_of_In.
Qed.

Lemma establish_then_break_witness :
  snd (break_grapple
         (example_handler
            [example_entry 1 (Some 2) (Some 2) None true;
             example_entry 2 (Some 1) None (Some 1) true])
         (Some 1) (Some 2)) = true
  /\ is_grappling
       (fst (break_grapple
               (example_handler
                  [example_entry 1 (Some 2) (Some 2) None true;
                   example_entry 2 (Some 1) None (Some 1) true])
               (Some 1) (Some 2))) 1 = false
  /\ is_grappled
       (fst (break_grapple
               (example_handler
                  [example_entry 1 (Some 2) (Some 2) None true;
                   example_entry 2 (Some 1) None (Some 1) true])
               (Some 1) (Some 2))) 2 = false.
Proof.
  apply (establish_then_break example_world
           (example_handler example_roster) 1 2
           (establish_proximity example_world 1 2)).
  - vm_compute. reflexivity.
  - lia.
  - lia.
Defined.

(** C1. The cross-reference symmetry is not kept by a grapple
    initiate. In the roster where character 1 holds character 3 and
    targets character 2, one entry per character and the references
    symmetric, [establish_grapple] refuses to let 1 grapple 2, but the
    initiate action of 1 with the winning roll succeeds: 1 now
    grapples 2 while 3 is still grappled by 1. The validation pass
    run on that roster does not restore the symmetry either. *)
Theorem initiate_by_holder_example :
  roster_ok example_world example_roster_holding
  /\ grapple_symmetric example_roster_holding
  /\ establish_grapple example_world
       (example_handler example_roster_holding) 1 2
     = (example_world, example_handler example_roster_holding, false)
  /\ exists l',
       resolve_grapple_initiate example_world 0 example_roster_holding 9 1
       = Ok (example_world, l', GrappleSuccess)
       /\ (grappling_dbref <$> l' !! 0%nat) = Some (Some 2)
       /\ (grappled_by_dbref <$> l' !! 2%nat) = Some (Some 1)
       /\ ~ grapple_symmetric l'
       /\ ~ grapple_symmetric
            (combatants
               (validate_and_cleanup_grapple_state example_world
                  (example_handler l'))).
Proof.
  split; [exact example_roster_holding_ok|].
  split; [apply grapple_symmetricb_spec; vm_compute; reflexivity|].
  split; [vm_compute; reflexivity|].
  eexists. split; [vm_compute; reflexivity|].
  split; [reflexivity|]. split; [reflexivity|].
  split; rewrite <- grapple_symmetricb_spec; vm_compute; discriminate.
Qed.

End GrappleFacts.

(** ** world/combat: what removal leaves behind *)

Module RemovalFacts.

Import Combat CombatFacts.

Lemma filter_ext_elem {A} (P Q : A -> Prop)
    `{forall x, Decision (P x)} `{forall x, Decision (Q x)} (l : list A) :
  (forall x, x ∈ l -> (P x <-> Q x)) -> filter P l = filter Q l.
Proof.
  induction l as [|x l IH]; intros HPQ; [reflexivity|].
  rewrite !filter_cons.
  assert (Hx : P x <-> Q x) by (apply HPQ; left).
  rewrite IH by (intros y Hy; apply HPQ; now right).
  destruct (decide (P x)), (decide (Q x)); tauto.
Qed.

(** *** Orphans *)

(** X11. With no working list of a round in place and one entry per
    character, the orphan detection returns, reports exactly the
    characters of the orphaned entries, and leaves in the roster
    exactly the entries that are not orphaned, each as it was and in
    the same order: a combatant with a target, a grapple reference or
    someone targeting it is never removed nor altered. *)
Theorem orphans_exactly_removed (w : World) (h : Handler) :
  no_working_list h ->
  NoDup (char <$> combatants h) ->
  exists w' h',
    detect_and_remove_orphaned_combatants w h
    = Ok (w', h',
          omap char
            (filter (fun e =>
                       is_orphaned (targeted_dbrefs (combatants h)) e = true)
               (combatants h)))
    /\ combatants h'
       = filter (fun e =>
                   is_orphaned (targeted_dbrefs (combatants h)) e = false)
           (combatants h).
Proof.
  intros Hnw Hnd. unfold detect_and_remove_orphaned_combatants.
  destruct (combatants h) as [|e0 l0] eqn:El.
  { exists w, h. cbn. rewrite El. split; reflexivity. }
  cbn [is_nil]. rewrite <- El in *. clear El e0 l0.
  set (targeted := targeted_dbrefs (combatants h)).
  set (orphaned_chars := omap char (filter _ (combatants h))).
  assert (Horph : forall o, o ∈ orphaned_chars ->
            exists e, e ∈ combatants h /\ char e = Some o
                      /\ is_orphaned targeted e = true).
  { intros o Ho. apply list_elem_of_omap in Ho as (e & He & Hc).
    apply list_elem_of_filter in He as [Ho He]. eauto. }
  assert (Hfields : forall e o, char e = Some o ->
            is_orphaned targeted e = true ->
            grappling_dbref e = None /\ grappled_by_dbref e = None
            /\ o ∉ targeted).
  { intros e o Hc Ho. unfold is_orphaned in Ho. rewrite Hc in Ho.
    apply negb_true_iff in Ho.
    apply orb_false_iff in Ho as [Ho Ht].
    apply orb_false_iff in Ho as [Ho Hgb].
    apply orb_false_iff in Ho as [_ Hg].
    apply bool_decide_eq_false in Ht, Hgb, Hg.
    repeat split; [| |assumption].
    - destruct (grappling_dbref e); [|reflexivity].
      destruct Hg. eauto.
    - destruct (grappled_by_dbref e); [|reflexivity].
      destruct Hgb. eauto. }
  destruct (remove_all_untargeted orphaned_chars w h Hnw)
    as (w' & h' & Hr & _ & Hf).
  { intros o e Ho He.
    destruct (Horph o Ho) as (e' & He' & Hc' & Ho').
    destruct (Hfields e' o Hc' Ho') as (_ & _ & Hnt).
    revert e He. now apply not_targeted_spec. }
  exists w', h'. rewrite Hr. cbn [bind fst snd].
  split; [reflexivity|]. rewrite Hf.
  apply filter_ext_elem. intros e He. split.
  - intros Hout. destruct (is_orphaned targeted e) eqn:Ho; [|reflexivity].
    exfalso. apply Hout.
    unfold is_orphaned in Ho. destruct (char e) as [c|] eqn:Hc;
      [|discriminate].
    apply list_elem_of_fmap. exists c. split; [reflexivity|].
    apply list_elem_of_omap. exists e. split; [|assumption].
    apply list_elem_of_filter. split; [|assumption].
    unfold is_orphaned. now rewrite Hc.
  - intros Hno Hin. apply list_elem_of_fmap in Hin as (o & Hc & Ho).
    destruct (Horph o Ho) as (e' & He' & Hc' & Ho').
    assert (e = e') as ->
      by (apply (SymmetryFacts.roster_unique _ _ _ Hnd He He');
          congruence).
    congruence.
Qed.

Lemma orphans_exactly_removed_witness :
  exists w' h',
    detect_and_remove_orphaned_combatants example_world
      (example_handler example_roster_orphan)
    = Ok (w', h',
          omap char
            (filter (fun e =>
                       is_orphaned
                         (targeted_dbrefs
                            (combatants
                               (example_handler example_roster_orphan))) e
                       = true)
               (combatants (example_handler example_roster_orphan))))
    /\ combatants h'
       = filter (fun e =>
                   is_orphaned
                     (targeted_dbrefs
                        (combatants
                           (example_handler example_roster_orphan))) e
                   = false)
           (combatants (example_handler example_roster_orphan)).
Proof.
  apply (orphans_exactly_removed example_world
           (example_handler example_roster_orphan)).
  - reflexivity.
  - apply (bool_decide_unpack _). vm_compute. exact I.
Defined.

(** *** Retargeting *)

Lemma is_in_proximity_set w a b :
  is_Some ((w !! a) ≫= in_proximity_with) ->
  exists near, is_in_proximity w a b = Ok near.
Proof.
  unfold is_in_proximity. intros [near Hn].
  destruct (_ ≫= in_proximity_with) as [s|]; [eauto|discriminate].
Qed.

(** The search for a new target does not raise when every entry holds
    a character and the character looking for a target has a
    proximity set. *)
Lemma retarget_candidates_total w c other_char l :
  Forall (fun e => is_Some (char e)) l ->
  is_Some ((w !! other_char) ≫= in_proximity_with) ->
  exists cands, retarget_candidates w c other_char l = Ok cands.
Proof.
  intros Hch Hprox. induction Hch as [|e l [p Hp] _ (cands & IH)].
  - exists ([], []). reflexivity.
  - cbn [retarget_candidates]. rewrite Hp.
    destruct (_ || _); [eauto|].
    destruct (dead_or_unconscious w p); [eauto|].
    destruct (bool_decide _); [|eauto].
    destruct (is_in_proximity_set w other_char p Hprox) as [near ->].
    rewrite IH. cbn [bind]. eauto.
Qed.

Lemma retarget_step_total w saved c r k :
  Forall (fun e => is_Some (char e)) (working r) ->
  (forall e o, working r !! k = Some e -> target_dbref e = Some c ->
               char e = Some o ->
               is_Some ((w !! o) ≫= in_proximity_with)) ->
  exists r', retarget_step w saved c (Ok r) k = Ok r'.
Proof.
  intros Hch Hprox. unfold retarget_step. cbn [bind].
  destruct (working r !! k) as [other_entry|] eqn:Hk; [|eauto].
  case_bool_decide as Ht; [|eauto].
  assert (Hoc : is_Some (char other_entry)).
  { rewrite Forall_forall in Hch. apply Hch.
    eapply list_elem_of_lookup_2; eauto. }
  destruct Hoc as [other_char Hoc]. rewrite Hoc.
  destruct (retarget_candidates_total w c other_char
              (working
                 (on_working saved
                    (alter (fun e => set_target_dbref e None) k) r)))
    as ([pa ra] & ->).
  { cbn [working on_working].
    eapply (moved_chars c); [|exact Hch].
    apply moved_alter. intros e. split; [reflexivity|]. left. discriminate. }
  { exact (Hprox other_entry other_char eq_refl Ht Hoc). }
  cbn [bind].
  destruct (if match get_wielded_weapon w other_char with
               | Some weapon => is_ranged weapon
               | None => false
               end
            then head ra
            else match pa with p :: _ => Some p | [] => head ra end);
    eauto.
Qed.

Lemma retarget_fold_total w saved c l0 len :
  Forall (fun e => is_Some (char e)) l0 ->
  (forall e o, e ∈ l0 -> target_dbref e = Some c -> char e = Some o ->
               is_Some ((w !! o) ≫= in_proximity_with)) ->
  forall start r,
    Forall2 (moved c) l0 (working r) ->
    (forall idx e, (idx < start)%nat -> working r !! idx = Some e ->
                   target_dbref e <> Some c) ->
    exists r',
      fold_left (retarget_step w saved c) (seq start len) (Ok r) = Ok r'.
Proof.
  intros Hch Hprox. induction len as [|len IH]; intros start r HM Hlow.
  - exists r. reflexivity.
  - cbn [seq fold_left].
    destruct (retarget_step_total w saved c r start) as [r1 Hs].
    { eapply moved_chars; eauto. }
    { intros e o He Ht Ho.
      destruct (Forall2_lookup_r _ _ _ _ _ HM He) as (e0 & He0 & Hc0 & Ht0).
      apply (Hprox e0 o).
      - eapply list_elem_of_lookup_2; eauto.
      - destruct Ht0 as [Ht0|Ht0]; [contradiction|]. congruence.
      - congruence. }
    rewrite Hs.
    destruct (retarget_step_inv _ _ _ _ _ _ Hs Hlow) as [HM1 Hlow1].
    apply IH; [|exact Hlow1].
    eapply moved_trans; eassumption.
Qed.

Lemma world_lookup_imap (f : Z -> CharState -> option CharState)
    (w : World) (o : Z) :
  map_imap f w !! o = w !! o ≫= f o.
Proof. apply map_lookup_imap. Qed.

(** Cleaning up the leaving character keeps the proximity sets of the
    others. *)
Lemma cleanup_keeps_proximity_set w c entry h o :
  o <> c ->
  is_Some ((w !! o) ≫= in_proximity_with) ->
  is_Some ((fst (cleanup_combatant_state w c entry h) !! o)
             ≫= in_proximity_with).
Proof.
  intros Hoc Hp. unfold cleanup_combatant_state. cbv zeta. cbn [fst].
  unfold dbref in *.
  rewrite world_lookup_alter_ne by congruence.
  unfold clear_all_proximity.
  match goal with
  | |- context [match ?x with Some _ => _ | None => _ end] =>
      destruct x as [others|]
  end; [|exact Hp].
  rewrite world_lookup_alter_ne by congruence.
  rewrite world_lookup_imap.
  destruct (lookup (K := Z) o w) as [st|]; [|exact Hp]. cbn in *.
  destruct (bool_decide (o ∈ others)); [|exact Hp]. cbn.
  destruct (in_proximity_with st); [cbn; eauto|exact Hp].
Qed.

Lemma chars_in_roster l l' x :
  char <$> l' = char <$> l -> in_roster l' x <-> in_roster l x.
Proof.
  intros Hc. unfold in_roster.
  assert (H : forall l1 l2 : list Entry, char <$> l1 = char <$> l2 ->
            (exists k e, l1 !! k = Some e /\ char e = Some x) ->
            exists k e, l2 !! k = Some e /\ char e = Some x).
  { intros l1 l2 H12 (k & e & Hk & He).
    assert (Hk2 : (char <$> l2) !! k = Some (Some x)).
    { rewrite <- H12, list_lookup_fmap, Hk. cbn. now rewrite He. }
    rewrite list_lookup_fmap in Hk2.
    destruct (l2 !! k) as [e2|] eqn:Hl2; [|discriminate].
    injection Hk2 as Hk2. exists k, e2. split; [exact Hl2|exact Hk2]. }
  split; apply H; congruence.
Qed.

Lemma Forall2_chars (R : Entry -> Entry -> Prop) l l' :
  (forall e e', R e e' -> char e' = char e) ->
  Forall2 R l l' -> char <$> l' = char <$> l.
Proof.
  intros HR. induction 1 as [|x y l k Hxy _ IH]; [reflexivity|].
  cbn. rewrite IH. f_equal. now apply HR.
Qed.

(** X12. Whenever remove_combatant returns for a character of the
    roster it consults, the roster it stores has no entry of the
    character and no entry that targets it (each attacker was
    retargeted to someone else or left without target), and every
    other character still has its entry. The call does return when
    every entry of the consulted roster holds a character, the leaving
    character does not target itself and every character that targets
    it has a proximity set; the proximity test of the retargeting
    raises TypeError on a character whose set was never created. *)
Theorem remove_combatant_clears_references
    (w : World) (h : Handler) (c : dbref) :
  in_roster (consulted_roster h) c ->
  (forall w' h',
     remove_combatant w h c = Ok (w', h') ->
     ~ in_roster (combatants h') c
     /\ (forall e, e ∈ combatants h' -> target_dbref e <> Some c)
     /\ (forall x, x <> c ->
           in_roster (combatants h') x
           <-> in_roster (consulted_roster h) x))
  /\ (Forall (fun e => is_Some (char e)) (consulted_roster h) ->
      (forall e o, e ∈ consulted_roster h -> target_dbref e = Some c ->
                   char e = Some o ->
                   o <> c /\ is_Some ((w !! o) ≫= in_proximity_with)) ->
      exists w' h', remove_combatant w h c = Ok (w', h')).
Proof.
  intros (k0 & e0 & Hk0 & Hc0). unfold remove_combatant.
  unfold consulted_roster in *.
  set (use_active := negb (is_nil (default [] (_active_combatants_list h))))
    in *.
  set (roster := if use_active
                 then default [] (_active_combatants_list h)
                 else combatants h) in *.
  destruct (find_entry roster c) as [[k entry]|] eqn:Ef.
  2:{ rewrite find_entry_None in Ef. now destruct (Ef k0 e0 Hk0). }
  pose proof (cleanup_keeps_proximity_set w c entry h) as Hkeep.
  destruct (cleanup_combatant_state w c entry h) as [w1 h1].
  cbn [fst] in Hkeep. cbn [working db].
  split.
  - intros w' h' Hr.
    destruct (fold_left _ _ _) as [r'|] eqn:Hfold; [|discriminate].
    cbn [bind] in Hr.
    destruct (retarget_fold_untargeted _ _ _ _ _ Hfold) as [HM Hnt].
    cbn [working] in HM.
    assert (Hchars : char <$> working r' = char <$> roster).
    { apply (Forall2_chars (moved c)); [|exact HM]. now intros e e' [? _]. }
    set (final := filter (fun e => char e <> Some c) (working r')) in *.
    assert (Hh' : combatants h' = final).
    { injection Hr as _ <-. destruct (is_nil final); reflexivity. }
    rewrite Hh'. split; [|split].
    + intros (k1 & e1 & Hk1 & Hc1). apply list_elem_of_lookup_2 in Hk1.
      apply list_elem_of_filter in Hk1 as [Hne _]. contradiction.
    + intros e He. apply list_elem_of_filter in He as [_ He]. auto.
    + intros x Hx. rewrite <- (chars_in_roster _ _ x Hchars). split.
      * intros (k1 & e1 & Hk1 & Hc1). apply list_elem_of_lookup_2 in Hk1.
        apply list_elem_of_filter in Hk1 as [_ Hin].
        eapply SymmetryFacts.in_roster_elem; eauto.
      * intros (k1 & e1 & Hk1 & Hc1).
        apply (SymmetryFacts.in_roster_elem final e1 x); [|assumption].
        apply list_elem_of_filter. split; [congruence|].
        eapply list_elem_of_lookup_2; eauto.
  - intros Hch Hprox.
    destruct (retarget_fold_total w1 (negb use_active) c roster
                (length roster) Hch) with (start := 0%nat)
      (r := {| working := roster; db := combatants h1 |}) as [r' ->].
    + intros e o He Ht Ho. destruct (Hprox e o He Ht Ho) as [Hne Hp].
      now apply Hkeep.
    + apply moved_refl.
    + intros idx e Hidx. lia.
    + cbn [bind]. eauto.
Qed.

Lemma remove_combatant_clears_references_witness :
  exists w' h',
    remove_combatant example_world (example_handler example_roster) 2
    = Ok (w', h').
Proof.
  apply (remove_combatant_clears_references example_world
           (example_handler example_roster) 2).
  - exists 1%nat, (example_entry 2 (Some 1) None None false).
    split; reflexivity.
  - apply (bool_decide_unpack _). vm_compute. exact I.
  - intros e o He Ht Ho.
    apply list_elem_of_In in He. cbn in He.
    destruct He as [<-|[<-|[]]]; cbn in Ht, Ho; try discriminate.
    injection Ho as <-. split; [lia|]. vm_compute. eauto.
Defined.

End RemovalFacts.

(** ** world/medical: conditions, items and organ tables *)

Module ConditionFacts.

Import Medical FloatFacts MedicalFacts.

Set Warnings "-clear-no-such-hyp".

(** *** Persistence *)

(** X13. A condition of the base class, and a bleeding condition,
    survive persistence: from_dict of the class applied to what
    to_dict wrote returns, without raising, a condition equal to the
    original in every attribute. *)
Theorem condition_round_trip (K : Constants) (c : Condition) :
  (cls c = MedicalCondition /\ extra c = NoExtra)
  \/ (cls c = BleedingCondition /\ condition_type c = "minor_bleeding"
      /\ exists r, extra c = BleedingAttrs r) ->
  (do data <- to_dict c; from_dict K (cls c) data) = Ok c.
Proof.
  destruct c as [cl ct sev msev loc ti rt tr ex]. cbn.
  intros [[-> ->]|(-> & -> & r & ->)].
  - unfold to_dict. cbn. destruct loc; reflexivity.
  - unfold to_dict, BleedingCondition_to_dict. cbn.
    destruct loc; reflexivity.
Qed.

Lemma condition_round_trip_witness :
  (do data <- to_dict (BleedingCondition__init__ example_constants 4
                         (Some "chest"));
   from_dict example_constants
     (cls (BleedingCondition__init__ example_constants 4 (Some "chest")))
     data)
  = Ok (BleedingCondition__init__ example_constants 4 (Some "chest")).
Proof.
  apply (condition_round_trip example_constants
           (BleedingCondition__init__ example_constants 4 (Some "chest"))).
  right. split; [reflexivity|]. split; [reflexivity|].
  exists 10. reflexivity.
Defined.

(** *** Conditions from damage *)

(** X14. For an infection roll between 1 and 3, every condition
    create_condition_from_damage creates is untreated, sits at the
    given location, and has a severity between 1 and 10 that is also
    its maximal severity; a pain condition (severity at most 8) is
    created exactly when the damage is positive, a bleeding one only
    at or above the threshold, an infection only for a bullet, blade
    or pierce wound of at least 8 damage whose chance roll is 25 or
    less; at most three conditions are created, and none for a damage
    of 0 or less under a positive threshold. *)
Theorem created_conditions_bounded
    (K : Constants) (BLEEDING_DAMAGE_THRESHOLDS : gmap string Z)
    (damage_amount : Z) (damage_type : string) (loc : option string)
    (chance_roll severity_roll : Z) :
  1 <= severity_roll <= 3 ->
  let created :=
    create_condition_from_damage K BLEEDING_DAMAGE_THRESHOLDS
      damage_amount damage_type loc chance_roll severity_roll in
  let threshold := default 5 (BLEEDING_DAMAGE_THRESHOLDS !! "minor") in
  (forall c, c ∈ created ->
     1 <= severity c <= 10 /\ max_severity c = severity c
     /\ treated c = false /\ location c = loc
     /\ (cls c = BleedingCondition -> threshold <= damage_amount)
     /\ (cls c = PainCondition -> 0 < damage_amount /\ severity c <= 8)
     /\ (cls c = InfectionCondition ->
         damage_type ∈ ["bullet"; "blade"; "pierce"]
         /\ 8 <= damage_amount /\ chance_roll <= 25)
     /\ cls c <> MedicalCondition)
  /\ (0 < damage_amount <-> exists c, c ∈ created /\ cls c = PainCondition)
  /\ (length created <= 3)%nat
  /\ (damage_amount <= 0 -> 0 < threshold -> created = []).
Proof.
  intros Hroll created threshold. subst created.
  unfold create_condition_from_damage. fold threshold.
  destruct (Z.leb_spec threshold damage_amount) as [Hthr|Hthr];
    destruct (Z.ltb_spec 0 damage_amount) as [Hpos|Hpos];
    destruct (bool_decide (damage_type ∈ ["bullet"; "blade"; "pierce"]))
      eqn:Hpen;
    destruct (Z.leb_spec 8 damage_amount) as [H8|H8];
    destruct (Z.leb_spec chance_roll 25) as [Hch|Hch];
    cbn [andb app];
    try apply bool_decide_eq_true in Hpen;
    (split; [intros c Hc;
             repeat (apply elem_of_cons in Hc as [->|Hc]);
             try (apply elem_of_nil in Hc; contradiction);
             cbn; repeat split; try discriminate; try lia; try assumption;
             intros; try discriminate; try (repeat split; lia)
            |]);
    (split; [split;
             [intros ?; try lia;
              first [ exists (PainCondition__init__
                                (Z.min 8 (Z.max 1 (damage_amount / 2))) loc);
                      split; [set_solver|reflexivity] ]
             |intros (c & Hc & Hcls);
              repeat (apply elem_of_cons in Hc as [->|Hc]);
              try (apply elem_of_nil in Hc; contradiction);
              try discriminate; lia]
            |]);
    (split; [cbn; lia|]);
    intros; try lia; reflexivity.
Qed.

Lemma created_conditions_bounded_witness :
  let created :=
    create_condition_from_damage example_constants ∅ 12 "bullet"
      (Some "chest") 20 2 in
  let threshold := default 5 ((∅ : gmap string Z) !! "minor") in
  (forall c, c ∈ created ->
     1 <= severity c <= 10 /\ max_severity c = severity c
     /\ treated c = false /\ location c = Some "chest"
     /\ (cls c = BleedingCondition -> threshold <= 12)
     /\ (cls c = PainCondition -> 0 < 12 /\ severity c <= 8)
     /\ (cls c = InfectionCondition ->
         "bullet" ∈ ["bullet"; "blade"; "pierce"]
         /\ 8 <= 12 /\ 20 <= 25)
     /\ cls c <> MedicalCondition)
  /\ (0 < 12 <-> exists c, c ∈ created /\ cls c = PainCondition)
  /\ (length created <= 3)%nat
  /\ (12 <= 0 -> 0 < threshold -> created = []).
Proof.
  apply (created_conditions_bounded example_constants ∅ 12 "bullet"
           (Some "chest") 20 2).
  lia.
Defined.

(** *** Removing conditions *)

Lemma list_remove_app (x : Condition) pre l :
  (forall y, y ∈ pre -> y <> x) ->
  list_remove x (pre ++ x :: l) = Ok (pre ++ l).
Proof.
  induction pre as [|y pre IH]; intros Hpre; cbn.
  - now rewrite decide_True.
  - rewrite decide_False by (apply Hpre; left).
    rewrite IH by (intros z Hz; apply Hpre; now right). reflexivity.
Qed.

Lemma remove_matching_fold (P : Condition -> Prop)
    `{forall c, Decision (P c)} l :
  forall pre,
    (forall y, y ∈ pre -> ~ P y) ->
    fold_left (fun acc condition => do l <- acc; list_remove condition l)
      (filter P l) (Ok (pre ++ l))
    = Ok (pre ++ filter (fun c => ~ P c) l).
Proof.
  induction l as [|x l IH]; intros pre Hpre; [reflexivity|].
  rewrite !filter_cons. destruct (decide (P x)) as [Hx|Hx].
  - rewrite decide_False by tauto. cbn [fold_left bind].
    rewrite list_remove_app by (intros y Hy ->; now apply (Hpre x)).
    now apply IH.
  - rewrite decide_True by assumption.
    replace (pre ++ x :: l) with ((pre ++ [x]) ++ l)
      by (now rewrite <- app_assoc).
    rewrite IH.
    + now rewrite <- app_assoc.
    + intros y Hy. apply elem_of_app in Hy as [Hy|Hy]; [auto|].
      apply list_elem_of_singleton in Hy as ->. assumption.
Qed.

(** X15. remove_condition_by_type never raises: on a character with a
    medical state it leaves exactly the conditions of the other
    types, in their order, and touches nothing else; a character
    without medical state is returned as it is. *)
Theorem remove_condition_by_type_spec
    (character : Character) (condition_type_ : string) :
  remove_condition_by_type character condition_type_
  = Ok match medical_state character with
       | None => character
       | Some ms =>
           set_medical_state character
             (set_conditions ms
                (filter (fun c => condition_type c <> condition_type_)
                   (conditions ms)))
       end.
Proof.
  unfold remove_condition_by_type.
  destruct (medical_state character) as [ms|]; [|reflexivity].
  pose proof (remove_matching_fold
                (fun c => condition_type c = condition_type_)
                (conditions ms) []) as Hfold.
  cbn [app] in Hfold. rewrite Hfold by (intros y Hy; inversion Hy).
  reflexivity.
Qed.

(** *** Medical items *)

Lemma use_item_step item n :
  has_medical_tag item = true ->
  default 1 (attr_uses_left item) = Z.of_nat (S n) ->
  use_item item = (set_uses_left item (Z.of_nat n), true).
Proof.
  intros Hm Hu. unfold use_item, is_medical_item. rewrite Hm, Hu.
  cbn [negb]. destruct (Z.ltb_spec 0 (Z.of_nat (S n))); [|lia].
  do 2 f_equal. lia.
Qed.

(** X16. A medical item whose uses_left attribute is n (1 when the
    attribute is not set) can be used exactly n times: can_be_used
    tells whether use_item will succeed, each of the first n calls of
    use_item succeeds and counts one use down, and after them
    can_be_used is false and use_item fails without changing the
    item. *)
Theorem use_item_counts_down (item : Item) (n : nat) :
  has_medical_tag item = true ->
  default 1 (attr_uses_left item) = Z.of_nat n ->
  let used k := Nat.iter k (fun it => fst (use_item it)) item in
  (forall k, (k <= n)%nat ->
     default 1 (attr_uses_left (used k)) = Z.of_nat (n - k)
     /\ can_be_used (used k) = snd (use_item (used k))
     /\ can_be_used (used k) = bool_decide (k < n)%nat)
  /\ use_item (used n) = (used n, false).
Proof.
  intros Hm Hu used.
  assert (Hstep : forall k, used (S k) = fst (use_item (used k)))
    by reflexivity.
  assert (Hinv : forall k, (k <= n)%nat ->
            has_medical_tag (used k) = true
            /\ default 1 (attr_uses_left (used k)) = Z.of_nat (n - k)).
  { induction k as [|k IH]; intros Hk.
    - change (used 0%nat) with item. rewrite Nat.sub_0_r. auto.
    - destruct IH as [IHm IHu]; [lia|].
      replace (n - k)%nat with (S (n - S k)) in IHu by lia.
      rewrite Hstep, (use_item_step _ _ IHm IHu). cbn. auto. }
  assert (Hcan : forall k, (k <= n)%nat ->
            can_be_used (used k) = snd (use_item (used k))
            /\ can_be_used (used k) = bool_decide (k < n)%nat).
  { intros k Hk. destruct (Hinv k Hk) as [Hmk Huk].
    unfold can_be_used, use_item, is_medical_item. rewrite Hmk, Huk.
    cbn [negb]. destruct (Z.ltb_spec 0 (Z.of_nat (n - k))); cbn.
    - split; [reflexivity|]. rewrite bool_decide_true; [reflexivity|lia].
    - split; [reflexivity|]. rewrite bool_decide_false; [reflexivity|lia]. }
  split.
  - intros k Hk. destruct (Hinv k Hk) as [_ ?]. destruct (Hcan k Hk). auto.
  - destruct (Hinv n (le_n n)) as [Hmn Hun].
    unfold use_item, is_medical_item. rewrite Hmn, Hun, Nat.sub_diag.
    reflexivity.
Qed.

Lemma use_item_counts_down_witness :
  let item :=
    {| has_medical_tag := true; attr_medical_type := Some "wound_care";
       attr_uses_left := Some 3; attr_stat_requirement := None;
       attr_effectiveness := None |} in
  let used k := Nat.iter k (fun it => fst (use_item it)) item in
  (forall k, (k <= 3)%nat ->
     default 1 (attr_uses_left (used k)) = Z.of_nat (3 - k)
     /\ can_be_used (used k) = snd (use_item (used k))
     /\ can_be_used (used k) = bool_decide (k < 3)%nat)
  /\ use_item (used 3%nat) = (used 3%nat, false).
Proof.
  apply (use_item_counts_down
           {| has_medical_tag := true;
              attr_medical_type := Some "wound_care";
              attr_uses_left := Some 3; attr_stat_requirement := None;
              attr_effectiveness := None |} 3).
  - reflexivity.
  - reflexivity.
Defined.

(** *** The hit weights of a location *)

Lemma hit_weights_loop_keys K common organs hit_weights :
  HIT_WEIGHTS K !! "common" = Some common ->
  exists hw,
    hit_weights_loop K organs hit_weights = Ok hw
    /\ forall o, dict_get hw o
                 = if decide (o ∈ organs)
                   then Some (organ_hit_weight K o)
                   else dict_get hit_weights o.
Proof.
  intros Hc. revert hit_weights.
  induction organs as [|organ_name rest IH]; intros hit_weights;
    cbn [hit_weights_loop].
  - exists hit_weights. split; [reflexivity|]. intros o.
    destruct (decide (o ∈ [])) as [H|]; [inversion H|reflexivity].
  - unfold hit_weight_value. rewrite Hc. cbn [bind].
    destruct (IH (dict_set hit_weights organ_name
                    (default common
                       (HIT_WEIGHTS K !!
                          match dict_get (ORGANS K) organ_name with
                          | Some organ_data =>
                              default "common" (hit_weight organ_data)
                          | None => "common"
                          end)))) as (hw & -> & Hhw).
    exists hw. split; [reflexivity|]. intros o. rewrite Hhw.
    rewrite dict_get_set. unfold organ_hit_weight. rewrite Hc.
    repeat case_decide; subst; try reflexivity; exfalso; set_solver.
Qed.

(** X17. calculate_hit_weights_for_location returns the empty mapping
    for a location without organs. For a location with organs it
    raises KeyError whenever HIT_WEIGHTS has no "common" entry, even
    if every organ's own category has a weight, because the default
    is looked up first; with a "common" entry it returns a mapping
    that has a weight for exactly the organs of the location. *)
Theorem hit_weights_need_common (K : Constants) (location : string) :
  (get_organ_by_body_location K location = [] ->
   calculate_hit_weights_for_location K location = Ok [])
  /\ (get_organ_by_body_location K location <> [] ->
      HIT_WEIGHTS K !! "common" = None ->
      calculate_hit_weights_for_location K location = Raise KeyError)
  /\ (is_Some (HIT_WEIGHTS K !! "common") ->
      exists hw,
        calculate_hit_weights_for_location K location = Ok hw
        /\ forall o,
             dict_get hw o
             = if decide (o ∈ get_organ_by_body_location K location)
               then Some (organ_hit_weight K o)
               else None).
Proof.
  unfold calculate_hit_weights_for_location. split; [|split].
  - intros ->. reflexivity.
  - intros Hne Hc.
    destruct (get_organ_by_body_location K location) as [|o rest];
      [contradiction|].
    cbn [hit_weights_loop]. unfold hit_weight_value. now rewrite Hc.
  - intros [common Hc].
    destruct (hit_weights_loop_keys K common
                (get_organ_by_body_location K location) [] Hc)
      as (hw & Hhw & Hget).
    exists hw. split; [exact Hhw|]. intros o. rewrite Hget. reflexivity.
Qed.

Lemma hit_weights_need_common_witness :
  calculate_hit_weights_for_location
    {| ORGANS := ORGANS example_constants;
       HIT_WEIGHTS := {[ "rare" := 8 ]};
       BLOOD_LOSS_PER_SEVERITY := BLOOD_LOSS_PER_SEVERITY example_constants;
       HEALING_EFFECTIVENESS := HEALING_EFFECTIVENESS example_constants |}
    "chest" = Raise KeyError.
Proof.
  apply (proj1 (proj2 (hit_weights_need_common _ "chest"))).
  - vm_compute. discriminate.
  - reflexivity.
Defined.

(** *** Where the damage goes *)

Lemma dict_keys_set {V} (d : dict string V) k v o :
  o ∈ dict_keys (dict_set d k v) -> o = k \/ o ∈ dict_keys d.
Proof.
  induction d as [|[k' v'] d IH]; cbn.
  - intros Ho. apply list_elem_of_singleton in Ho. now left.
  - destruct (decide (k = k')) as [->|Hne]; cbn.
    + intros Ho. apply elem_of_cons in Ho as [->|Ho]; [now left|].
      right. now right.
    + intros Ho. apply elem_of_cons in Ho as [->|Ho].
      * right. left.
      * destruct (IH Ho) as [->|Hd]; [now left|]. right. now right.
Qed.

Lemma distribute_loop_keys hit_weights total_weight total_damage organs :
  forall damage_distribution remaining_damage r,
    distribute_loop hit_weights total_weight total_damage organs
      damage_distribution remaining_damage = Ok r ->
    forall o, o ∈ dict_keys (fst r) ->
              o ∈ organs \/ o ∈ dict_keys damage_distribution.
Proof.
  induction organs as [|organ_name rest IH];
    intros dd rem r Hr o Ho; cbn [distribute_loop] in Hr.
  - injection Hr as <-. now right.
  - destruct (organ_share _ _ _) as [z|]; [|discriminate].
    cbn [bind] in Hr. destruct (IH _ _ _ Hr o Ho) as [Hin|Hin].
    + left. now right.
    + apply dict_keys_set in Hin as [->|Hin]; [left; left|now right].
Qed.

Lemma last_elem (l : list string) d : l <> [] -> List.last l d ∈ l.
Proof.
  induction l as [|x l IH]; [contradiction|]. intros _.
  destruct l as [|y l]; [left|]. right. apply IH. discriminate.
Qed.

Lemma removelast_elem (l : list string) o : o ∈ removelast l -> o ∈ l.
Proof.
  induction l as [|x l IH]; [auto|]. destruct l as [|y l].
  - intros H. inversion H.
  - intros H. apply elem_of_cons in H as [->|H]; [left|].
    right. now apply IH.
Qed.

(** X18. Whatever distribute_damage_to_organs returns, it assigns
    damage only to organs of the location that the medical state has
    and that are not destroyed: a destroyed organ, an organ of another
    location or a name that is not an organ never receives damage,
    with or without a target organ. *)
Theorem damage_only_to_functional_organs
    (K : Constants) (location : string) (total_damage : Z)
    (medical_state : MedicalState) (injury_type : string)
    (target_organ : option string) (dist : dict string Z) :
  distribute_damage_to_organs K location total_damage medical_state
    injury_type target_organ = Ok dist ->
  forall o, o ∈ dict_keys dist ->
    o ∈ get_organ_by_body_location K location
    /\ exists organ, get_organ medical_state o = Some organ
                     /\ is_destroyed organ = false.
Proof.
  unfold distribute_damage_to_organs. intros Hd o Ho.
  destruct (is_nil (get_organ_by_body_location K location)).
  { injection Hd as <-. inversion Ho. }
  destruct (functional_organs_of medical_state _) as [fo|] eqn:Hfo;
    [|discriminate].
  cbn [bind] in Hd.
  apply (functional_organs_elem _ _ _ o Hfo).
  destruct (is_nil fo) eqn:Hnil. { injection Hd as <-. inversion Ho. }
  assert (Hne : fo <> []) by (intros ->; discriminate).
  destruct (truthy_str target_organ && _) eqn:Hvalid.
  { injection Hd as <-. cbn in Ho.
    apply list_elem_of_singleton in Ho as ->.
    apply andb_true_iff in Hvalid as [_ Hin].
    now apply bool_decide_eq_true in Hin. }
  destruct (calculate_hit_weights_for_location K location) as [hw|];
    [|discriminate].
  cbn [bind] in Hd.
  destruct (_ =? 0). { injection Hd as <-. inversion Ho. }
  destruct (distribute_loop _ _ _ _ _ _) as [r|] eqn:Hr; [|discriminate].
  cbn [bind] in Hd. injection Hd as <-.
  apply dict_keys_set in Ho as [->|Ho]; [now apply last_elem|].
  destruct (distribute_loop_keys _ _ _ _ _ _ _ Hr o Ho) as [Hin|Hin].
  - now apply removelast_elem.
  - inversion Hin.
Qed.

Lemma damage_only_to_functional_organs_witness :
  "left_lung" ∈ get_organ_by_body_location example_constants "chest"
  /\ exists organ, get_organ example_state "left_lung" = Some organ
                   /\ is_destroyed organ = false.
Proof.
  apply (damage_only_to_functional_organs example_constants "chest" 12
           example_state "bullet" None [("heart", 6); ("left_lung", 6)]).
  - vm_compute. reflexivity.
  - vm_compute. right. left.
Defined.

(** *** Treating a bleeding *)

Lemma float_0_5_mag : mag float_0_5 0 0.
Proof. simpl. exists 53. repeat split; lia. Qed.

Lemma mag_weaken f Kb Eb Kb' Eb' :
  mag f Kb Eb -> Kb <= Kb' -> Eb <= Eb' -> mag f Kb' Eb'.
Proof.
  destruct f; cbn; auto.
  intros (k & ? & ? & ? & ?) ? ?. exists k. repeat split; lia.
Qed.

(** [int(n * x)] does not raise for a moderate [x] and an [n] far
    below the overflow threshold. *)
Lemma int_of_scaled_ok n x :
  mag x 2 0 -> representable n ->
  exists z, int_of_scaled n x = Ok z.
Proof.
  intros Hx Hn. unfold int_of_scaled, int_mul_float.
  destruct (float_of_int_mag n 512) as (y & -> & Hy); [lia|exact Hn|].
  cbn [bind].
  pose proof (SFmul_mag _ _ _ _ _ _ Hy Hx) as Hm.
  unfold emax, prec, emin in Hm.
  destruct (int_of_float_bound _ _ _ (Hm ltac:(lia) ltac:(lia)))
    as (z & Hz & _); [lia|].
  eauto.
Qed.

(** X19. When BleedingCondition.apply_treatment returns, the condition
    is treated, its severity is not negative and is lower than before
    if it was positive, its stored blood-loss rate is at least 1, and
    class, type, location and maximal severity are unchanged. It does
    return, for a treatment quality the effectiveness table does not
    list, when severity and rate are far below the overflow threshold
    of a float. *)
Theorem bleeding_treatment_effect
    (K : Constants) (c : Condition) (treatment_quality : string) :
  (forall c1,
     BleedingCondition_apply_treatment K c treatment_quality = Ok c1 ->
     treated c1 = true
     /\ 0 <= severity c1
     /\ (0 < severity c -> severity c1 < severity c)
     /\ (exists rate, extra c1 = BleedingAttrs rate /\ 1 <= rate)
     /\ cls c1 = cls c /\ condition_type c1 = condition_type c
     /\ location c1 = location c /\ max_severity c1 = max_severity c)
  /\ (forall rate,
        extra c = BleedingAttrs rate ->
        representable (severity c) -> representable rate ->
        HEALING_EFFECTIVENESS K !! treatment_quality = None ->
        exists c1,
          BleedingCondition_apply_treatment K c treatment_quality = Ok c1).
Proof.
  unfold BleedingCondition_apply_treatment. split.
  - intros c1 H.
    destruct (int_mul_float _ _) as [x|]; [|discriminate]. cbn [bind] in H.
    destruct (int_of_float x) as [n|]; [|discriminate]. cbn [bind] in H.
    destruct (blood_loss_rate _) as [rate|]; [|discriminate].
    cbn [bind] in H.
    destruct (int_mul_float rate float_0_3) as [y|]; [|discriminate].
    cbn [bind] in H.
    destruct (int_of_float y) as [m|]; [|discriminate]. cbn [bind] in H.
    injection H as <-. cbn.
    repeat split; try lia. exists (Z.max 1 m). split; [reflexivity|lia].
  - intros rate He Hs Hr Hq. rewrite Hq. cbn [default set_treated severity].
    destruct (int_of_scaled_ok (severity c) float_0_5) as (n & Hn);
      [apply (mag_weaken _ 0 0); [exact float_0_5_mag|lia|lia]|exact Hs|].
    unfold int_of_scaled in Hn.
    destruct (int_mul_float (severity c) float_0_5) as [x|];
      [|discriminate].
    cbn [bind] in Hn |- *. rewrite Hn. cbn [bind].
    unfold blood_loss_rate. cbn [extra set_severity set_treated].
    rewrite He. cbn [bind].
    destruct (int_of_scaled_ok rate float_0_3) as (m & Hm);
      [apply (mag_weaken _ (-1) 0); [exact float_0_3_mag|lia|lia]
      |exact Hr|].
    unfold int_of_scaled in Hm.
    destruct (int_mul_float rate float_0_3) as [y|]; [|discriminate].
    cbn [bind] in Hm |- *. rewrite Hm. cbn [bind]. eauto.
Qed.

Lemma bleeding_treatment_effect_witness :
  exists c1,
    BleedingCondition_apply_treatment example_constants
      (BleedingCondition__init__ example_constants 4 (Some "chest"))
      "basic" = Ok c1.
Proof.
  apply (proj2 (bleeding_treatment_effect example_constants
                  (BleedingCondition__init__ example_constants 4
                     (Some "chest")) "basic") 10).
  - reflexivity.
  - vm_compute. reflexivity.
  - vm_compute. reflexivity.
  - reflexivity.
Defined.

(** *** Choosing the organ a precise attack hits *)

Lemma organ_weights_loop_keys K organs precision_total :
  forall organ_weights ow,
    organ_weights_loop K organs precision_total organ_weights = Ok ow ->
    forall o, o ∈ dict_keys ow ->
              o ∈ organs \/ o ∈ dict_keys organ_weights.
Proof.
  induction organs as [|organ_name rest IH]; intros ow0 ow H o Ho;
    cbn [organ_weights_loop] in H.
  - injection H as <-. now right.
  - destruct (hit_weight_value K _) as [bw|]; [|discriminate].
    cbn [bind] in H.
    destruct (precision_weight _ _ _) as [wt|]; [|discriminate].
    cbn [bind] in H. destruct (IH _ _ H o Ho) as [Hin|Hin].
    + left. now right.
    + apply dict_keys_set in Hin as [->|Hin]; [left; left|now right].
Qed.

Lemma weighted_choice_elem items rand_value :
  forall cumulative_weight name,
    weighted_choice items rand_value cumulative_weight = Some name ->
    name ∈ dict_keys items.
Proof.
  induction items as [|[k wt] items IH]; intros cw name H;
    cbn [weighted_choice] in H; [discriminate|].
  destruct (rand_value <=? cw + wt).
  - injection H as <-. left.
  - right. exact (IH _ _ H).
Qed.

Lemma precision_weight_ok category base_weight precision_total :
  representable base_weight ->
  exists wt, precision_weight category base_weight precision_total = Ok wt.
Proof.
  intros Hb. unfold precision_weight.
  assert (H : forall x, mag x 2 0 ->
                exists z, int_of_scaled base_weight x = Ok z)
    by (intros x Hx; now apply int_of_scaled_ok).
  assert (H30 : mag float_3_0 2 0)
    by (simpl; exists 53; repeat split; lia).
  assert (H20 : mag float_2_0 2 0)
    by (simpl; exists 53; repeat split; lia).
  assert (H15 : mag float_1_5 2 0)
    by (simpl; exists 53; repeat split; lia).
  assert (H07 : mag float_0_7 2 0)
    by (simpl; exists 53; repeat split; lia).
  assert (H05 : mag float_0_5 2 0)
    by (simpl; exists 53; repeat split; lia).
  destruct (H _ H30) as (z30 & ->), (H _ H20) as (z20 & ->),
    (H _ H15) as (z15 & ->), (H _ H07) as (z07 & ->),
    (H _ H05) as (z05 & ->).
  repeat match goal with |- context [if ?b then _ else _] => destruct b end;
    cbn [bind]; eauto.
Qed.

Lemma organ_weights_loop_ok K organs precision_total :
  is_Some (HIT_WEIGHTS K !! "common") ->
  map_Forall (fun _ w => representable w) (HIT_WEIGHTS K) ->
  forall organ_weights,
    exists ow,
      organ_weights_loop K organs precision_total organ_weights = Ok ow.
Proof.
  intros [common Hc] Hall.
  induction organs as [|organ_name rest IH]; intros ow0;
    cbn [organ_weights_loop]; [eauto|].
  unfold hit_weight_value. rewrite Hc. cbn [bind].
  match goal with
  | |- context [precision_weight ?c ?b ?p] =>
      destruct (precision_weight_ok c b p) as (wt & ->)
  end.
  - match goal with
    | |- representable (default _ ?x) =>
        destruct x as [v|] eqn:Hv; cbn [default]
    end.
    + exact (Hall _ _ Hv).
    + exact (Hall _ _ Hc).
  - cbn [bind]. apply IH.
Qed.

(** X20. Whatever select_target_organ returns, it is an organ of the
    location, and it is None exactly when the location has no organs.
    With a "common" entry in HIT_WEIGHTS and weights far below the
    overflow threshold of a float it does return, for every roll,
    skill and random draw. *)
Theorem select_target_organ_in_location
    (K : Constants) (location : string)
    (precision_roll attacker_skill rand_value : Z) :
  (forall r,
     select_target_organ K location precision_roll attacker_skill
       rand_value = Ok r ->
     (r = None <-> get_organ_by_body_location K location = [])
     /\ forall o, r = Some o ->
                  o ∈ get_organ_by_body_location K location)
  /\ (is_Some (HIT_WEIGHTS K !! "common") ->
      map_Forall (fun _ w => representable w) (HIT_WEIGHTS K) ->
      exists r,
        select_target_organ K location precision_roll attacker_skill
          rand_value = Ok r).
Proof.
  unfold select_target_organ. split.
  - intros r H.
    destruct (get_organ_by_body_location K location) as [|o0 rest] eqn:Ho.
    { injection H as <-. split; [tauto|discriminate]. }
    cbn [is_nil] in H.
    destruct (organ_weights_loop K _ _ _) as [ow|] eqn:Hw; [|discriminate].
    cbn [bind] in H.
    assert (Hhead : r = head (o0 :: rest) ->
              (r = None <-> o0 :: rest = [])
              /\ forall o, r = Some o -> o ∈ o0 :: rest).
    { intros ->. cbn. split; [split; discriminate|].
      intros o [= <-]. left. }
    destruct (_ =? 0); [injection H as <-; now apply Hhead|].
    destruct (weighted_choice ow rand_value 0) as [name|] eqn:Hch;
      injection H as <-; [|now apply Hhead].
    split; [split; discriminate|]. intros o [= <-].
    apply weighted_choice_elem in Hch.
    destruct (organ_weights_loop_keys _ _ _ _ _ Hw _ Hch) as [Hin|Hin];
      [exact Hin|inversion Hin].
  - intros Hc Hall.
    destruct (is_nil _); [eauto|].
    destruct (organ_weights_loop_ok K
                (get_organ_by_body_location K location)
                (precision_roll + attacker_skill) Hc Hall [])
      as (ow & ->).
    cbn [bind]. destruct (_ =? 0); [eauto|].
    destruct (weighted_choice _ _ _); eauto.
Qed.

Lemma select_target_organ_in_location_witness :
  exists r,
    select_target_organ example_constants "chest" 12 9 10 = Ok r.
Proof.
  apply (proj2 (select_target_organ_in_location example_constants
                  "chest" 12 9 10)).
  - apply (bool_decide_unpack _). vm_compute. exact I.
  - unfold representable. apply (bool_decide_unpack _).
    vm_compute. exact I.
Defined.

End ConditionFacts.

(** ** world/combat: entering combat, opponents and grenades *)

Module EnteringFacts.

Import Combat Combat.Grappling CombatFacts SymmetryFacts RepairFacts.

(** *** The strongest opponent *)

Lemma highest_step_spec w dflt hv hc opponent :
  dflt <= hv ->
  (hc = None <-> hv = dflt) ->
  (forall o, hc = Some o -> (w !! o) ≫= motorics = Some hv) ->
  exists hv' hc',
    highest_step w dflt (hv, hc) opponent = (hv', hc')
    /\ hv <= hv'
    /\ (hc' = None <-> hv' = dflt)
    /\ (forall o, hc' = Some o -> (w !! o) ≫= motorics = Some hv')
    /\ (forall o s, opponent = Some o ->
          (w !! o) ≫= motorics = Some s -> s <= hv')
    /\ (forall o, hc' = Some o ->
          opponent = Some o \/ (hc = Some o /\ hv' = hv)).
Proof.
  intros Hd Hn Hs.
  assert (Hkeep : (forall o s, opponent = Some o ->
                     (w !! o) ≫= motorics = Some s -> s <= hv) ->
            exists hv' hc',
              (hv, hc) = (hv', hc')
              /\ hv <= hv'
              /\ (hc' = None <-> hv' = dflt)
              /\ (forall o, hc' = Some o ->
                    (w !! o) ≫= motorics = Some hv')
              /\ (forall o s, opponent = Some o ->
                    (w !! o) ≫= motorics = Some s -> s <= hv')
              /\ (forall o, hc' = Some o ->
                    opponent = Some o \/ (hc = Some o /\ hv' = hv))).
  { intros Hb. exists hv, hc.
    split; [reflexivity|]. split; [lia|]. split; [exact Hn|].
    split; [exact Hs|]. split; [exact Hb|]. intros o Ho. right. auto. }
  unfold highest_step. destruct opponent as [o|].
  2:{ apply Hkeep. discriminate. }
  destruct ((w !! o) ≫= motorics) as [s|] eqn:Hso.
  2:{ apply Hkeep. intros o' s' [= <-] Hs'. congruence. }
  destruct (Z.ltb_spec hv s) as [Hlt|Hge].
  2:{ apply Hkeep. intros o' s' [= <-] Hs'.
      assert (s' = s) by congruence. lia. }
  exists s, (Some o).
  split; [reflexivity|]. split; [lia|].
  split; [split; [discriminate|lia]|].
  split; [intros o' [= <-]; exact Hso|].
  split.
  - intros o' s' [= <-] Hs'. assert (s' = s) by congruence. lia.
  - intros o' [= <-]. now left.
Qed.

Lemma highest_fold w dflt opponents :
  forall hv hc,
    dflt <= hv ->
    (hc = None <-> hv = dflt) ->
    (forall o, hc = Some o -> (w !! o) ≫= motorics = Some hv) ->
    let r := fold_left (highest_step w dflt) opponents (hv, hc) in
    hv <= fst r
    /\ (forall o s, Some o ∈ opponents ->
          (w !! o) ≫= motorics = Some s -> s <= fst r)
    /\ (snd r = None <-> fst r = dflt)
    /\ (forall o, snd r = Some o ->
          (Some o ∈ opponents \/ (hc = Some o /\ fst r = hv))
          /\ (w !! o) ≫= motorics = Some (fst r)).
Proof.
  induction opponents as [|opponent rest IH]; intros hv hc Hd Hn Hs r.
  - subst r. cbn. split; [lia|].
    split; [intros o s Ho; inversion Ho|]. split; [exact Hn|].
    intros o Ho. split; [right; auto|now apply Hs].
  - subst r. cbn [fold_left].
    destruct (highest_step_spec w dflt hv hc opponent Hd Hn Hs)
      as (hv' & hc' & -> & Hle & Hn' & Hs' & Hopp & Hfrom).
    destruct (IH hv' hc' ltac:(lia) Hn' Hs') as (H1 & H2 & H3 & H4).
    split; [lia|]. split; [|split; [exact H3|]].
    + intros o s Ho Hso. apply elem_of_cons in Ho as [<-|Ho].
      * specialize (Hopp o s eq_refl Hso). lia.
      * now apply (H2 o s).
    + intros o Ho. destruct (H4 o Ho) as [[Hin|[Hhc Heq]] Hst].
      * split; [|exact Hst]. left. now right.
      * split; [|exact Hst].
        destruct (Hfrom o Hhc) as [->|[Hhc' Hhv]].
        -- left. left.
        -- right. split; [exact Hhc'|]. lia.
Qed.

(** X21. get_highest_opponent_stat returns a value that is at least
    the default and at least the stat of every opponent that has one;
    the character it returns has exactly that stat, which then exceeds
    the default. It returns no character exactly when the value is the
    default: opponents whose stats do not exceed the default are never
    returned, even when the list is not empty. *)
Theorem highest_opponent_stat_spec
    (w : World) (opponents : list (option dbref)) (dflt : Z) :
  let r := get_highest_opponent_stat w opponents dflt in
  dflt <= fst r
  /\ (forall o s, Some o ∈ opponents ->
        (w !! o) ≫= motorics = Some s -> s <= fst r)
  /\ (snd r = None <-> fst r = dflt)
  /\ (forall o, snd r = Some o ->
        Some o ∈ opponents
        /\ (w !! o) ≫= motorics = Some (fst r) /\ dflt < fst r).
Proof.
  intros r. subst r. unfold get_highest_opponent_stat.
  destruct (highest_fold w dflt opponents dflt None (Z.le_refl _))
    as (H1 & H2 & H3 & H4); [tauto|discriminate|].
  destruct opponents as [|o0 rest] eqn:Hopp.
  { cbn. split; [lia|]. split; [intros o s Ho; inversion Ho|].
    split; [tauto|discriminate]. }
  cbn [is_nil]. rewrite <- Hopp in *. clear Hopp.
  split; [exact H1|]. split; [exact H2|]. split; [exact H3|].
  intros o Ho. destruct (H4 o Ho) as [[Hin|[Hhc _]] Hst]; [|discriminate].
  split; [exact Hin|]. split; [exact Hst|].
  destruct (Z.eq_dec (fst (fold_left (highest_step w dflt) opponents
                                (dflt, None))) dflt) as [Heq|Hne];
    [|lia].
  apply H3 in Heq. congruence.
Qed.

(** *** Human shields *)

Lemma modifiers_get_set (d : dict dbref float) k k' v :
  dict_get (dict_set d k v) k'
  = if decide (k' = k) then Some v else dict_get d k'.
Proof.
  induction d as [|[k0 v0] d IH]; cbn.
  - destruct (decide (k' = k)) as [->|Hne].
    + destruct (decide (k = k)); [reflexivity|contradiction].
    + destruct (decide (k' = k)); [contradiction|reflexivity].
  - destruct (decide (k = k0)) as [->|Hk]; cbn.
    + destruct (decide (k' = k0)); reflexivity.
    + rewrite IH. destruct (decide (k' = k0)) as [->|Hk'].
      * destruct (decide (k0 = k)); [congruence|reflexivity].
      * reflexivity.
Qed.

Lemma shield_step_spec w l prox d c :
  (shield_step w l prox d c = d
   /\ forall v, ~ shields w l prox c v)
  \/ exists v,
       shield_step w l prox d c
       = dict_set (dict_set d c float_0_0) v Medical.float_2_0
       /\ (c ∈ prox -> shields w l prox c v)
       /\ forall v', shields w l prox c v' -> v' = v.
Proof.
  unfold shield_step.
  destruct (find_entry l c) as [[k e]|] eqn:Hf.
  2:{ left. split; [reflexivity|].
      intros v (_ & _ & k & e & He & _). congruence. }
  destruct (truthy_int (grappling_dbref e)) eqn:Ht.
  2:{ left. split; [reflexivity|].
      intros v (_ & _ & k' & e' & He & Ht' & _). congruence. }
  destruct (Combat.get_character_by_dbref w (grappling_dbref e))
    as [victim|] eqn:Hv.
  2:{ left. split; [reflexivity|].
      intros v (_ & _ & k' & e' & He & _ & Hv'). congruence. }
  case_bool_decide as Hin.
  2:{ left. split; [reflexivity|].
      intros v (_ & Hvin & k' & e' & He & _ & Hv').
      assert (v = victim) by congruence. subst v. contradiction. }
  right. exists victim. split; [reflexivity|]. split.
  - intros Hc. split; [exact Hc|]. split; [exact Hin|].
    exists k, e. auto.
  - intros v' (_ & _ & k' & e' & He & _ & Hv'). congruence.
Qed.

Lemma shield_fold w l prox p :
  forall d,
    (forall c, c ∈ p -> c ∈ prox) ->
    let r := fold_left (shield_step w l prox) p d in
    (forall x y, dict_get r x = Some y ->
       dict_get d x = Some y
       \/ (y = float_0_0 /\ exists v, shields w l prox x v)
       \/ (y = Medical.float_2_0 /\ exists c, shields w l prox c x))
    /\ (forall x, is_Some (dict_get d x) -> is_Some (dict_get r x))
    /\ (forall c v, c ∈ p -> shields w l prox c v ->
          is_Some (dict_get r c) /\ is_Some (dict_get r v)).
Proof.
  induction p as [|c rest IH]; intros d Hsub r; subst r.
  - cbn. split; [auto|]. split; [auto|]. intros c v Hc. inversion Hc.
  - cbn [fold_left].
    assert (Hc : c ∈ prox) by (apply Hsub; left).
    destruct (IH (shield_step w l prox d c)) as (H1 & H2 & H3).
    { intros c' Hc'. apply Hsub. now right. }
    destruct (shield_step_spec w l prox d c)
      as [[Heq Hno]|(v & Heq & Hsh & Huniq)]; rewrite Heq in *.
    + split; [exact H1|]. split; [exact H2|].
      intros c' v' Hc' Hs. apply elem_of_cons in Hc' as [->|Hc'].
      * exfalso. exact (Hno v' Hs).
      * exact (H3 c' v' Hc' Hs).
    + specialize (Hsh Hc). split; [|split].
      * intros x y Hx. destruct (H1 x y Hx) as [Hd|Hr]; [|right; exact Hr].
        rewrite !modifiers_get_set in Hd.
        destruct (decide (x = v)) as [->|Hxv].
        { right. right. injection Hd as <-. eauto. }
        destruct (decide (x = c)) as [->|Hxc].
        { right. left. injection Hd as <-. eauto. }
        now left.
      * intros x Hx. apply H2. rewrite !modifiers_get_set.
        repeat case_decide; try exact Hx; eexists; reflexivity.
      * intros c' v' Hc' Hs. apply elem_of_cons in Hc' as [->|Hc'].
        -- assert (v' = v) by exact (Huniq v' Hs). subst v'.
           split; apply H2; rewrite !modifiers_get_set;
             repeat case_decide; try contradiction;
             eexists; reflexivity.
        -- exact (H3 c' v' Hc' Hs).
Qed.

(** X22. With a combat handler given, check_grenade_human_shield
    gives a modifier exactly to the characters of the blast that use
    someone of the blast as a shield or are so used: 0.0 to a
    grappler, 2.0 to a victim, and no other value. A grappler nobody
    holds gets 0.0 and a victim who holds nobody gets 2.0; for a
    character who is both, the order of the list decides. *)
Theorem grenade_shield_modifiers
    (w : World) (handlers : gmap Z Handler)
    (proximity_list : list dbref) (h : Handler) :
  let r :=
    check_grenade_human_shield w handlers proximity_list (Some h) in
  let uses := shields w (combatants h) proximity_list in
  (forall x y, dict_get r x = Some y ->
     (y = float_0_0 /\ exists v, uses x v)
     \/ (y = Medical.float_2_0 /\ exists c, uses c x))
  /\ (forall c v, uses c v ->
        is_Some (dict_get r c) /\ is_Some (dict_get r v))
  /\ (forall c v, uses c v -> (forall c', ~ uses c' c) ->
        dict_get r c = Some float_0_0)
  /\ (forall c v, uses c v -> (forall v', ~ uses v v') ->
        dict_get r v = Some Medical.float_2_0).
Proof.
  intros r uses. subst r uses. unfold check_grenade_human_shield.
  destruct (shield_fold w (combatants h) proximity_list proximity_list [])
    as (H1 & _ & H3); [auto|].
  assert (Hsound : forall x y,
            dict_get (fold_left
                        (shield_step w (combatants h) proximity_list)
                        proximity_list []) x = Some y ->
            (y = float_0_0
             /\ exists v, shields w (combatants h) proximity_list x v)
            \/ (y = Medical.float_2_0
                /\ exists c, shields w (combatants h) proximity_list c x)).
  { intros x y Hx. destruct (H1 x y Hx) as [Hd|Hr]; [discriminate|exact Hr]. }
  assert (Hall : forall c v,
            shields w (combatants h) proximity_list c v ->
            is_Some (dict_get (fold_left
                        (shield_step w (combatants h) proximity_list)
                        proximity_list []) c)
            /\ is_Some (dict_get (fold_left
                        (shield_step w (combatants h) proximity_list)
                        proximity_list []) v)).
  { intros c v Hs. apply (H3 c v); [|exact Hs]. now destruct Hs. }
  split; [exact Hsound|]. split; [exact Hall|]. split.
  - intros c v Hs Hno. destruct (Hall c v Hs) as [[y Hy] _].
    destruct (Hsound c y Hy) as [[-> _]|[_ [c' Hc']]]; [exact Hy|].
    exfalso. exact (Hno c' Hc').
  - intros c v Hs Hno. destruct (Hall c v Hs) as [_ [y Hy]].
    destruct (Hsound v y Hy) as [[_ [v' Hv']]|[-> _]]; [|exact Hy].
    exfalso. exact (Hno v' Hv').
Qed.

Lemma grenade_shield_modifiers_witness :
  dict_get
    (check_grenade_human_shield example_world ∅ [1; 2; 3]
       (Some (example_handler example_roster_grappled))) 1
  = Some float_0_0
  /\ dict_get
       (check_grenade_human_shield example_world ∅ [1; 2; 3]
          (Some (example_handler example_roster_grappled))) 2
     = Some Medical.float_2_0.
Proof.
  assert (Hs : shields example_world
                 (combatants (example_handler example_roster_grappled))
                 [1; 2; 3] 1 2).
  { split; [set_solver|]. split; [set_solver|].
    eexists _, _. split; [reflexivity|]. split; reflexivity. }
  assert (Hno : forall c v,
            shields example_world
              (combatants (example_handler example_roster_grappled))
              [1; 2; 3] c v -> c = 1 /\ v = 2).
  { intros c v (Hc & _ & k & e & Hf & Ht & Hv).
    repeat (apply elem_of_cons in Hc as [->|Hc]);
      try (apply elem_of_nil in Hc; contradiction);
      vm_compute in Hf; try discriminate; injection Hf as <- <-;
      vm_compute in Ht; try discriminate.
    vm_compute in Hv. injection Hv as <-. auto. }
  split.
  - apply (proj1 (proj2 (proj2 (grenade_shield_modifiers example_world ∅
                                  [1; 2; 3]
                                  (example_handler
                                     example_roster_grappled))))
             1 2 Hs).
    intros c' Hc'. apply Hno in Hc' as [_ ?]. discriminate.
  - apply (proj2 (proj2 (proj2 (grenade_shield_modifiers example_world ∅
                                  [1; 2; 3]
                                  (example_handler
                                     example_roster_grappled))))
             1 2 Hs).
    intros v' Hv'. apply Hno in Hv' as [? _]. discriminate.
Defined.

(** *** Entering combat *)

Lemma same_but_grapple_refl e : same_but_grapple e e.
Proof. repeat split. Qed.

Lemma same_but_grapple_grappling E e d :
  same_but_grapple E e -> same_but_grapple E (set_grappling_dbref e d).
Proof. intros H. exact H. Qed.

Lemma same_but_grapple_grappled_by E e d :
  same_but_grapple E e -> same_but_grapple E (set_grappled_by_dbref e d).
Proof. intros H. exact H. Qed.

Lemma same_but_grapple_insert l cl i E e' :
  Forall2 same_but_grapple l cl -> l !! i = Some E ->
  same_but_grapple E e' ->
  Forall2 same_but_grapple l (<[i := e']> cl).
Proof.
  intros HF Hi He. rewrite <- (list_insert_id l i E Hi).
  now apply Forall2_insert.
Qed.

Lemma same_but_grapple_found l cl c k e d :
  Forall2 same_but_grapple l cl -> find_entry cl c = Some (k, e) ->
  Forall2 same_but_grapple l (<[k := set_grappling_dbref e d]> cl)
  /\ Forall2 same_but_grapple l (<[k := set_grappled_by_dbref e d]> cl).
Proof.
  intros HF Hf. destruct (find_entry_Some _ _ _ _ Hf) as [Hk _].
  destruct (Forall2_lookup_r _ _ _ _ _ HF Hk) as (E & HE & HR).
  split; apply (same_but_grapple_insert l cl k E); assumption.
Qed.

Lemma validate_grappling_same_but w v l i E entry c cl flag :
  l !! i = Some E -> same_but_grapple E entry ->
  Forall2 same_but_grapple l cl ->
  Forall2 same_but_grapple l
    (fst (validate_grappling w v i entry c (cl, flag))).
Proof.
  intros Hi HE HF. unfold validate_grappling.
  assert (Hclear : Forall2 same_but_grapple l
                     (<[i := set_grappling_dbref entry None]> cl))
    by (apply (same_but_grapple_insert l cl i E); assumption).
  destruct (grappling_dbref entry) as [d|]; [|exact HF].
  destruct (Grappling.get_character_by_dbref w (Some d)) as [gt|];
    [|exact Hclear].
  case_bool_decide; [exact Hclear|].
  case_bool_decide; cbn [negb]; [|exact Hclear].
  destruct (find_entry cl gt) as [[ti T]|] eqn:Hf; [|exact HF].
  case_bool_decide; [|exact HF].
  exact (proj2 (same_but_grapple_found l cl gt ti T _ HF Hf)).
Qed.

Lemma validate_grappled_by_same_but w v l i E entry c cl flag :
  l !! i = Some E -> same_but_grapple E entry ->
  Forall2 same_but_grapple l cl ->
  Forall2 same_but_grapple l
    (fst (validate_grappled_by w v i entry c (cl, flag))).
Proof.
  intros Hi HE HF. unfold validate_grappled_by.
  assert (Hclear : Forall2 same_but_grapple l
                     (<[i := set_grappled_by_dbref entry None]> cl))
    by (apply (same_but_grapple_insert l cl i E); assumption).
  destruct (grappled_by_dbref entry) as [d|]; [|exact HF].
  destruct (Grappling.get_character_by_dbref w (Some d)) as [gr|];
    [|exact Hclear].
  case_bool_decide; [exact Hclear|].
  case_bool_decide; cbn [negb]; [|exact Hclear].
  destruct (find_entry cl gr) as [[gi G]|] eqn:Hf; [|exact HF].
  case_bool_decide; [|exact HF].
  exact (proj1 (same_but_grapple_found l cl gr gi G _ HF Hf)).
Qed.

Lemma validate_entry_same_but w v l st i :
  Forall2 same_but_grapple l (fst st) ->
  Forall2 same_but_grapple l (fst (validate_entry w v st i)).
Proof.
  intros HF. unfold validate_entry.
  destruct (fst st !! i) as [entry|] eqn:Hi; [|exact HF].
  destruct (char entry) as [c|]; [|exact HF].
  destruct (Forall2_lookup_r _ _ _ _ _ HF Hi) as (E & HE & HR).
  destruct st as [cl flag].
  pose proof (validate_grappling_same_but w v l i E entry c cl flag
                HE HR HF) as H1.
  destruct (validate_grappling w v i entry c (cl, flag)) as [cl1 flag1].
  now apply validate_grappled_by_same_but with (E := E).
Qed.

Lemma validate_fold_same_but w v l ks :
  forall st,
    Forall2 same_but_grapple l (fst st) ->
    Forall2 same_but_grapple l (fst (fold_left (validate_entry w v) ks st)).
Proof.
  induction ks as [|k ks IH]; intros st HF; [exact HF|].
  cbn [fold_left]. apply IH. now apply validate_entry_same_but.
Qed.

(** The validation pass changes nothing but grapple references. *)
Lemma validate_same_but_grapple w h :
  Forall2 same_but_grapple (combatants h)
    (combatants (validate_and_cleanup_grapple_state w h)).
Proof.
  unfold validate_and_cleanup_grapple_state.
  assert (Hrefl : Forall2 same_but_grapple (combatants h) (combatants h)).
  { apply Forall_Forall2_diag, Forall_forall. intros e _.
    apply same_but_grapple_refl. }
  pose proof (validate_fold_same_but w (omap char (combatants h))
                (combatants h) (seq 0 (length (combatants h)))
                (combatants h, false) Hrefl) as HF.
  destruct (fold_left _ _ _) as [cl flag]. cbn [fst] in HF.
  destruct flag; [exact HF|exact Hrefl].
Qed.

Lemma same_but_grapple_chars l l' :
  Forall2 same_but_grapple l l' -> char <$> l' = char <$> l.
Proof.
  induction 1 as [|e e' l l' He _ IH]; [reflexivity|].
  cbn. f_equal; [now destruct He|exact IH].
Qed.

Lemma in_roster_chars l c : in_roster l c <-> Some c ∈ char <$> l.
Proof.
  rewrite list_elem_of_fmap. unfold in_roster. split.
  - intros (k & e & Hk & Hc). exists e. split; [now symmetry|].
    eapply list_elem_of_lookup_2; eauto.
  - intros (e & Hc & He). apply list_elem_of_lookup in He as [k Hk].
    exists k, e. auto.
Qed.

Lemma find_entry_in_roster l c :
  (exists r, find_entry l c = Some r) <-> in_roster l c.
Proof.
  split.
  - intros [[k e] Hf]. destruct (find_entry_Some _ _ _ _ Hf). now exists k, e.
  - intros (k & e & Hk & Hc).
    destruct (find_entry l c) as [r|] eqn:Hf; [eauto|].
    exfalso. exact (proj1 (find_entry_None l c) Hf k e Hk Hc).
Qed.

Lemma get_numeric_stat_initialize w c d :
  get_numeric_stat (initialize_proximity w c) c d = get_numeric_stat w c d.
Proof.
  unfold get_numeric_stat, initialize_proximity, dbref.
  rewrite world_lookup_alter.
  destruct (lookup (K := Z) c w) as [st|]; [|reflexivity]. cbn.
  destruct (in_proximity_with st); reflexivity.
Qed.

(** X23. add_combatant keeps one entry per character. For a character
    who has an entry it changes nothing at all, not even the target.
    For a new character it appends one entry (target as given, but
    never the character itself; yielding flag as given; initiative
    roll plus motorics); the entries already there keep their
    character, initiative, target, yielding flag and action, only
    grapple references can change. This holds when starting the
    session leaves the roster alone. *)
Theorem add_combatant_one_entry_each
    (combat_is_running : Handler -> bool) (start : Handler -> Handler)
    (w : World) (h : Handler) (c : dbref)
    (target initial_grappling initial_grappled_by : option dbref)
    (initial_is_yielding : bool) (roll : Z) :
  (forall h0, combatants (start h0) = combatants h0) ->
  let r :=
    add_combatant combat_is_running start w h c target
      initial_grappling initial_grappled_by initial_is_yielding roll in
  (in_roster (combatants h) c -> r = (w, h))
  /\ (~ in_roster (combatants h) c ->
      Forall2 same_but_grapple
        (combatants h
         ++ [ {| char := Some c;
                 initiative := roll + get_numeric_stat w c 0;
                 target_dbref :=
                   if bool_decide (target = Some c) then None else target;
                 grappling_dbref := initial_grappling;
                 grappled_by_dbref := initial_grappled_by;
                 is_yielding := initial_is_yielding;
                 combat_action := None;
                 combat_action_target := None;
                 initiated_combat_this_action := false |} ])
        (combatants (snd r)))
  /\ (NoDup (char <$> combatants h) ->
      NoDup (char <$> combatants (snd r)))
  /\ in_roster (combatants (snd r)) c.
Proof.
  intros Hstart r. subst r. unfold add_combatant.
  destruct (find_entry (combatants h) c) as [found|] eqn:Hf.
  - assert (Hin : in_roster (combatants h) c)
      by (apply find_entry_in_roster; eauto).
    cbn [snd]. split; [reflexivity|]. split; [contradiction|].
    split; [auto|exact Hin].
  - assert (Hout : ~ in_roster (combatants h) c).
    { intros Hin. apply find_entry_in_roster in Hin as [r Hr]. congruence. }
    cbn [snd]. rewrite get_numeric_stat_initialize.
    unfold get_character_dbref.
    match goal with
    | |- context [validate_and_cleanup_grapple_state ?w1 ?h1] =>
        pose proof (validate_same_but_grapple w1 h1) as HF;
        set (h' := validate_and_cleanup_grapple_state w1 h1) in *
    end.
    assert (Hl : forall X,
              combatants (if combat_is_running X then X else start X)
              = combatants X)
      by (intros X; destruct (combat_is_running X); auto).
    rewrite Hl in HF. cbn [combatants set_combatants] in HF.
    pose proof (same_but_grapple_chars _ _ HF) as Hch.
    rewrite fmap_app in Hch. cbn [fmap list_fmap char] in Hch.
    split; [contradiction|]. split; [intros _; exact HF|]. split.
    + intros Hnd. rewrite Hch. apply NoDup_app. split; [exact Hnd|].
      split; [|apply NoDup_singleton].
      intros x Hx Hx'. apply list_elem_of_singleton in Hx'. subst x.
      apply Hout. now apply in_roster_chars.
    + apply in_roster_chars. rewrite Hch. apply elem_of_app. right. left.
Qed.

Lemma add_combatant_one_entry_each_witness :
  NoDup (char <$> combatants
           (snd (add_combatant is_active (fun h => h) example_world
                   (example_handler example_roster) 3 (Some 3) None None
                   false 12)))
  /\ in_roster
       (combatants
          (snd (add_combatant is_active (fun h => h) example_world
                  (example_handler example_roster) 3 (Some 3) None None
                  false 12))) 3.
Proof.
  pose proof (add_combatant_one_entry_each is_active (fun h => h)
                example_world (example_handler example_roster) 3
                (Some 3) None None false 12 (fun h0 => eq_refl))
    as (_ & _ & Hnd & Hin).
  split; [apply Hnd|exact Hin].
  apply (bool_decide_unpack _). vm_compute. exact I.
Defined.

End EnteringFacts.
